(** * Simple-reader: the paragraph translation pipeline and its cache

  A shallow embedding of
  - [src/scripts/models/services/aiCache.ts]  (module [AiCache]),
  - [src/scripts/models/services/aiClient.ts] (module [AiClient]),
  - the cache handlers of [src/main/settings.ts] (module [Settings]),
  - the realignment loop, the language strategy, the text for the
    summary, the translation callback and the use of the cache in
    [src/components/article-ai.ts] (module [ArticleAi]),
  with the properties the specification states about them, and then
  with further properties of the code itself. *)

From Stdlib Require Import ZArith QArith Qminmax Qpower Lia.
From Stdlib Require Strings.String Strings.Ascii.
From stdpp Require Import base option list strings gmap.

Local Open Scope Z_scope.

(** ** JavaScript strings

  A JavaScript string is a sequence of UTF-16 code units; [length],
  indexing, [startsWith], [includes], [substring] and [trim] all work on
  code units, so that is what the model keeps. *)
Module JsString.

Abbreviation jsstring := (list N).

(** An ASCII literal of the source as a list of code units. *)
Fixpoint js (s : String.string) : jsstring :=
  match s with
  | String.EmptyString => []
  | String.String a s' => Ascii.N_of_ascii a :: js s'
  end.

Arguments js s%_string.

(** [s.startsWith(p)] *)
Fixpoint startsWith (p s : jsstring) : bool :=
  match p, s with
  | [], _ => true
  | _ :: _, [] => false
  | a :: p', b :: s' => (a =? b)%N && startsWith p' s'
  end.

(** [s.includes(p)] *)
Fixpoint includes (p s : jsstring) : bool :=
  startsWith p s ||
  match s with
  | [] => false
  | _ :: s' => includes p s'
  end.

(** [s.endsWith(p)] *)
Definition endsWith (p s : jsstring) : bool :=
  startsWith (rev p) (rev s).

(** The code units matched by [\s], which are also the ones [trim]
    removes (WhiteSpace and LineTerminator of ECMAScript). *)
Definition is_space (c : N) : bool :=
  ((9 <=? c) && (c <=? 13) || (c =? 32) || (c =? 160) || (c =? 5760)
   || (8192 <=? c) && (c <=? 8202) || (c =? 8232) || (c =? 8233)
   || (c =? 8239) || (c =? 8287) || (c =? 12288) || (c =? 65279))%N.

Fixpoint trimStart (s : jsstring) : jsstring :=
  match s with
  | c :: s' => if is_space c then trimStart s' else s
  | [] => []
  end.

Definition trimEnd (s : jsstring) : jsstring := rev (trimStart (rev s)).

(** [s.trim()] *)
Definition trim (s : jsstring) : jsstring := trimEnd (trimStart s).

(** A string of white space only. *)
Definition blankString (s : jsstring) : Prop :=
  Forall (fun c => is_space c = true) s.

(** A string that [trim] leaves alone and that is not empty. *)
Definition trimmed (s : jsstring) : Prop := trim s = s /\ s <> [].


End JsString.
Import JsString.

(** ** The cache store ([aiCache.ts]) *)
Module AiCache.

Record AICacheEntry := mkEntry {
  itemId : jsstring;
  summary : option jsstring;
  translation : option jsstring;
  titleTranslation : option jsstring;
  createdAt : Z;
}.

(** What [fs.readFileSync] followed by [JSON.parse] finds in the backing
    file: text that does not parse, or the serialised map. *)
Inductive FileContent :=
| Corrupt
| Json (entries : gmap jsstring AICacheEntry).

(** The module-level variables [cacheFilePath] and [cacheData], together
    with the file system they act on. *)
Record Store := mkStore {
  cacheFilePath : option jsstring;
  cacheData : gmap jsstring AICacheEntry;
  files : gmap jsstring FileContent;
}.

(** The state of a freshly loaded module. *)
Definition fresh (fs : gmap jsstring FileContent) : Store :=
  mkStore None ∅ fs.

(** [loadCache]: a missing file leaves the map as it is, a file that
    does not parse resets it. *)
Definition loadCache (s : Store) : Store :=
  match cacheFilePath s with
  | None => s
  | Some p =>
      match files s !! p with
      | None => s
      | Some (Json m) => mkStore (cacheFilePath s) m (files s)
      | Some Corrupt => mkStore (cacheFilePath s) ∅ (files s)
      end
  end.

(** [initDB]; [path.join(userDataPath, "ai-cache.json")] never yields
    the empty string, so the path is truthy from here on. *)
Definition initDB (userDataPath : jsstring) (s : Store) : Store :=
  loadCache (mkStore (Some (userDataPath ++ js "/ai-cache.json"))
                     (cacheData s) (files s)).

(** [saveCache]; [io] tells whether [fs.writeFileSync] succeeds, a
    failure is caught and logged.  A write that fails is taken here to
    leave the file as it was; one that fails midway can also leave it
    empty or cut short, which is why what is proved below of the files
    after a failed write is proved for any content of the disk. *)
Definition saveCache (io : bool) (s : Store) : Store :=
  match cacheFilePath s with
  | None => s
  | Some p =>
      if io
      then mkStore (cacheFilePath s) (cacheData s)
                   (<[p := Json (cacheData s)]> (files s))
      else s
  end.

(** [cacheData.get(itemId) || { itemId, createdAt: Date.now() }] *)
Definition entryFor (now : Z) (id : jsstring) (s : Store) : AICacheEntry :=
  default (mkEntry id None None None now) (cacheData s !! id).

(** The three writers; [now] is the value of [Date.now()]. *)
Definition saveSummary (now : Z) (io : bool) (id v : jsstring) (s : Store)
  : Store :=
  match cacheFilePath s with
  | None => s
  | Some _ =>
      let entry := entryFor now id s in
      let entry := mkEntry (itemId entry) (Some v) (translation entry)
                           (titleTranslation entry) now in
      saveCache io
        (mkStore (cacheFilePath s) (<[id := entry]> (cacheData s)) (files s))
  end.

Definition saveTranslation (now : Z) (io : bool) (id v : jsstring) (s : Store)
  : Store :=
  match cacheFilePath s with
  | None => s
  | Some _ =>
      let entry := entryFor now id s in
      let entry := mkEntry (itemId entry) (summary entry) (Some v)
                           (titleTranslation entry) now in
      saveCache io
        (mkStore (cacheFilePath s) (<[id := entry]> (cacheData s)) (files s))
  end.

Definition saveTitleTranslation (now : Z) (io : bool) (id v : jsstring)
    (s : Store) : Store :=
  match cacheFilePath s with
  | None => s
  | Some _ =>
      let entry := entryFor now id s in
      let entry := mkEntry (itemId entry) (summary entry) (translation entry)
                           (Some v) now in
      saveCache io
        (mkStore (cacheFilePath s) (<[id := entry]> (cacheData s)) (files s))
  end.

(** [getCache]: [null] is [None]. *)
Definition getCache (id : jsstring) (s : Store) : option AICacheEntry :=
  match cacheFilePath s with
  | None => None
  | Some _ => cacheData s !! id
  end.

(** [clearOldCache(daysToKeep)] deletes the entries with
    [entry.createdAt < cutoffTime]. *)
Definition cutoffTime (now daysToKeep : Z) : Z :=
  now - daysToKeep * 24 * 60 * 60 * 1000.

Definition clearOldCache (now : Z) (io : bool) (daysToKeep : Z) (s : Store)
  : Store :=
  match cacheFilePath s with
  | None => s
  | Some _ =>
      let cutoff := cutoffTime now daysToKeep in
      saveCache io
        (mkStore (cacheFilePath s)
                 (filter (λ kv, ¬ (createdAt kv.2 < cutoff)) (cacheData s))
                 (files s))
  end.

(** [closeDB] *)
Definition closeDB (io : bool) (s : Store) : Store := saveCache io s.


End AiCache.

(** ** The cache handlers of the main process ([main/settings.ts]) *)
Module Settings.

Import AiCache.

(** The variable [cacheInitialized] beside the state of [aiCache]. *)
Record Main := mkMain {
  cacheInitialized : bool;
  store : Store;
}.

(** The main process as it starts. *)
Definition boot (fs : gmap jsstring FileContent) : Main :=
  mkMain false (fresh fs).

(** [ensureCacheInit]; [ready] is [app.isReady()] and [userData] is
    [app.getPath("userData")]. *)
Definition ensureCacheInit (ready : bool) (userData : jsstring) (m : Main)
  : Main :=
  if negb (cacheInitialized m) && ready
  then mkMain true (initDB userData (store m))
  else m.

(** The handlers of [ai-cache-get], [ai-cache-save-summary],
    [ai-cache-save-translation], [ai-cache-save-title-translation] and
    [ai-cache-clear-old], and the listener of [before-quit]. *)
Definition ai_cache_get (ready : bool) (userData itemId : jsstring) (m : Main)
  : Main * option AICacheEntry :=
  let m := ensureCacheInit ready userData m in
  (m, getCache itemId (store m)).

Definition ai_cache_save_summary (ready : bool) (userData : jsstring)
    (now : Z) (io : bool) (itemId v : jsstring) (m : Main) : Main :=
  let m := ensureCacheInit ready userData m in
  mkMain (cacheInitialized m) (saveSummary now io itemId v (store m)).

Definition ai_cache_save_translation (ready : bool) (userData : jsstring)
    (now : Z) (io : bool) (itemId v : jsstring) (m : Main) : Main :=
  let m := ensureCacheInit ready userData m in
  mkMain (cacheInitialized m) (saveTranslation now io itemId v (store m)).

Definition ai_cache_save_title_translation (ready : bool)
    (userData : jsstring) (now : Z) (io : bool) (itemId v : jsstring)
    (m : Main) : Main :=
  let m := ensureCacheInit ready userData m in
  mkMain (cacheInitialized m) (saveTitleTranslation now io itemId v (store m)).

Definition ai_cache_clear_old (ready : bool) (userData : jsstring) (now : Z)
    (io : bool) (daysToKeep : Z) (m : Main) : Main :=
  let m := ensureCacheInit ready userData m in
  mkMain (cacheInitialized m) (clearOldCache now io daysToKeep (store m)).

Definition before_quit (io : bool) (m : Main) : Main :=
  mkMain (cacheInitialized m) (closeDB io (store m)).

(** The flag is set only together with the path. *)
Definition coherent (m : Main) : Prop :=
  cacheInitialized m = true -> is_Some (cacheFilePath (store m)).

End Settings.

(** ** The completion client and the batch executor ([aiClient.ts]) *)
Module AiClient.

Inductive Role := user | system | assistant.

Record ChatMessage := mkMessage {
  role : Role;
  content : jsstring;
}.

Record ChatCompletionRequest := mkRequest {
  messages : list ChatMessage;
  temperature : Q;
  max_tokens : Z;
}.

Record AiConfig := mkConfig {
  baseUrl : jsstring;
  apiKey : jsstring;
  defaultModel : jsstring;
  concurrency : option Z;
  maxTextLengthPerRequest : option Z;
  maxParagraphsPerRequest : option Z;
  prompts_summary : option jsstring;
  prompts_translation : option jsstring;
}.

Inductive TargetLang := zh | en.

(** A thrown value: the [name] and [message] of an [Error]. *)
Record JsError := mkError {
  name : jsstring;
  message : jsstring;
}.

(** [new Error(msg)] *)
Definition Error (msg : jsstring) : JsError := mkError (js "Error") msg.

(** How the promise of [chatCompletion] settles. *)
Inductive Completion :=
| Resolved (text : jsstring)
| Rejected (e : JsError).

(** Values of [JSON.parse]. *)
#[local] Unset Elimination Schemes.
Inductive Json :=
| JNull
| JBool (b : bool)
| JNumber (q : Q)
| JString (s : jsstring)
| JArray (l : list Json)
| JObject (l : list (jsstring * Json)).
#[local] Set Elimination Schemes.

(** What the code takes from the JavaScript runtime, and the literal
    prompt texts of the source, whose wording no property depends on.
    [JSON_parse] is [None] where [JSON.parse] throws. *)
Class Runtime := {
  JSON_parse : jsstring -> option Json;
  JSON_stringify : list jsstring -> jsstring;
  String_of : Json -> jsstring;
  defaultPrompt : jsstring;
  batchSystemPrompt : TargetLang -> jsstring;
}.

(** [x || d] on an optional number: [undefined] and [0] are falsy. *)
Definition or_number (x : option Z) (d : Z) : Z :=
  match x with
  | Some v => if v =? 0 then d else v
  | None => d
  end.

(** [x || d] on an optional string: [undefined] and the empty string are
    falsy. *)
Definition or_string (x : option jsstring) (d : jsstring) : jsstring :=
  match x with
  | Some (c :: v) => c :: v
  | _ => d
  end.

(** *** Asynchronous computations

    An [async] function body as a tree: the places where it waits for the
    outside ([await chatCompletion], [await] a timer), its reads of the
    abort signal, its writes to the shared [results] array and its calls
    of [onParagraphTranslated].  [Diverge] stands for a loop the model
    has not unrolled far enough. *)
Inductive Async (A : Type) : Type :=
| Return (a : A)
| Throw (e : JsError)
| AwaitChat (req : ChatCompletionRequest) (k : Completion -> Async A)
| AwaitTimeout (ms : Q) (k : Async A)
| ReadAborted (k : bool -> Async A)
| WriteTranslated (i : nat) (t : jsstring) (k : bool -> Async A)
| Callback (i : nat) (t : jsstring) (k : Async A)
| Diverge.

Arguments Return {A} a.
Arguments Throw {A} e.
Arguments AwaitChat {A} req k.
Arguments AwaitTimeout {A} ms k.
Arguments ReadAborted {A} k.
Arguments WriteTranslated {A} i t k.
Arguments Callback {A} i t k.
Arguments Diverge {A}.

Fixpoint bind {A B} (p : Async A) (f : A -> Async B) : Async B :=
  match p with
  | Return a => f a
  | Throw e => Throw e
  | AwaitChat req k => AwaitChat req (fun r => bind (k r) f)
  | AwaitTimeout ms k => AwaitTimeout ms (bind k f)
  | ReadAborted k => ReadAborted (fun b => bind (k b) f)
  | WriteTranslated i t k => WriteTranslated i t (fun ok => bind (k ok) f)
  | Callback i t k => Callback i t (bind k f)
  | Diverge => Diverge
  end.

(** [try { p } catch (e) { h e }] *)
Fixpoint try_catch {A} (p : Async A) (h : JsError -> Async A) : Async A :=
  match p with
  | Return a => Return a
  | Throw e => h e
  | AwaitChat req k => AwaitChat req (fun r => try_catch (k r) h)
  | AwaitTimeout ms k => AwaitTimeout ms (try_catch k h)
  | ReadAborted k => ReadAborted (fun b => try_catch (k b) h)
  | WriteTranslated i t k => WriteTranslated i t (fun ok => try_catch (k ok) h)
  | Callback i t k => Callback i t (try_catch k h)
  | Diverge => Diverge
  end.

Notation "x <- p ;; q" := (bind p (fun x => q))
  (at level 100, p at next level, right associativity).
Notation "p ;;; q" := (bind p (fun _ => q))
  (at level 100, right associativity).

(** [await chatCompletion(config, request, signal)]: the remote call is
    opaque, it resolves to the generated text or throws. *)
Definition chatCompletion (request : ChatCompletionRequest) : Async jsstring :=
  AwaitChat request (fun r =>
    match r with
    | Resolved text => Return text
    | Rejected e => Throw e
    end).

(** The request [translateText] sends; the source does not use
    [targetLang] either. *)
Definition translateRequest `{Runtime} (config : AiConfig) (text : jsstring)
  : ChatCompletionRequest :=
  let systemPrompt := or_string (prompts_translation config) defaultPrompt in
  mkRequest [mkMessage system systemPrompt; mkMessage user text] (3 # 10) 3000.

Definition translateText `{Runtime} (config : AiConfig) (text : jsstring)
    (targetLang : TargetLang) : Async jsstring :=
  chatCompletion (translateRequest config text).

(** The request of the multi-fragment path of [translateBatch]. *)
Definition batchRequest `{Runtime} (texts : list jsstring)
    (targetLang : TargetLang) : ChatCompletionRequest :=
  let content := JSON_stringify texts in
  mkRequest [mkMessage system (batchSystemPrompt targetLang);
             mkMessage user content]
            (3 # 10) 4000.

(** The clean-up of the raw response before [JSON.parse]. *)
Definition fence_json : jsstring := js "```json".
Definition fence : jsstring := js "```".

Definition cleanResponse (responseRaw : jsstring) : jsstring :=
  let cleaned := trim responseRaw in
  let cleaned := if startsWith fence_json cleaned then drop 7 cleaned
                 else cleaned in
  let cleaned := if startsWith fence cleaned then drop 3 cleaned
                 else cleaned in
  let cleaned := if endsWith fence cleaned
                 then take (length cleaned - 3) cleaned else cleaned in
  trim cleaned.

(** The body of the [try] block of [translateBatch]: [None] where it
    throws (not JSON, not an array, or an array of another length). *)
Definition parseBatch `{Runtime} (cleaned : jsstring) (expected : nat)
  : option (list jsstring) :=
  match JSON_parse cleaned with
  | Some (JArray parsed) =>
      if bool_decide (length parsed = expected)
      then Some (map String_of parsed)
      else None
  | _ => None
  end.

(** The [catch] block of [translateBatch]: one [translateText] per text,
    in order. *)
Fixpoint translateSequential `{Runtime} (config : AiConfig)
    (texts : list jsstring) (targetLang : TargetLang)
  : Async (list jsstring) :=
  match texts with
  | [] => Return []
  | t :: rest =>
      r <- translateText config t targetLang ;;
      results <- translateSequential config rest targetLang ;;
      Return (r :: results)
  end.

Definition translateBatch `{Runtime} (config : AiConfig)
    (texts : list jsstring) (targetLang : TargetLang)
  : Async (list jsstring) :=
  match texts with
  | [] => Return []
  | [t] =>
      r <- translateText config t targetLang ;;
      Return [r]
  | _ =>
      responseRaw <- chatCompletion (batchRequest texts targetLang) ;;
      match parseBatch (cleanResponse responseRaw) (length texts) with
      | Some translated => Return translated
      | None => translateSequential config texts targetLang
      end
  end.

(** *** The batch plan *)

Record Batch := mkBatch {
  indices : list nat;
  texts : list jsstring;
}.

(** The variables of the planning loop. *)
Record Planner := mkPlanner {
  batches : list Batch;
  currentBatch : Batch;
  currentBatchLen : Z;
}.

Definition emptyBatch : Batch := mkBatch [] [].

(** One iteration of [for (let i = 0; i < paragraphs.length; i++)]. *)
Definition planParagraph (maxBatchSize maxTextLen : Z) (st : Planner)
    (i : nat) (p : jsstring) : Planner :=
  let len := Z.of_nat (length p) in
  let count := Z.of_nat (length (indices (currentBatch st))) in
  let st :=
    if (0 <? count) &&
       ((maxBatchSize <=? count) || (maxTextLen <? currentBatchLen st + len))
    then mkPlanner (batches st ++ [currentBatch st]) emptyBatch 0
    else st in
  mkPlanner (batches st)
            (mkBatch (indices (currentBatch st) ++ [i])
                     (texts (currentBatch st) ++ [p]))
            (currentBatchLen st + len).

Fixpoint planLoop (maxBatchSize maxTextLen : Z) (i : nat)
    (paragraphs : list jsstring) (st : Planner) : Planner :=
  match paragraphs with
  | [] => st
  | p :: rest =>
      planLoop maxBatchSize maxTextLen (S i) rest
               (planParagraph maxBatchSize maxTextLen st i p)
  end.

(** The section "Create batches" of [translateTextByParagraph]. *)
Definition createBatches (maxBatchSize maxTextLen : Z)
    (paragraphs : list jsstring) : list Batch :=
  let st := planLoop maxBatchSize maxTextLen 0 paragraphs
                     (mkPlanner [] emptyBatch 0) in
  if (0 <? Z.of_nat (length (indices (currentBatch st))))
  then batches st ++ [currentBatch st]
  else batches st.

(** The cumulative length of the texts of a batch. *)
Definition batchChars (b : Batch) : Z :=
  foldr (fun t acc => Z.of_nat (length t) + acc) 0 (texts b).

(** A batch within the limits: not empty, one text per index, at most
    [maxCount] fragments, and at most [maxChars] code units unless it
    holds a single fragment. *)
Definition withinLimits (maxCount maxChars : Z) (b : Batch) : Prop :=
  indices b <> []
  /\ length (indices b) = length (texts b)
  /\ Z.of_nat (length (indices b)) <= maxCount
  /\ (batchChars b <= maxChars \/ length (indices b) = 1%nat).

(** The invariant of the planning loop once the paragraphs [seen] are
    behind it. *)
Definition planned (maxCount maxChars : Z) (seen : list jsstring)
    (st : Planner) : Prop :=
  concat (map indices (batches st)) ++ indices (currentBatch st)
    = seq 0 (length seen)
  /\ concat (map texts (batches st)) ++ texts (currentBatch st) = seen
  /\ Forall (withinLimits maxCount maxChars) (batches st)
  /\ length (indices (currentBatch st)) = length (texts (currentBatch st))
  /\ Z.of_nat (length (indices (currentBatch st))) <= maxCount
  /\ (batchChars (currentBatch st) <= maxChars
      \/ (length (indices (currentBatch st)) <= 1)%nat)
  /\ currentBatchLen st = batchChars (currentBatch st).

(** *** The failure marker

    [/(?:\[\s*翻译失败\s*\]|翻译失败|translation\s*failed)/i.test(t)].
    Without the [u] flag, case folding maps no code unit above 127 onto an
    ASCII letter, so folding the ASCII letters is all the [i] flag does to
    this pattern; every [\s*] is followed by a code unit that is not a
    space, so skipping all spaces is what the matcher ends up doing. *)
Definition fanyi_shibai : jsstring := [32763; 35793; 22833; 36133]%N.

Definition canonicalize (c : N) : N :=
  if ((97 <=? c) && (c <=? 122))%N then (c - 32)%N else c.

Fixpoint startsWith_i (p s : jsstring) : bool :=
  match p, s with
  | [], _ => true
  | _ :: _, [] => false
  | a :: p', b :: s' =>
      (canonicalize a =? canonicalize b)%N && startsWith_i p' s'
  end.

Definition marker_bracketed (s : jsstring) : bool :=
  match s with
  | c :: r =>
      (c =? 91)%N &&
      let r := trimStart r in
      startsWith fanyi_shibai r &&
      match trimStart (drop 4 r) with
      | c' :: _ => (c' =? 93)%N
      | [] => false
      end
  | [] => false
  end.

Definition marker_english (s : jsstring) : bool :=
  startsWith_i (js "translation") s &&
  startsWith_i (js "failed") (trimStart (drop 11 s)).

Definition marker_at (s : jsstring) : bool :=
  marker_bracketed s || startsWith fanyi_shibai s || marker_english s.

Fixpoint failureMarker (t : jsstring) : bool :=
  marker_at t ||
  match t with
  | [] => false
  | _ :: t' => failureMarker t'
  end.

(** *** [processBatch] *)

Record TranslationResult := mkResult {
  original : jsstring;
  translated : jsstring;
}.

Definition maxRetries : nat := 20.

(** [Math.min(1000 * Math.pow(1.5, retryCount - 1), 10000)]; the powers
    of 1.5 that occur are exact in floating point. *)
Definition retryDelay (retryCount : nat) : Q :=
  Qmin (1000 * (3 # 2) ^ (Z.of_nat retryCount - 1))%Q 10000%Q.

(** [err.name === "AbortError" || err.message?.includes("Abort")] *)
Definition isAbort (err : JsError) : bool :=
  bool_decide (name err = js "AbortError") || includes (js "Abort") (message err).

(** What assigning to a property of [undefined] throws. *)
Definition TypeError : JsError :=
  mkError (js "TypeError") (js "Cannot set properties of undefined").

(** The validating [translatedTexts.forEach]: it throws at the first
    text that carries the failure marker. *)
Definition verifyContent (translatedTexts : list jsstring) : Async unit :=
  match List.find failureMarker translatedTexts with
  | Some t => Throw (Error (js "Content verification failed: " ++ t))
  | None => Return tt
  end.

(** [if (onParagraphTranslated && !signal?.aborted) onParagraphTranslated(i, t)];
    the callback itself returns normally. *)
Definition notify (onParagraphTranslated : bool) (i : nat) (t : jsstring)
  : Async unit :=
  if onParagraphTranslated
  then ReadAborted (fun aborted =>
         if aborted then Return tt else Callback i t (Return tt))
  else Return tt.

(** [results[i].translated = t], a [TypeError] where [results[i]] is
    [undefined]. *)
Definition assignTranslated (i : nat) (t : jsstring) : Async unit :=
  WriteTranslated i t (fun ok => if ok then Return tt else Throw TypeError).

(** The updating [batch.indices.forEach((originalIndex, batchIndex) => ...)].
    [translatedTexts[batchIndex]] is always defined, because
    [translateBatch] returns as many texts as it was given; the default of
    [nth] is never read. *)
Fixpoint updateResults (onParagraphTranslated : bool)
    (translatedTexts : list jsstring) (batchIndex : nat) (idxs : list nat)
  : Async unit :=
  match idxs with
  | [] => Return tt
  | originalIndex :: rest =>
      let trans := nth batchIndex translatedTexts [] in
      assignTranslated originalIndex trans ;;;
      notify onParagraphTranslated originalIndex trans ;;;
      updateResults onParagraphTranslated translatedTexts (S batchIndex) rest
  end.

(** The body of the [try] block. *)
Definition attempt `{Runtime} (config : AiConfig) (onParagraphTranslated : bool)
    (targetLang : TargetLang) (batch : Batch) : Async unit :=
  translatedTexts <- translateBatch config (texts batch) targetLang ;;
  verifyContent translatedTexts ;;;
  updateResults onParagraphTranslated translatedTexts 0 (indices batch).

(** "Mark as empty to stop spinning". *)
Fixpoint markEmpty (idxs : list nat) : Async unit :=
  match idxs with
  | [] => Return tt
  | originalIndex :: rest =>
      assignTranslated originalIndex [] ;;; markEmpty rest
  end.

(** The [while (!success)] loop, unrolled [fuel] times. *)
Fixpoint retryLoop `{Runtime} (fuel : nat) (config : AiConfig)
    (onParagraphTranslated : bool) (targetLang : TargetLang) (batch : Batch)
    (retryCount : nat) : Async unit :=
  match fuel with
  | O => Diverge
  | S fuel' =>
      ReadAborted (fun aborted =>
        if aborted then Throw (Error (js "Aborted"))
        else
          try_catch
            (attempt config onParagraphTranslated targetLang batch)
            (fun err =>
               if isAbort err then Throw err
               else
                 let retryCount := S retryCount in
                 if (maxRetries <? retryCount)%nat
                 then markEmpty (indices batch)
                 else
                   AwaitTimeout (retryDelay retryCount)
                     (retryLoop fuel' config onParagraphTranslated targetLang
                                batch retryCount)))
  end.

Definition processBatch `{Runtime} (config : AiConfig)
    (onParagraphTranslated : bool) (targetLang : TargetLang) (batch : Batch)
  : Async unit :=
  ReadAborted (fun aborted =>
    if aborted then Return tt
    else retryLoop (S maxRetries) config onParagraphTranslated targetLang
                   batch 0).

(** *** The run of [translateTextByParagraph]

    What the tasks share: the [results] array, the abort flag of the
    signal, and, for the record, the requests sent and the callbacks
    made. *)
Record World := mkWorld {
  results : list TranslationResult;
  aborted : bool;
  requests : list ChatCompletionRequest;
  reported : list (nat * jsstring);
}.

(** The world once [req] has gone out. *)
Definition send (req : ChatCompletionRequest) (w : World) : World :=
  mkWorld (results w) (aborted w) (requests w ++ [req]) (reported w).

Definition setTranslated (i : nat) (t : jsstring)
    (rs : list TranslationResult) : option (list TranslationResult) :=
  match rs !! i with
  | Some r => Some (<[i := mkResult (original r) t]> rs)
  | None => None
  end.

(** Where a started [processBatch] stands between two events. *)
Inductive TaskStatus :=
| AwaitingChat (k : Completion -> Async unit)
| AwaitingTimer (k : Async unit)
| Fulfilled
| Failed (e : JsError)
| Spinning.

(** Run a task up to its next [await], or to its end. *)
Fixpoint advance (p : Async unit) (w : World) : World * TaskStatus :=
  match p with
  | Return _ => (w, Fulfilled)
  | Throw e => (w, Failed e)
  | AwaitChat req k => (send req w, AwaitingChat k)
  | AwaitTimeout _ k => (w, AwaitingTimer k)
  | ReadAborted k => advance (k (aborted w)) w
  | WriteTranslated i t k =>
      match setTranslated i t (results w) with
      | Some rs =>
          advance (k true) (mkWorld rs (aborted w) (requests w) (reported w))
      | None => advance (k false) w
      end
  | Callback i t k =>
      advance k (mkWorld (results w) (aborted w) (requests w)
                         (reported w ++ [(i, t)]))
  | Diverge => (w, Spinning)
  end.

(** The arguments of one call of [translateTextByParagraph]. *)
Record Call := mkCall {
  config : AiConfig;
  paragraphs : list jsstring;
  onParagraphTranslated : bool;
  forcedTargetLang : option TargetLang;
}.

(** [/[一-龥]/.test(sampleText)] *)
Definition hasHan (s : jsstring) : bool :=
  existsb (fun c => (19968 <=? c) && (c <=? 40869))%N s.

Definition targetLang (c : Call) : TargetLang :=
  match forcedTargetLang c with
  | Some l => l
  | None =>
      let sampleText := default [] (head (paragraphs c)) in
      if hasHan sampleText then en else zh
  end.

Definition maxBatchSize (c : Call) : Z :=
  or_number (maxParagraphsPerRequest (config c)) 1.
Definition maxTextLen (c : Call) : Z :=
  or_number (maxTextLengthPerRequest (config c)) 1500.
Definition concurrencyLimit (c : Call) : Z :=
  or_number (concurrency (config c)) 5.

(** Where the body of [translateTextByParagraph] stands: at the head of
    the [for] loop, at the condition of the inner [while], waiting in
    [Promise.race] or [Promise.all], or finished. *)
Inductive MainPc :=
| AtFor
| AtWhile
| InRace (snapshot : list nat)
| InAll (waiting : list nat)
| Returned
| Threw (e : JsError).

(** [activePromises] holds, in array order, the promises [p] of the
    batches started and not yet spliced out, each with the status of its
    [processBatch]; [queue] is what the [for] loop has still to visit. *)
Record Machine := mkMachine {
  world : World;
  queue : list Batch;
  activePromises : list (nat * TaskStatus);
  nextId : nat;
  pc : MainPc;
}.

Fixpoint statusOf (tid : nat) (a : list (nat * TaskStatus)) : option TaskStatus :=
  match a with
  | [] => None
  | (i, st) :: rest => if (i =? tid)%nat then Some st else statusOf tid rest
  end.

Fixpoint setStatus (tid : nat) (st : TaskStatus) (a : list (nat * TaskStatus))
  : list (nat * TaskStatus) :=
  match a with
  | [] => []
  | (i, old) :: rest =>
      if (i =? tid)%nat then (i, st) :: rest
      else (i, old) :: setStatus tid st rest
  end.

(** [activePromises.splice(activePromises.indexOf(p), 1)] *)
Fixpoint splice (tid : nat) (a : list (nat * TaskStatus))
  : list (nat * TaskStatus) :=
  match a with
  | [] => []
  | (i, st) :: rest =>
      if (i =? tid)%nat then rest else (i, st) :: splice tid rest
  end.

Fixpoint firstFailed (a : list (nat * TaskStatus)) : option JsError :=
  match a with
  | [] => None
  | (_, Failed e) :: _ => Some e
  | _ :: rest => firstFailed rest
  end.

Fixpoint removeId (tid : nat) (l : list nat) : list nat :=
  match l with
  | [] => []
  | i :: rest => if (i =? tid)%nat then rest else i :: removeId tid rest
  end.

Definition memId (tid : nat) (l : list nat) : bool :=
  existsb (Nat.eqb tid) l.

(** [await Promise.race(activePromises)]: a promise of the array that is
    already rejected settles the race at once; an empty array never
    settles it. *)
Definition awaitRace (a : list (nat * TaskStatus)) : MainPc :=
  match firstFailed a with
  | Some e => Threw e
  | None => InRace (map fst a)
  end.

(** [await Promise.all(activePromises); return results] *)
Definition awaitAll (a : list (nat * TaskStatus)) : MainPc :=
  match firstFailed a with
  | Some e => Threw e
  | None =>
      match a with
      | [] => Returned
      | _ => InAll (map fst a)
      end
  end.

(** What the settling of promise [tid] does to the waiting body:
    [None] is fulfilment, [Some e] rejection with [e]. *)
Definition settle (tid : nat) (o : option JsError) (at_ : MainPc) : MainPc :=
  match at_ with
  | InRace snapshot =>
      if memId tid snapshot
      then match o with
           | None => AtWhile
           | Some e => Threw e
           end
      else at_
  | InAll waiting =>
      if memId tid waiting
      then match o with
           | None =>
               match removeId tid waiting with
               | [] => Returned
               | rest => InAll rest
               end
           | Some e => Threw e
           end
      else at_
  | _ => at_
  end.

(** The state in which the body reaches its [for] loop: results
    preallocated, batches planned, nothing started. *)
Definition start (c : Call) (aborted0 : bool) : Machine :=
  mkMachine
    (mkWorld (map (fun p => mkResult p []) (paragraphs c)) aborted0 [] [])
    (createBatches (maxBatchSize c) (maxTextLen c) (paragraphs c))
    [] 0 AtFor.

(** One step of the body. *)
Definition mainStep `{Runtime} (c : Call) (m : Machine) : option Machine :=
  match pc m with
  | AtFor =>
      match queue m with
      | [] =>
          Some (mkMachine (world m) (queue m) (activePromises m) (nextId m)
                          (awaitAll (activePromises m)))
      | _ :: _ =>
          if aborted (world m)
          then Some (mkMachine (world m) (queue m) (activePromises m)
                               (nextId m) (awaitAll (activePromises m)))
          else Some (mkMachine (world m) (queue m) (activePromises m)
                               (nextId m) AtWhile)
      end
  | AtWhile =>
      match queue m with
      | [] => None
      | batch :: rest =>
          if concurrencyLimit c <=? Z.of_nat (length (activePromises m))
          then Some (mkMachine (world m) (queue m) (activePromises m)
                               (nextId m) (awaitRace (activePromises m)))
          else
            let '(w, st) :=
              advance (processBatch (config c) (onParagraphTranslated c)
                                    (targetLang c) batch) (world m) in
            Some (mkMachine w rest (activePromises m ++ [(nextId m, st)])
                            (S (nextId m)) AtFor)
      end
  | _ => None
  end.

(** A task resumes with [p] and runs to its next [await]; a rejection
    rejects its promise [p] as well. *)
Definition resume (tid : nat) (p : Async unit) (m : Machine) : Machine :=
  let '(w, st) := advance p (world m) in
  mkMachine w (queue m) (setStatus tid st (activePromises m)) (nextId m)
            match st with
            | Failed e => settle tid (Some e) (pc m)
            | _ => pc m
            end.

(** What can happen: the body runs, a completion arrives for a task, a
    timer fires, the [then] callback of a fulfilled [processBatch] runs,
    or the signal is aborted. *)
Inductive Event :=
| EvMain
| EvChat (tid : nat) (r : Completion)
| EvTimer (tid : nat)
| EvThen (tid : nat)
| EvAbort.

Definition step `{Runtime} (c : Call) (ev : Event) (m : Machine)
  : option Machine :=
  match ev with
  | EvMain => mainStep c m
  | EvChat tid r =>
      match statusOf tid (activePromises m) with
      | Some (AwaitingChat k) => Some (resume tid (k r) m)
      | _ => None
      end
  | EvTimer tid =>
      match statusOf tid (activePromises m) with
      | Some (AwaitingTimer k) => Some (resume tid k m)
      | _ => None
      end
  | EvThen tid =>
      match statusOf tid (activePromises m) with
      | Some Fulfilled =>
          Some (mkMachine (world m) (queue m) (splice tid (activePromises m))
                          (nextId m) (settle tid None (pc m)))
      | _ => None
      end
  | EvAbort =>
      Some (mkMachine
              (mkWorld (results (world m)) true (requests (world m))
                       (reported (world m)))
              (queue m) (activePromises m) (nextId m) (pc m))
  end.

Fixpoint steps `{Runtime} (c : Call) (evs : list Event) (m : Machine)
  : option Machine :=
  match evs with
  | [] => Some m
  | ev :: rest =>
      match step c ev m with
      | Some m' => steps c rest m'
      | None => None
      end
  end.

(** The tasks that are started and not finished. *)
Definition inFlight (st : TaskStatus) : bool :=
  match st with
  | AwaitingChat _ | AwaitingTimer _ | Spinning => true
  | Fulfilled | Failed _ => false
  end.

Definition inFlightCount (m : Machine) : nat :=
  length (filter (fun e => inFlight e.2 = true) (activePromises m)).

(** What the promise of [translateTextByParagraph] has settled to. *)
Inductive Outcome :=
| Pending
| Value (rs : list TranslationResult)
| Exception (e : JsError).

Definition outcome (m : Machine) : Outcome :=
  match pc m with
  | Returned => Value (results (world m))
  | Threw e => Exception e
  | _ => Pending
  end.

(** *** A driver

    The event loop with the service played by [oracle]: the body runs
    whenever it can, otherwise the first task of [activePromises] that
    can move does, a pending request being answered by the oracle. *)
Definition Oracle := Machine -> nat -> Completion.

Fixpoint firstMove (oracle : Oracle) (m : Machine)
    (a : list (nat * TaskStatus)) : option Event :=
  match a with
  | [] => None
  | (tid, AwaitingChat _) :: _ => Some (EvChat tid (oracle m tid))
  | (tid, AwaitingTimer _) :: _ => Some (EvTimer tid)
  | (tid, Fulfilled) :: _ => Some (EvThen tid)
  | _ :: rest => firstMove oracle m rest
  end.

Definition nextEvent (oracle : Oracle) (m : Machine) : option Event :=
  match pc m with
  | AtFor | AtWhile => Some EvMain
  | InRace _ | InAll _ => firstMove oracle m (activePromises m)
  | Returned | Threw _ => None
  end.

Fixpoint run `{Runtime} (c : Call) (oracle : Oracle) (fuel : nat) (m : Machine)
  : Machine :=
  match fuel with
  | O => m
  | S fuel' =>
      match nextEvent oracle m with
      | Some ev =>
          match step c ev m with
          | Some m' => run c oracle fuel' m'
          | None => m
          end
      | None => m
      end
  end.

(** A runtime for the examples: its [JSON.parse] rejects every text
    (the service never answers in JSON), the prompts are empty. *)
Definition plainRuntime : Runtime :=
  Build_Runtime (fun _ => None) (fun _ => []) (fun _ => []) []
                (fun _ => []).

(** *** One task on its own

    [runTask p rs w] feeds the completions [rs] to [p] in order and lets
    every timer fire; it gives the world and the way [p] ended together
    with the completions left over, or [None] if [rs] runs out. *)
Inductive Ending (A : Type) :=
| Done (a : A)
| Crashed (e : JsError)
| Hung.

Arguments Done {A} a.
Arguments Crashed {A} e.
Arguments Hung {A}.

Fixpoint runTask {A} (p : Async A) (rs : list Completion) (w : World)
  : option (World * Ending A * list Completion) :=
  match p with
  | Return a => Some (w, Done a, rs)
  | Throw e => Some (w, Crashed e, rs)
  | AwaitChat req k =>
      match rs with
      | [] => None
      | r :: rest => runTask (k r) rest (send req w)
      end
  | AwaitTimeout _ k => runTask k rs w
  | ReadAborted k => runTask (k (aborted w)) rs w
  | WriteTranslated i t k =>
      match setTranslated i t (results w) with
      | Some res =>
          runTask (k true) rs
            (mkWorld res (aborted w) (requests w) (reported w))
      | None => runTask (k false) rs w
      end
  | Callback i t k =>
      runTask k rs
        (mkWorld (results w) (aborted w) (requests w) (reported w ++ [(i, t)]))
  | Diverge => Some (w, Hung, rs)
  end.

(** The configuration of the repository's unit tests. *)
Definition exampleConfig : AiConfig :=
  mkConfig (js "https://api.example.com/v1") (js "test-key") (js "gpt-test")
           None None None None None.

(** *** Runs without cancellation

    A completion is quiet if nothing in it makes the [catch] block of
    [processBatch] take it for a cancellation: a rejection whose error
    fails the test [isAbort], or a text that does not contain "Abort",
    neither as it is nor in the strings parsed out of it. *)
Definition noAbort (t : jsstring) : Prop := includes (js "Abort") t = false.

(** The errors the [catch] block retries. *)
Definition benign (e : JsError) : Prop := isAbort e = false.

(** [failedAttempts body k rs w]: [k] times in a row, [body] run on the
    completions at hand throws an error that is retried; what is left of
    the completions and of the world afterwards. *)
Fixpoint failedAttempts (body : Async unit) (k : nat) (rs : list Completion)
    (w : World) : option (World * list Completion) :=
  match k with
  | O => Some (w, rs)
  | S k' =>
      match runTask body rs w with
      | Some (w', Crashed e, rest) =>
          if isAbort e then None else failedAttempts body k' rest w'
      | _ => None
      end
  end.

Definition quiet `{Runtime} (r : Completion) : Prop :=
  match r with
  | Rejected e => isAbort e = false
  | Resolved raw =>
      noAbort raw
      /\ forall parsed,
           JSON_parse (cleanResponse raw) = Some (JArray parsed) ->
           Forall (fun v => noAbort (String_of v)) parsed
  end.

(** [tame n R T d p]: fed quiet completions, with the signal not aborted
    and [results] of length [n], the computation [p] waits at most [d]
    times, writes only inside [results], does not diverge, and ends with a
    value in [R] or an exception in [T]. *)
Inductive tame `{Runtime} {A : Type} (n : nat) (R : A -> Prop)
    (T : JsError -> Prop) : nat -> Async A -> Prop :=
| tame_Return d a : R a -> tame n R T d (Return a)
| tame_Throw d e : T e -> tame n R T d (Throw e)
| tame_AwaitChat d req k :
    (forall r, quiet r -> tame n R T d (k r)) ->
    tame n R T (S d) (AwaitChat req k)
| tame_AwaitTimeout d ms k :
    tame n R T d k -> tame n R T (S d) (AwaitTimeout ms k)
| tame_ReadAborted d k :
    tame n R T d (k false) -> tame n R T d (ReadAborted k)
| tame_WriteTranslated d i t k :
    (i < n)%nat -> tame n R T d (k true) ->
    tame n R T d (WriteTranslated i t k)
| tame_Callback d i t k :
    tame n R T d k -> tame n R T d (Callback i t k).

(** A task that neither throws nor waits more than [d] times. *)
Definition tameTask `{Runtime} (n d : nat) (p : Async unit) : Prop :=
  tame n (fun _ => True) (fun _ => False) d p.

(** The number of waits one [processBatch] can need: 21 attempts of one
    request per text and one more, each followed by a timer. *)
Definition taskBound (b : Batch) : nat := 21 * (2 + length (texts b)).

(** A measure that every event of a run without cancellation lowers. *)
Definition statusWeight `{Runtime} (n : nat) (e : nat * TaskStatus) (wt : nat)
  : Prop :=
  match e.2 with
  | AwaitingChat k =>
      exists d, wt = (d + 4)%nat /\ forall r, quiet r -> tameTask n d (k r)
  | AwaitingTimer k => exists d, wt = (d + 4)%nat /\ tameTask n d k
  | Fulfilled => wt = 3%nat
  | Failed _ | Spinning => False
  end.

Definition pcWeight (at_ : MainPc) : nat :=
  match at_ with
  | AtFor => 2
  | AtWhile => 1
  | _ => 0
  end.

Definition queueWeight (q : list Batch) : nat :=
  foldr (fun b acc => taskBound b + 5 + acc)%nat O q.

Definition sumWeights (ws : list nat) : nat := foldr Nat.add O ws.

(** Where the body stands agrees with the queue [q] and with the
    promises [ids] in [activePromises]. *)
Definition consistent (at_ : MainPc) (q : list Batch) (ids : list nat)
  : Prop :=
  match at_ with
  | AtFor => True
  | AtWhile => q <> []
  | InRace snapshot => snapshot = ids /\ snapshot <> [] /\ q <> []
  | InAll waiting => waiting = ids /\ waiting <> []
  | Returned => ids = []
  | Threw _ => False
  end.

Definition pcConsistent (m : Machine) : Prop :=
  consistent (pc m) (queue m) (map fst (activePromises m)).

(** The states of a run that has seen no cancellation, with a bound [N]
    on the events it can still take. *)
Definition calm `{Runtime} (n : nat) (m : Machine) (N : nat) : Prop :=
  aborted (world m) = false
  /\ length (results (world m)) = n
  /\ Forall (fun b => Forall (fun i => i < n)%nat (indices b)) (queue m)
  /\ pcConsistent m
  /\ exists ws,
       Forall2 (statusWeight n) (activePromises m) ws
       /\ (pcWeight (pc m) + sumWeights ws + queueWeight (queue m) <= N)%nat.

(** An event of a run without cancellation. *)
Definition calmEvent `{Runtime} (ev : Event) : Prop :=
  match ev with
  | EvAbort => False
  | EvChat _ r => quiet r
  | _ => True
  end.

(** The events a whole run can take at most. *)
Definition runBound (c : Call) : nat :=
  2 + queueWeight (createBatches (maxBatchSize c) (maxTextLen c) (paragraphs c)).

(** The states a call can be in, whatever the service and the signal do. *)
Definition reachable `{Runtime} (c : Call) (aborted0 : bool) (m : Machine)
  : Prop :=
  exists evs, steps c evs (start c aborted0) = Some m.


(** The call of the repository's unit test, and two services for the
    examples: one that is down, and one that answers from a script, the
    [i]-th request made getting the [i]-th completion. *)
Definition exampleCall : Call := mkCall exampleConfig [js "Hello"] true None.

(** Three paragraphs, two requests at a time. *)
Definition windowCall : Call :=
  mkCall (mkConfig [] [] [] (Some 2) None None None None)
         [js "a"; js "b"; js "c"] true None.

Definition serviceDown : Oracle :=
  fun _ _ => Rejected (Error (js "Chat completion failed: 500")).

Definition scripted (answers : list Completion) : Oracle :=
  fun m _ =>
    nth (length (requests (world m)) - 1) answers
        (Rejected (Error (js "Chat completion failed: 500"))).

(** [translateTextByParagraph]: what the promise of a call settles to
    when the event loop is driven as above, the signal being aborted
    before the call ([aborted0]) or never. *)
Definition translateTextByParagraph `{Runtime} (c : Call) (aborted0 : bool)
    (oracle : Oracle) : Outcome :=
  outcome (run c oracle (runBound c) (start c aborted0)).

(** A computation in which the unrolling of the model's loops is never
    the limit, whatever the outside does. *)
Inductive converges {A : Type} : Async A -> Prop :=
| converges_Return a : converges (Return a)
| converges_Throw e : converges (Throw e)
| converges_AwaitChat req k :
    (forall r, converges (k r)) -> converges (AwaitChat req k)
| converges_AwaitTimeout ms k : converges k -> converges (AwaitTimeout ms k)
| converges_ReadAborted k :
    (forall b, converges (k b)) -> converges (ReadAborted k)
| converges_WriteTranslated i t k :
    (forall ok, converges (k ok)) -> converges (WriteTranslated i t k)
| converges_Callback i t k : converges k -> converges (Callback i t k).

(** [blank R p]: as long as every completion is a rejection, [p] writes
    nothing but the empty string, and what it returns is in [R]. *)
Inductive blank {A : Type} (R : A -> Prop) : Async A -> Prop :=
| blank_Return a : R a -> blank R (Return a)
| blank_Throw e : blank R (Throw e)
| blank_AwaitChat req k :
    (forall e, blank R (k (Rejected e))) -> blank R (AwaitChat req k)
| blank_AwaitTimeout ms k : blank R k -> blank R (AwaitTimeout ms k)
| blank_ReadAborted k : (forall b, blank R (k b)) -> blank R (ReadAborted k)
| blank_WriteTranslated i t k :
    t = [] -> (forall ok, blank R (k ok)) -> blank R (WriteTranslated i t k)
| blank_Callback i t k : blank R k -> blank R (Callback i t k)
| blank_Diverge : blank R Diverge.

Definition blankStatus (st : TaskStatus) : Prop :=
  match st with
  | AwaitingChat k => forall e, blank (fun _ => True) (k (Rejected e))
  | AwaitingTimer k => blank (fun _ => True) k
  | _ => True
  end.

(** No translation has been written, and none will be while the service
    keeps rejecting. *)
Definition untranslated (m : Machine) : Prop :=
  Forall (fun r => translated r = []) (results (world m))
  /\ Forall (fun e => blankStatus e.2) (activePromises m).

(** A service that is down: every completion is a rejection. *)
Definition rejecting (ev : Event) : Prop :=
  match ev with
  | EvChat _ (Resolved _) => False
  | _ => True
  end.

(** *** More on the batch plan *)

(** The texts of a batch are the paragraphs at its indices. *)
Definition aligned (paragraphs : list jsstring) (b : Batch) : Prop :=
  Forall2 (fun i t => paragraphs !! i = Some t) (indices b) (texts b).

(** Why the planning loop closes batch [b] before a paragraph [p]: the
    batch is full, or [p] would take it over the length limit. *)
Definition closedBy (maxCount maxChars : Z) (b : Batch) (p : jsstring)
  : Prop :=
  maxCount <= Z.of_nat (length (indices b))
  \/ maxChars < batchChars b + Z.of_nat (length p).

(** Every batch of [bs] but the last is closed by the first paragraph of
    the next. *)
Fixpoint greedy (maxCount maxChars : Z) (bs : list Batch) : Prop :=
  match bs with
  | b1 :: (b2 :: _) as rest =>
      (forall p, head (texts b2) = Some p -> closedBy maxCount maxChars b1 p)
      /\ greedy maxCount maxChars rest
  | _ => True
  end.

(** The plan together with the batch under construction, if it has a
    paragraph. *)
Definition planSoFar (st : Planner) : list Batch :=
  match indices (currentBatch st) with
  | [] => batches st
  | _ => batches st ++ [currentBatch st]
  end.

(** One batch per paragraph, from index [i] on. *)
Definition singletons (i : nat) (paragraphs : list jsstring) : list Batch :=
  zip_with (fun j p => mkBatch [j] [p]) (seq i (length paragraphs)) paragraphs.

(** *** The failure marker, in words *)

(** [x] is [word] up to the case of the ASCII letters. *)
Definition spells (word x : jsstring) : Prop :=
  map canonicalize x = map canonicalize word.

(** What the pattern of the failure marker looks for: the four Chinese
    characters, or the two English words in any case with any white space
    between them. *)
Definition mentionsFailure (t : jsstring) : Prop :=
  includes fanyi_shibai t = true
  \/ exists pre x ws y post,
       t = pre ++ x ++ ws ++ y ++ post
       /\ spells (js "translation") x
       /\ blankString ws
       /\ spells (js "failed") y.

(** *** What no run does

    [sound n Rq R T p]: whatever the completions and the signal, the
    computation [p] sends only requests in [Rq], writes and reports only
    texts without the failure marker, at indices below [n], and ends with
    a value in [R] or an exception in [T], if it ends. *)
Inductive sound {A : Type} (n : nat) (Rq : ChatCompletionRequest -> Prop)
    (R : A -> Prop) (T : JsError -> Prop) : Async A -> Prop :=
| sound_Return a : R a -> sound n Rq R T (Return a)
| sound_Throw e : T e -> sound n Rq R T (Throw e)
| sound_AwaitChat req k :
    Rq req -> (forall r, sound n Rq R T (k r)) ->
    sound n Rq R T (AwaitChat req k)
| sound_AwaitTimeout ms k :
    sound n Rq R T k -> sound n Rq R T (AwaitTimeout ms k)
| sound_ReadAborted k :
    (forall b, sound n Rq R T (k b)) -> sound n Rq R T (ReadAborted k)
| sound_WriteTranslated i t k :
    (i < n)%nat -> failureMarker t = false -> sound n Rq R T (k true) ->
    sound n Rq R T (WriteTranslated i t k)
| sound_Callback i t k :
    (i < n)%nat -> failureMarker t = false -> sound n Rq R T k ->
    sound n Rq R T (Callback i t k)
| sound_Diverge : sound n Rq R T Diverge.

(** The errors the [catch] block of [processBatch] throws again. *)
Definition cancels (e : JsError) : Prop := isAbort e = true.

(** A task that only ever fails as a cancellation. *)
Definition soundTask (n : nat) (Rq : ChatCompletionRequest -> Prop)
    (p : Async unit) : Prop :=
  sound n Rq (fun _ => True) cancels p.

Definition soundStatus (n : nat) (Rq : ChatCompletionRequest -> Prop)
    (st : TaskStatus) : Prop :=
  match st with
  | AwaitingChat k => forall r, soundTask n Rq (k r)
  | AwaitingTimer k => soundTask n Rq k
  | Failed e => cancels e
  | Fulfilled | Spinning => True
  end.

Definition soundWorld (n : nat) (Rq : ChatCompletionRequest -> Prop)
    (w : World) : Prop :=
  length (results w) = n
  /\ Forall (fun r => failureMarker (translated r) = false) (results w)
  /\ Forall (fun it => (it.1 < n)%nat /\ failureMarker it.2 = false)
            (reported w)
  /\ Forall Rq (requests w).

(** The requests a call can make: one paragraph as it is, or the texts
    of a planned batch of two paragraphs or more as a JSON array. *)
Definition plan (c : Call) : list Batch :=
  createBatches (maxBatchSize c) (maxTextLen c) (paragraphs c).

Definition expected `{Runtime} (c : Call) (req : ChatCompletionRequest)
  : Prop :=
  (exists p, p ∈ paragraphs c /\ req = translateRequest (config c) p)
  \/ (exists b, b ∈ plan c /\ (2 <= length (texts b))%nat
                /\ req = batchRequest (texts b) (targetLang c)).

Definition soundMachine `{Runtime} (c : Call) (m : Machine) : Prop :=
  soundWorld (length (paragraphs c)) (expected c) (world m)
  /\ Forall (fun e => soundStatus (length (paragraphs c)) (expected c) e.2)
            (activePromises m)
  /\ Forall (fun b => b ∈ plan c) (queue m)
  /\ forall e, pc m = Threw e -> cancels e.

(** *** Callbacks and the signal

    [discreet p]: [p] calls [onParagraphTranslated] only straight after
    it has read the signal and found it not aborted. *)
Inductive discreet {A : Type} : Async A -> Prop :=
| discreet_Return a : discreet (Return a)
| discreet_Throw e : discreet (Throw e)
| discreet_AwaitChat req k :
    (forall r, discreet (k r)) -> discreet (AwaitChat req k)
| discreet_AwaitTimeout ms k : discreet k -> discreet (AwaitTimeout ms k)
| discreet_ReadAborted k :
    (forall b, discreet (k b)) -> discreet (ReadAborted k)
| discreet_ReadThenCallback k i t k' :
    discreet (k true) -> k false = Callback i t k' -> discreet k' ->
    discreet (ReadAborted k)
| discreet_WriteTranslated i t k :
    (forall ok, discreet (k ok)) -> discreet (WriteTranslated i t k)
| discreet_Diverge : discreet Diverge.

Definition discreetStatus (st : TaskStatus) : Prop :=
  match st with
  | AwaitingChat k => forall r, discreet (k r)
  | AwaitingTimer k => discreet k
  | _ => True
  end.

(** The machine [steps] ends in, or [m] itself if a step is not
    enabled. *)
Definition after `{Runtime} (c : Call) (evs : list Event) (m : Machine)
  : Machine :=
  default m (steps c evs m).

(** *** How many requests a call can send

    [frugal d p]: whatever the completions and the signal, the
    computation [p] sends at most [d] requests. *)
Inductive frugal {A : Type} : nat -> Async A -> Prop :=
| frugal_Return d a : frugal d (Return a)
| frugal_Throw d e : frugal d (Throw e)
| frugal_AwaitChat d req k :
    (forall r, frugal d (k r)) -> frugal (S d) (AwaitChat req k)
| frugal_AwaitTimeout d ms k : frugal d k -> frugal d (AwaitTimeout ms k)
| frugal_ReadAborted d k :
    (forall b, frugal d (k b)) -> frugal d (ReadAborted k)
| frugal_WriteTranslated d i t k :
    (forall ok, frugal d (k ok)) -> frugal d (WriteTranslated i t k)
| frugal_Callback d i t k : frugal d k -> frugal d (Callback i t k)
| frugal_Diverge d : frugal d Diverge.

(** The requests one attempt at a batch can take: the text itself for a
    single text, the array and then every text for more. *)
Definition requestsPerAttempt (texts : list jsstring) : nat :=
  match texts with
  | [] => 0
  | [_] => 1
  | _ => S (length texts)
  end.

(** The requests a batch can take over its first attempt and its
    [maxRetries] retries, and the sum over a list of batches. *)
Definition requestBound (b : Batch) : nat :=
  S maxRetries * requestsPerAttempt (texts b).

Definition requestBudget (bs : list Batch) : nat :=
  foldr (fun b acc => requestBound b + acc)%nat O bs.

(** The requests a started task may still send. *)
Definition allowance (e : nat * TaskStatus) (d : nat) : Prop :=
  match e.2 with
  | AwaitingChat k => forall r, frugal d (k r)
  | AwaitingTimer k => frugal d k
  | _ => True
  end.

(** The requests sent, those the started tasks may still send and those
    of the batches not yet started stay within [N]. *)
Definition thrifty (m : Machine) (N : nat) : Prop :=
  exists ws,
    Forall2 allowance (activePromises m) ws
    /\ (length (requests (world m)) + sumWeights ws + requestBudget (queue m)
        <= N)%nat.

End AiClient.

(** ** The realignment of cached translations ([article-ai.ts]) *)
Module ArticleAi.

Import AiClient.

(** [(s || "").replace(/<[^>]*>/g, "")]: a [<] opens a tag only if some
    [>] follows it, and the tag runs to the first such [>]. *)
Fixpoint stripFrom (inTag : bool) (s : jsstring) : jsstring :=
  match s with
  | [] => []
  | c :: rest =>
      if inTag
      then (if (c =? 62)%N then stripFrom false rest else stripFrom true rest)
      else if (c =? 60)%N && existsb (N.eqb 62) rest
           then stripFrom true rest
           else c :: stripFrom false rest
  end.

Definition strip (s : jsstring) : jsstring := stripFrom false s.

(** The counting loop [for (let i = 0; i < len; i++) if (a[i] === b[i]) matches++]. *)
Fixpoint countMatches (len : nat) (a b : jsstring) : nat :=
  match len, a, b with
  | S n, x :: a', y :: b' =>
      ((if (x =? y)%N then 1 else 0) + countMatches n a' b')%nat
  | _, _, _ => O
  end.

(** [calculateTextSimilarity]; the quotient of two integers up to 100
    compares as the exact fraction does. *)
Definition calculateTextSimilarity (text1 text2 : jsstring) : Q :=
  let a := strip text1 in
  let b := strip text2 in
  let len := Nat.min (Nat.min (length a) (length b)) 100 in
  if (len =? 0)%nat then 0%Q
  else (Z.of_nat (countMatches len a b) # Pos.of_nat len).

Definition Qltb (x y : Q) : bool := negb (Qle_bool y x).

(** [bestIdx] and [bestScore] of the inner loop. *)
Record Best := mkBest {
  bestIdx : Z;
  bestScore : Q;
}.

(** [for (let i = 0; i < texts.length; i++)], from index [i] on. *)
Fixpoint scanTexts (texts : list jsstring) (i : nat) (used : gset nat)
    (original : jsstring) (best : Best) : Best :=
  match texts with
  | [] => best
  | t :: rest =>
      if bool_decide (i ∈ used)
      then scanTexts rest (S i) used original best
      else
        let score := calculateTextSimilarity t original in
        if Qltb (bestScore best) score
        then scanTexts rest (S i) used original (mkBest (Z.of_nat i) score)
        else scanTexts rest (S i) used original best
  end.

Definition bestMatch (texts : list jsstring) (used : gset nat)
    (original : jsstring) : Best :=
  scanTexts texts 0 used original (mkBest (-1) 0%Q).

(** The scripts the handler has the web view execute. *)
Inductive Script :=
| InsertTranslation (index : nat) (translated : jsstring)
| AppendGlobalTranslation (translated : jsstring)
| SetTranslationVisibility (show : bool).

(** The set [used] and the scripts executed so far. *)
Record Matching := mkMatching {
  used : gset nat;
  executed : list Script;
}.

(** One iteration of [for (const t of state.aiTranslation)]. *)
Definition matchPair (texts : list jsstring) (st : Matching)
    (t : TranslationResult) : Matching :=
  let best := bestMatch texts (used st) (original t) in
  if (0 <=? bestIdx best) && Qle_bool (35 # 100) (bestScore best)
  then mkMatching (used st ∪ {[Z.to_nat (bestIdx best)]})
                  (executed st ++
                   [InsertTranslation (Z.to_nat (bestIdx best)) (translated t)])
  else st.

Definition matchPairs (texts : list jsstring) (cached : list TranslationResult)
  : Matching :=
  fold_left (matchPair texts) cached (mkMatching ∅ []).

(** [arr.join("\n\n")] *)
Fixpoint join (parts : list jsstring) : jsstring :=
  match parts with
  | [] => []
  | [x] => x
  | x :: rest => x ++ [10; 10]%N ++ join rest
  end.

(** [state.aiTranslation.map(x => x?.translated || "").filter(Boolean).join("\n\n")] *)
Definition allTranslated (cached : list TranslationResult) : jsstring :=
  join (filter (fun x => x <> []) (map translated cached)).

Definition globalFallback (cached : list TranslationResult) : list Script :=
  match allTranslated cached with
  | [] => []
  | text => [AppendGlobalTranslation text]
  end.

(** [injectCachedTranslations], given [state.aiTranslation] and the
    fragments the page returns. *)
Definition injectCachedTranslations (aiTranslation : list TranslationResult)
    (texts : list jsstring) : list Script :=
  match aiTranslation with
  | [] => []
  | _ =>
      match texts with
      | [] => globalFallback aiTranslation ++ [SetTranslationVisibility true]
      | _ =>
          let st := matchPairs texts aiTranslation in
          executed st ++
          (if bool_decide (size (used st) = 0%nat)
           then globalFallback aiTranslation else []) ++
          [SetTranslationVisibility true]
      end
  end.

(** What matching a fragment list against itself comes to, in the words
    of the specification: pair [i] goes to fragment [i], for every pair
    whose original is not empty once the markup is stripped.
    [selfUsed i l] and [selfInserted i l] are the fragments claimed and
    the scripts executed for the pairs [l], the first of which is pair
    [i]. *)
Definition visible (t : TranslationResult) : bool :=
  match strip (original t) with
  | [] => false
  | _ => true
  end.

Fixpoint selfUsed (i : nat) (l : list TranslationResult) : gset nat :=
  match l with
  | [] => ∅
  | t :: rest =>
      (if visible t then {[i]} else ∅) ∪ selfUsed (S i) rest
  end.

Fixpoint selfInserted (i : nat) (l : list TranslationResult) : list Script :=
  match l with
  | [] => []
  | t :: rest =>
      (if visible t then [InsertTranslation i (translated t)] else [])
      ++ selfInserted (S i) rest
  end.

(** *** The failure check of the cache

    [t.translated && (t.translated.includes("[翻译失败") ||
    t.translated.includes("Translation failed"))], the test of
    [loadAICache] and [saveTranslationCache]. *)
Definition reportsFailure (t : TranslationResult) : bool :=
  match translated t with
  | [] => false
  | text =>
      includes (91%N :: fanyi_shibai) text
      || includes (js "Translation failed") text
  end.

(** [aiTranslation.some(...)], for a list all of whose elements are
    pairs. *)
Definition hasFailure (aiTranslation : list TranslationResult) : bool :=
  existsb reportsFailure aiTranslation.

(** *** [handleTranslationError]

    What the handler does about an error: the alert it shows, and
    whether it takes the loading state back.  [failed] is the text of
    [intl.get("ai.failed")]; [current] tells whether the article and the
    controller are still the ones of the run, [sameRun] whether the run
    id is. *)
Record ErrorReaction := mkReaction {
  alerted : option jsstring;
  loadingStopped : bool;
}.

Definition handleTranslationError (failed : jsstring) (err : JsError)
    (current sameRun : bool) : ErrorReaction :=
  if bool_decide (name err = js "AbortError")
     || includes (js "Abort") (message err)
  then mkReaction None false
  else mkReaction (Some (failed ++ js ": " ++ message err))
                  (current && sameRun).

(** *** What the realignment executes *)

(** The fragments a list of scripts inserts a translation at, and the
    translations inserted. *)
Definition insertedAt (scripts : list Script) : list nat :=
  omap (fun s => match s with
                 | InsertTranslation i _ => Some i
                 | _ => None
                 end) scripts.

Definition insertedTexts (scripts : list Script) : list jsstring :=
  omap (fun s => match s with
                 | InsertTranslation _ t => Some t
                 | _ => None
                 end) scripts.

Definition isGlobal (s : Script) : bool :=
  match s with
  | AppendGlobalTranslation _ => true
  | _ => false
  end.

(** *** [determineTranslationStrategy]

    [translateWhen] and [translateTarget] are the settings, [texts] the
    fragments of the page and [rootHTML] what [getRootHTML] gives. *)
Record Strategy := mkStrategy {
  shouldTranslate : bool;
  strategyTarget : jsstring;
  isZh : bool;
}.

Definition determineTranslationStrategy
    (translateWhen translateTarget : option jsstring) (texts : list jsstring)
    (rootHTML : jsstring) : Strategy :=
  let translateWhen := or_string translateWhen (js "auto") in
  let translateTarget := or_string translateTarget (js "zh") in
  let sampleHtml := or_string (head texts) rootHTML in
  let sample := strip sampleHtml in
  let isZh := hasHan sample in
  let shouldTranslate :=
    if bool_decide (translateWhen = js "nonTargetOnly")
    then (if bool_decide (translateTarget = js "zh") then negb isZh else isZh)
    else if bool_decide (translateWhen = js "zhOnly") then isZh
    else if bool_decide (translateWhen = js "nonZhOnly") then negb isZh
    else true in
  let targetLang :=
    if bool_decide (translateWhen = js "auto")
    then (if isZh then js "en" else js "zh")
    else translateTarget in
  mkStrategy shouldTranslate targetLang isZh.

(** *** [getFullTextForSummary] *)

(** [stripHtmlTags] *)
Definition stripHtmlTags (input : jsstring) : jsstring := strip input.

Inductive FullText :=
| Success (content : jsstring)
| NoContent
| TooShort.

(** [title] and [itemContent] are [item.title] and [item.content]. *)
Definition getFullTextForSummary (title : jsstring)
    (itemContent providedContent : option jsstring) : FullText :=
  let body :=
    match providedContent with
    | Some (c :: p) =>
        match trim (c :: p) with
        | [] => or_string itemContent []
        | _ => c :: p
        end
    | _ => or_string itemContent []
    end in
  match body with
  | [] => NoContent
  | _ =>
      let plainBody := trim (stripHtmlTags body) in
      if (length plainBody <? 50)%nat then TooShort
      else Success (title ++ [10; 10]%N ++ plainBody)
  end.

(** *** The translation cache as the article view uses it

    [stringify] and [parse] are [JSON.stringify] and [JSON.parse] on
    lists of pairs, [parse] being [None] where [JSON.parse] throws; the
    calls of [window.settings] go to the handlers of the main process.
    [now1], [now2], [io1] and [io2] are the clock and the fate of the
    write at the two handlers. *)
Section Persistence.

Variable stringify : list TranslationResult -> jsstring.
Variable parse : jsstring -> option (list TranslationResult).

Definition saveTranslationCache (ready : bool) (userData : jsstring)
    (now1 now2 : Z) (io1 io2 : bool) (itemId : jsstring)
    (aiTranslation : list TranslationResult) (titleTranslation : jsstring)
    (m : Settings.Main) : Settings.Main :=
  if hasFailure aiTranslation then m
  else
    let m := Settings.ai_cache_save_translation ready userData now1 io1 itemId
               (stringify aiTranslation) m in
    match titleTranslation with
    | [] => m
    | _ => Settings.ai_cache_save_title_translation ready userData now2 io2
             itemId titleTranslation m
    end.

(** The partial state [loadAICache] passes to [updateState]. *)
Record Updates := mkUpdates {
  aiSummary : option jsstring;
  aiTranslation : option (list TranslationResult);
  titleUpdate : option jsstring;
  showTranslation : option bool;
}.

Definition loadAICache (cache : option AiCache.AICacheEntry) : Updates :=
  match cache with
  | None => mkUpdates None None None None
  | Some cache =>
      let aiSummary :=
        match AiCache.summary cache with
        | Some (c :: s) => Some (c :: s)
        | _ => None
        end in
      match AiCache.translation cache with
      | Some (c :: tr) =>
          match parse (c :: tr) with
          | Some translationData =>
              if hasFailure translationData
              then mkUpdates aiSummary None None None
              else mkUpdates aiSummary (Some translationData)
                     (Some (or_string (AiCache.titleTranslation cache) []))
                     (Some true)
          | None => mkUpdates aiSummary None None None
          end
      | _ => mkUpdates aiSummary None None None
      end
  end.

End Persistence.

(** *** The callback of [translateParagraphs]

    [state.aiTranslation] while a translation runs: an array that can
    have gaps, [None] standing for a hole or [undefined]; the [original]
    of an item is [undefined] where [texts] has no such index. *)
Record TranslationItem := mkItem {
  itemOriginal : option jsstring;
  itemTranslated : jsstring;
}.

(** [const list = [...array]; list[index] = x] *)
Definition assignAt {A : Type} (array : list (option A)) (index : nat) (x : A)
  : list (option A) :=
  if (index <? length array)%nat
  then <[index := Some x]> array
  else array ++ replicate (index - length array) None ++ [Some x].

(** [insertTranslatedParagraph] *)
Definition insertTranslatedParagraph (index : nat) (translated : jsstring)
  : list Script :=
  match trim translated with
  | [] => []
  | _ => [InsertTranslation index translated]
  end.

(** The article view during a run.  The component is rendered under a
    root made by [createRoot], so [setState] does not change
    [this.state]: it queues an update, and the updates queued are applied
    in order when React renders next.  [stateTranslation] is
    [this.state.aiTranslation], [queued] holds the [aiTranslation] of the
    updates waiting, oldest first, and [inserted] the scripts executed in
    the page. *)
Record View := mkView {
  stateTranslation : list (option TranslationItem);
  queued : list (list (option TranslationItem));
  inserted : list Script;
}.

(** [updateAIState] for a [partial] that holds [aiTranslation] only. *)
Definition updateAIState (unmounted : bool)
    (aiTranslation : list (option TranslationItem)) (v : View) : View :=
  if unmounted then v
  else mkView (stateTranslation v) (queued v ++ [aiTranslation]) (inserted v).

(** React applying the queue: each updater is
    [prevState => ({ ...prevState, ...partial })], which for
    [aiTranslation] gives the list of the [partial]. *)
Definition flush (v : View) : View :=
  mkView (foldl (fun _ aiTranslation => aiTranslation)
                (stateTranslation v) (queued v))
         [] (inserted v).

(** The callback; [stale] tells whether the article, the controller or
    the run id has changed since the run began.  The list it copies is
    the one of [this.state], read through [getAIState]. *)
Definition onTranslated (texts : list jsstring) (stale unmounted : bool)
    (v : View) (index : nat) (translatedText : jsstring) : View :=
  if stale then v
  else
    let v := mkView (stateTranslation v) (queued v)
               (inserted v ++ insertTranslatedParagraph index translatedText) in
    updateAIState unmounted
      (assignAt (stateTranslation v) index
                (mkItem (texts !! index) translatedText)) v.

(** What happens to the view during a run: a callback, or React
    rendering. *)
Inductive ViewEvent :=
| Translated (index : nat) (translatedText : jsstring)
| Flush.

Definition viewStep (texts : list jsstring) (stale unmounted : bool)
    (v : View) (ev : ViewEvent) : View :=
  match ev with
  | Translated index translatedText =>
      onTranslated texts stale unmounted v index translatedText
  | Flush => flush v
  end.

(** The callbacks of a list of events. *)
Definition callbacks (evs : list ViewEvent) : list (nat * jsstring) :=
  omap (fun ev => match ev with
                  | Translated index t => Some (index, t)
                  | Flush => None
                  end) evs.

(** React renders between any two callbacks: no callback finds an update
    waiting ([waiting] tells whether one waits at the start). *)
Fixpoint flushedBetween (waiting : bool) (evs : list ViewEvent) : bool :=
  match evs with
  | [] => true
  | Flush :: evs => flushedBetween false evs
  | Translated _ _ :: evs => negb waiting && flushedBetween true evs
  end.

(** The list after callbacks each of which has found the update of the
    one before applied. *)
Definition landed (texts : list jsstring)
    (array : list (option TranslationItem)) (calls : list (nat * jsstring))
  : list (option TranslationItem) :=
  foldl (fun array call =>
           assignAt array call.1 (mkItem (texts !! call.1) call.2))
        array calls.

End ArticleAi.

(** * Properties *)

Import AiCache.

(** ** Strings *)

(** A pattern whose first code unit does not occur in [a] cannot start
    inside [a]. *)
Lemma includes_app_fresh c p a b :
  c ∉ a -> includes (c :: p) (a ++ b) = includes (c :: p) b.
Proof.
  induction a as [|x a IH]; intros Hc; [done|].
  apply not_elem_of_cons in Hc as [Hx Ha].
  cbn [app includes startsWith].
  rewrite IH by done.
  destruct (N.eqb_spec c x) as [->|_]; [done|]. done.
Qed.

(** ** The cache store *)

Lemma saveCache_cacheData io s : cacheData (saveCache io s) = cacheData s.
Proof. destruct s as [[p|] m fs], io; reflexivity. Qed.

Lemma saveCache_cacheFilePath io s :
  cacheFilePath (saveCache io s) = cacheFilePath s.
Proof. destruct s as [[p|] m fs], io; reflexivity. Qed.

Lemma initDB_cacheFilePath p s : is_Some (cacheFilePath (initDB p s)).
Proof.
  unfold initDB, loadCache; simpl.
  destruct (files s !! _) as [[|m]|]; simpl; eauto.
Qed.

(** The round trip once the store is initialised. *)
Lemma saveTranslation_getCache now io id v s :
  is_Some (cacheFilePath s) ->
  exists e, getCache id (saveTranslation now io id v s) = Some e
            /\ translation e = Some v /\ createdAt e = now.
Proof.
  destruct s as [[p|] m fs]; intros [q Hq]; [clear Hq|discriminate].
  unfold getCache, saveTranslation; cbn [cacheFilePath].
  rewrite saveCache_cacheFilePath, saveCache_cacheData; cbn [cacheFilePath cacheData].
  rewrite lookup_insert_eq. eauto.
Qed.

(** What [clearOldCache] keeps. *)
Lemma clearOldCache_lookup now io days s id e :
  is_Some (cacheFilePath s) ->
  cacheData (clearOldCache now io days s) !! id = Some e
  <-> cacheData s !! id = Some e /\ cutoffTime now days <= createdAt e.
Proof.
  destruct s as [[p|] m fs]; intros [q Hq]; [clear Hq|discriminate].
  unfold clearOldCache; cbn [cacheFilePath].
  rewrite saveCache_cacheData; cbn [cacheData].
  rewrite map_lookup_filter_Some. simpl.
  split; intros [? ?]; split; auto; lia.
Qed.

(** C8 (as stated, refuted): before [initDB] nothing is saved, so
    [getCache] finds nothing to return; and an entry written in the
    millisecond in which [clearOldCache(0)] reads the clock is not older
    than the cut-off, and stays in the store. *)
Lemma clearOldCache_zero_keeps_fresh_entry :
  getCache (js "item") (saveTranslation 1000 true (js "item") (js "v") (fresh ∅))
  = None
  /\ let s0 := mkStore (Some (js "/data/ai-cache.json")) ∅ ∅ in
     let s1 := saveTranslation 1000 true (js "item") (js "v") s0 in
     exists e, getCache (js "item") (clearOldCache 1000 true 0 s1) = Some e
               /\ translation e = Some (js "v").
Proof.
  split; [reflexivity|].
  intros s0 s1.
  destruct (saveTranslation_getCache 1000 true (js "item") (js "v") s0)
    as (e & Hget & Htr & Hat); [by eexists|].
  exists e. split; [|done].
  assert (Hp : is_Some (cacheFilePath s1)).
  { unfold s1, saveTranslation; cbn [cacheFilePath s0].
    rewrite saveCache_cacheFilePath. by eexists. }
  assert (Hd : cacheData s1 !! js "item" = Some e).
  { destruct Hp as [p Hp]. unfold getCache in Hget. fold s1 in Hget.
    by rewrite Hp in Hget. }
  unfold getCache.
  assert (Hq : is_Some (cacheFilePath (clearOldCache 1000 true 0 s1))).
  { destruct Hp as [p Hp]. unfold clearOldCache. rewrite Hp.
    rewrite saveCache_cacheFilePath. cbn [cacheFilePath]. by eexists. }
  destruct Hq as [q ->].
  apply clearOldCache_lookup; [done|]. split; [done|].
  unfold cutoffTime. lia.
Qed.

(** C8 (amended): once the store is initialised, [saveTranslation] then
    [getCache] gives an entry with that translation, and
    [clearOldCache(0)] removes exactly the entries stamped before the
    time of the call. *)
Theorem cache_round_trip_and_clear (s : Store) (now : Z) (io : bool)
    (id v : jsstring) :
  is_Some (cacheFilePath s) ->
  (exists e, getCache id (saveTranslation now io id v s) = Some e
             /\ translation e = Some v)
  /\ (forall k e,
        cacheData (clearOldCache now io 0 s) !! k = Some e
        <-> cacheData s !! k = Some e /\ now <= createdAt e).
Proof.
  intros Hp. split.
  - destruct (saveTranslation_getCache now io id v s Hp) as (e & ? & ? & _).
    eauto.
  - intros k e. rewrite clearOldCache_lookup by done.
    unfold cutoffTime. by replace (now - 0 * 24 * 60 * 60 * 1000) with now by lia.
Qed.

Lemma cache_round_trip_and_clear_witness :
  let s := mkStore (Some (js "/data/ai-cache.json")) ∅ ∅ in
  (exists e, getCache (js "item")
               (saveTranslation 1000 true (js "item") (js "v") s) = Some e
             /\ translation e = Some (js "v"))
  /\ (forall k e,
        cacheData (clearOldCache 1000 true 0 s) !! k = Some e
        <-> cacheData s !! k = Some e /\ 1000 <= createdAt e).
Proof.
  intros s.
  apply (cache_round_trip_and_clear s 1000 true (js "item") (js "v")).
  eexists; reflexivity.
Defined.

(** C10: while [cacheFilePath] is unset, every operation of the store
    leaves the map and the file system alone, and [getCache] answers
    [null]. *)
Theorem cache_is_inert_before_initDB (s : Store) (now : Z) (io : bool)
    (id v : jsstring) (days : Z) :
  cacheFilePath s = None ->
  getCache id s = None
  /\ saveSummary now io id v s = s
  /\ saveTranslation now io id v s = s
  /\ saveTitleTranslation now io id v s = s
  /\ clearOldCache now io days s = s
  /\ closeDB io s = s
  /\ loadCache s = s.
Proof.
  intros Hp.
  unfold getCache, saveSummary, saveTranslation, saveTitleTranslation,
    clearOldCache, closeDB, saveCache, loadCache.
  rewrite Hp. repeat split.
Qed.

Lemma cache_is_inert_before_initDB_witness :
  let s := fresh ∅ in
  getCache (js "item") s = None
  /\ saveSummary 1000 true (js "item") (js "v") s = s
  /\ saveTranslation 1000 true (js "item") (js "v") s = s
  /\ saveTitleTranslation 1000 true (js "item") (js "v") s = s
  /\ clearOldCache 1000 true 0 s = s
  /\ closeDB true s = s
  /\ loadCache s = s.
Proof.
  intros s.
  apply (cache_is_inert_before_initDB s 1000 true (js "item") (js "v") 0).
  reflexivity.
Defined.

(** ** The batch plan *)

Import AiClient.

Lemma batchChars_snoc idx' idx txt p :
  batchChars (mkBatch idx' (txt ++ [p]))
  = batchChars (mkBatch idx txt) + Z.of_nat (length p).
Proof.
  unfold batchChars; cbn [texts].
  induction txt as [|t txt IH]; cbn [foldr app]; [lia|]. rewrite IH. lia.
Qed.

Lemma planParagraph_planned maxCount maxChars seen st p :
  0 < maxCount ->
  planned maxCount maxChars seen st ->
  planned maxCount maxChars (seen ++ [p])
          (planParagraph maxCount maxChars st (length seen) p).
Proof.
  intros Hpos (Hidx & Htxt & Hall & Hlen & Hcount & Hchars & Hsum).
  destruct st as [bs [idx txt] n]; cbn [batches currentBatch currentBatchLen
    indices texts] in *.
  unfold planParagraph; cbn [batches currentBatch currentBatchLen indices texts].
  assert (Hseq : seq 0 (length (seen ++ [p])) = seq 0 (length seen) ++ [length seen]).
  { rewrite length_app; cbn [length]. by rewrite seq_app. }
  destruct ((0 <? Z.of_nat (length idx)) &&
            ((maxCount <=? Z.of_nat (length idx))
             || (maxChars <? n + Z.of_nat (length p)))) eqn:Hclose;
    unfold planned;
    cbn [batches currentBatch currentBatchLen indices texts emptyBatch].
  - (* the current batch is closed, the paragraph opens a new one *)
    apply andb_true_iff in Hclose as [Hne _].
    apply Z.ltb_lt in Hne.
    split_and!.
    + rewrite map_app, concat_app; cbn [map concat]. rewrite app_nil_r.
      by rewrite Hseq, <- Hidx.
    + rewrite map_app, concat_app; cbn [map concat]. rewrite app_nil_r.
      by rewrite <- Htxt.
    + apply Forall_app; split; [done|]. apply Forall_singleton.
      unfold withinLimits; cbn [indices texts]. split_and!; try done.
      * destruct idx; [cbn in Hne; lia|done].
      * destruct Hchars as [?|Hle]; [by left|right].
        destruct idx as [|? [|? ?]]; cbn in *; lia.
    + done.
    + cbn; lia.
    + by right.
    + rewrite (batchChars_snoc _ [] []). unfold batchChars; cbn. lia.
  - (* the paragraph joins the current batch *)
    apply andb_false_iff in Hclose.
    split_and!.
    + by rewrite Hseq, <- Hidx, app_assoc.
    + by rewrite <- Htxt, app_assoc.
    + done.
    + rewrite !length_app; cbn [length]. lia.
    + rewrite length_app; cbn [length].
      destruct Hclose as [Hz|Hc].
      * apply Z.ltb_ge in Hz. lia.
      * apply orb_false_iff in Hc as [Hc _]. apply Z.leb_gt in Hc. lia.
    + rewrite (batchChars_snoc _ idx), length_app; cbn [length].
      destruct Hclose as [Hz|Hc].
      * apply Z.ltb_ge in Hz. right. lia.
      * apply orb_false_iff in Hc as [_ Hc]. apply Z.ltb_ge in Hc. left. lia.
    + rewrite (batchChars_snoc _ idx). lia.
Qed.

Lemma planLoop_planned maxCount maxChars rest seen st :
  0 < maxCount ->
  planned maxCount maxChars seen st ->
  planned maxCount maxChars (seen ++ rest)
          (planLoop maxCount maxChars (length seen) rest st).
Proof.
  intros Hpos. revert seen st.
  induction rest as [|p rest IH]; intros seen st Hinv; cbn [planLoop].
  - by rewrite app_nil_r.
  - replace (seen ++ p :: rest) with ((seen ++ [p]) ++ rest)
      by (by rewrite <- app_assoc).
    replace (S (length seen)) with (length (seen ++ [p]))
      by (rewrite length_app; cbn; lia).
    apply IH. by apply planParagraph_planned.
Qed.

Lemma createBatches_planned maxCount maxChars paragraphs :
  0 < maxCount ->
  let bs := createBatches maxCount maxChars paragraphs in
  concat (map indices bs) = seq 0 (length paragraphs)
  /\ concat (map texts bs) = paragraphs
  /\ Forall (withinLimits maxCount maxChars) bs.
Proof.
  intros Hpos bs.
  assert (Hinit : planned maxCount maxChars [] (mkPlanner [] emptyBatch 0)).
  { unfold planned; cbn. split_and!; try done; try lia. }
  pose proof (planLoop_planned maxCount maxChars paragraphs [] _ Hpos Hinit)
    as (Hidx & Htxt & Hall & Hlen & Hcount & Hchars & Hsum).
  cbn [app length] in *.
  unfold bs, createBatches.
  destruct (planLoop maxCount maxChars 0 paragraphs _) as [done cur n].
  cbn [batches currentBatch currentBatchLen] in *.
  destruct (0 <? Z.of_nat (length (indices cur))) eqn:Hne.
  - apply Z.ltb_lt in Hne. split_and!.
    + rewrite map_app, concat_app; cbn [map concat]. by rewrite app_nil_r.
    + rewrite map_app, concat_app; cbn [map concat]. by rewrite app_nil_r.
    + apply Forall_app; split; [done|]. apply Forall_singleton.
      unfold withinLimits. split_and!; try done.
      * destruct (indices cur); [cbn in Hne; lia|done].
      * destruct Hchars as [?|Hle]; [by left|right]. lia.
  - apply Z.ltb_ge in Hne.
    assert (Hnil : indices cur = []) by (destruct (indices cur); [done|cbn in Hne; lia]).
    assert (Hnil' : texts cur = []).
    { rewrite Hnil in Hlen. destruct (texts cur); [done|discriminate]. }
    rewrite Hnil, Hnil', !app_nil_r in *. done.
Qed.

(** C2: the plan is a partition of the index sequence into batches that
    keep both limits, a batch over the character limit being a single
    fragment. *)
Theorem batch_plan_partitions (maxCount maxChars : Z)
    (paragraphs : list jsstring) :
  0 < maxCount -> 0 < maxChars ->
  let bs := createBatches maxCount maxChars paragraphs in
  concat (map indices bs) = seq 0 (length paragraphs)
  /\ concat (map texts bs) = paragraphs
  /\ Forall (fun b =>
       Z.of_nat (length (indices b)) <= maxCount
       /\ (maxChars < batchChars b ->
           exists i p, indices b = [i] /\ texts b = [p])) bs.
Proof.
  intros Hc _ bs.
  destruct (createBatches_planned maxCount maxChars paragraphs Hc)
    as (Hidx & Htxt & Hall).
  split_and!; [done|done|].
  eapply Forall_impl; [exact Hall|].
  intros b (_ & Hlen & Hcount & Hchars). split; [done|].
  intros Hover. destruct Hchars as [?|Hone]; [lia|].
  rewrite Hone in Hlen.
  destruct (indices b) as [|i [|? ?]]; try discriminate.
  destruct (texts b) as [|p [|? ?]]; try discriminate.
  eauto.
Qed.

Lemma batch_plan_partitions_witness :
  let paragraphs := [js "aaaa"; js "bb"; js "cccccccccc"; js "d"] in
  let bs := createBatches 2 5 paragraphs in
  concat (map indices bs) = seq 0 (length paragraphs)
  /\ concat (map texts bs) = paragraphs
  /\ Forall (fun b =>
       Z.of_nat (length (indices b)) <= 2
       /\ (5 < batchChars b ->
           exists i p, indices b = [i] /\ texts b = [p])) bs.
Proof.
  intros paragraphs.
  apply (batch_plan_partitions 2 5 paragraphs); lia.
Defined.

Example createBatches_example :
  createBatches 2 5 [js "aaaa"; js "bb"; js "cccccccccc"; js "d"]
  = [mkBatch [0%nat] [js "aaaa"]; mkBatch [1%nat] [js "bb"];
     mkBatch [2%nat] [js "cccccccccc"]; mkBatch [3%nat] [js "d"]].
Proof. reflexivity. Qed.

Example createBatches_example_grouping :
  map indices (createBatches 2 100 [js "aaaa"; js "bb"; js "cc"; js "d"; js "e"])
  = [[0; 1]; [2; 3]; [4]]%nat.
Proof. reflexivity. Qed.

(** ** Running a task *)

Lemma runTask_bind {A B} (p : Async A) (f : A -> Async B) rs w :
  runTask (bind p f) rs w
  = match runTask p rs w with
    | Some (w', Done a, rest) => runTask (f a) rest w'
    | Some (w', Crashed e, rest) => Some (w', Crashed e, rest)
    | Some (w', Hung, rest) => Some (w', Hung, rest)
    | None => None
    end.
Proof.
  revert rs w. induction p as [a|e|req k IH|ms k IH|k IH|i t k IH|i t k IH|];
    intros rs w; cbn [bind runTask]; try done.
  - destruct rs as [|r rest]; [done|]. apply IH.
  - destruct (setTranslated i t (results w)); apply IH.
Qed.

Lemma runTask_try_catch {A} (p : Async A) (h : JsError -> Async A) rs w :
  runTask (try_catch p h) rs w
  = match runTask p rs w with
    | Some (w', Crashed e, rest) => runTask (h e) rest w'
    | other => other
    end.
Proof.
  revert rs w. induction p as [a|e|req k IH|ms k IH|k IH|i t k IH|i t k IH|];
    intros rs w; cbn [try_catch runTask]; try done.
  - destruct rs as [|r rest]; [done|]. apply IH.
  - destruct (setTranslated i t (results w)); apply IH.
Qed.

(** ** [translateBatch] *)

Section TranslateBatch.
Context `{Runtime}.
Variables (config : AiConfig) (lang : TargetLang).

Lemma runTask_translateText t rs w :
  runTask (translateText config t lang) rs w
  = match rs with
    | [] => None
    | Resolved r :: rest =>
        Some (send (translateRequest config t) w, Done r, rest)
    | Rejected e :: rest =>
        Some (send (translateRequest config t) w, Crashed e, rest)
    end.
Proof. destruct rs as [|[r|e] rest]; reflexivity. Qed.

Lemma translateSequential_length ts rs w w' l rest :
  runTask (translateSequential config ts lang) rs w = Some (w', Done l, rest) ->
  length l = length ts.
Proof.
  revert rs w w' l rest.
  induction ts as [|t ts IH]; intros rs w w' l rest; cbn [translateSequential].
  - cbn. by intros [= <- <- <-].
  - rewrite runTask_bind, runTask_translateText.
    destruct rs as [|[r|e] rs]; try done.
    rewrite runTask_bind.
    destruct (runTask (translateSequential config ts lang) rs _)
      as [[[w1 [l1|e1|]] rest1]|] eqn:Hrec; try done.
    cbn. intros [= <- <- <-]. cbn. f_equal. by eapply IH.
Qed.

Lemma translateSequential_resolved ts outs rest w :
  length outs = length ts ->
  runTask (translateSequential config ts lang) (map Resolved outs ++ rest) w
  = Some (foldl (fun w t => send (translateRequest config t) w) w ts,
          Done outs, rest).
Proof.
  revert outs w.
  induction ts as [|t ts IH]; intros [|o outs] w Hlen; try discriminate;
    cbn [translateSequential map app foldl].
  - reflexivity.
  - rewrite runTask_bind, runTask_translateText, runTask_bind.
    rewrite IH by (cbn in Hlen; lia). reflexivity.
Qed.

Lemma parseBatch_Some cleaned n l :
  parseBatch cleaned n = Some l ->
  exists parsed, JSON_parse cleaned = Some (JArray parsed)
                 /\ length parsed = n /\ l = map String_of parsed.
Proof.
  unfold parseBatch.
  destruct (JSON_parse cleaned) as [[| | | |parsed|]|]; try done.
  case_bool_decide; [|done]. intros [= <-]. eauto.
Qed.

Lemma parseBatch_length cleaned n l :
  parseBatch cleaned n = Some l -> length l = n.
Proof.
  intros (parsed & _ & <- & ->)%parseBatch_Some. by rewrite length_map.
Qed.

Lemma translateBatch_length ts rs w w' l rest :
  runTask (translateBatch config ts lang) rs w = Some (w', Done l, rest) ->
  length l = length ts.
Proof.
  destruct ts as [|t [|t2 ts]]; cbn [translateBatch].
  - cbn. by intros [= <- <- <-].
  - rewrite runTask_bind, runTask_translateText.
    destruct rs as [|[r|e] rs]; try done. cbn. by intros [= <- <- <-].
  - rewrite runTask_bind. unfold chatCompletion. cbn [runTask].
    destruct rs as [|[raw|e] rs]; try done. cbn [runTask].
    destruct (parseBatch _ _) as [tr|] eqn:Hparse.
    + cbn. intros [= <- <- <-]. by apply parseBatch_length in Hparse.
    + apply translateSequential_length.
Qed.

(** C6: [translateBatch] returns as many texts as it is given, in the
    order of its input.  Whatever the service answers, a returned array
    has the length of the input; when the completions resolve it does
    return: a single text gives the one completion unchanged, several
    texts give the parsed array if it is an array of that length, and
    otherwise one [translateText] per text, in order. *)
Theorem translateBatch_same_length (ts : list jsstring) :
  ts <> [] ->
  (forall rs w w' l rest,
      runTask (translateBatch config ts lang) rs w = Some (w', Done l, rest) ->
      length l = length ts)
  /\ (forall raw outs rest w,
        length outs = length ts ->
        match ts with
        | [t] =>
            runTask (translateBatch config ts lang) (Resolved raw :: rest) w
            = Some (send (translateRequest config t) w, Done [raw], rest)
        | _ =>
            match parseBatch (cleanResponse raw) (length ts) with
            | Some translated =>
                runTask (translateBatch config ts lang) (Resolved raw :: rest) w
                = Some (send (batchRequest ts lang) w, Done translated, rest)
                /\ exists parsed,
                    JSON_parse (cleanResponse raw) = Some (JArray parsed)
                    /\ length parsed = length ts
                    /\ translated = map String_of parsed
            | None =>
                runTask (translateBatch config ts lang)
                        (Resolved raw :: map Resolved outs ++ rest) w
                = Some (foldl (fun w t => send (translateRequest config t) w)
                              (send (batchRequest ts lang) w) ts,
                        Done outs, rest)
            end
        end).
Proof.
  intros Hne. split.
  - intros rs w w' l rest. apply translateBatch_length.
  - intros raw outs rest w Hlen.
    destruct ts as [|t [|t2 ts']]; [done| |].
    + reflexivity.
    + set (ts0 := t :: t2 :: ts') in *.
      destruct (parseBatch (cleanResponse raw) (length ts0)) as [tr|] eqn:Hparse.
      * split; [|by apply parseBatch_Some].
        unfold ts0 at 1. cbn [translateBatch]. fold ts0.
        rewrite runTask_bind. cbn [chatCompletion runTask]. by rewrite Hparse.
      * unfold ts0 at 1. cbn [translateBatch]. fold ts0.
        rewrite runTask_bind. cbn [chatCompletion runTask]. rewrite Hparse.
        by apply translateSequential_resolved.
Qed.

End TranslateBatch.

(** ** Computations fed quiet completions *)

Section Tame.
Context `{Runtime}.

Lemma tame_mono {A} n (R : A -> Prop) T d d' p :
  tame n R T d p -> (d <= d')%nat -> tame n R T d' p.
Proof.
  intros Ht. revert d'.
  induction Ht as [d a Ha|d e He|d req k _ IH|d ms k _ IH|d k _ IH
                   |d i t k Hi _ IH|d i t k _ IH]; intros d' Hle.
  - by constructor.
  - by constructor.
  - destruct d' as [|d']; [lia|]. constructor. intros r Hr. apply IH; [done|lia].
  - destruct d' as [|d']; [lia|]. constructor. apply IH. lia.
  - constructor. by apply IH.
  - constructor; [done|]. by apply IH.
  - constructor. by apply IH.
Qed.

Lemma tame_bind {A B} n (R1 : A -> Prop) (R : B -> Prop) T d1 d2 p
    (f : A -> Async B) :
  tame n R1 T d1 p ->
  (forall a, R1 a -> tame n R T d2 (f a)) ->
  tame n R T (d1 + d2) (bind p f).
Proof.
  intros Ht Hf.
  induction Ht as [d a Ha|d e He|d req k _ IH|d ms k _ IH|d k _ IH
                   |d i t k Hi _ IH|d i t k _ IH]; cbn [bind].
  - eapply tame_mono; [by apply Hf|lia].
  - by constructor.
  - cbn [Nat.add]. constructor. intros r Hr. by apply IH.
  - cbn [Nat.add]. by constructor.
  - by constructor.
  - by constructor.
  - by constructor.
Qed.

Lemma tame_try_catch {A} n (R : A -> Prop) (T1 T : JsError -> Prop) d1 d2 p
    (h : JsError -> Async A) :
  tame n R T1 d1 p ->
  (forall e, T1 e -> tame n R T d2 (h e)) ->
  tame n R T (d1 + d2) (try_catch p h).
Proof.
  intros Ht Hh.
  induction Ht as [d a Ha|d e He|d req k _ IH|d ms k _ IH|d k _ IH
                   |d i t k Hi _ IH|d i t k _ IH]; cbn [try_catch].
  - by constructor.
  - eapply tame_mono; [by apply Hh|lia].
  - cbn [Nat.add]. constructor. intros r Hr. by apply IH.
  - cbn [Nat.add]. by constructor.
  - by constructor.
  - by constructor.
  - by constructor.
Qed.

Lemma tame_translateText n config t lang :
  tame n noAbort benign 1 (translateText config t lang).
Proof.
  unfold translateText, chatCompletion. constructor.
  intros [raw|e] Hq; cbn in Hq; constructor; [by destruct Hq|done].
Qed.

Lemma tame_translateSequential n config ts lang :
  tame n (Forall noAbort) benign (length ts)
       (translateSequential config ts lang).
Proof.
  induction ts as [|t ts IH]; cbn [translateSequential length].
  - by constructor.
  - change (S (length ts)) with (1 + length ts)%nat.
    eapply tame_bind; [apply tame_translateText|].
    intros r Hr.
    replace (length ts) with (length ts + 0)%nat by lia.
    eapply tame_bind; [apply IH|].
    intros rs Hrs. constructor. by constructor.
Qed.

Lemma tame_translateBatch n config ts lang :
  tame n (Forall noAbort) benign (1 + length ts)
       (translateBatch config ts lang).
Proof.
  destruct ts as [|t [|t2 ts]]; cbn [translateBatch].
  - by constructor.
  - eapply tame_mono; [|apply Nat.le_refl].
    replace (1 + length [t])%nat with (1 + 1)%nat by done.
    eapply tame_bind; [apply tame_translateText|].
    intros r Hr. constructor. by repeat constructor.
  - set (ts0 := t :: t2 :: ts).
    unfold chatCompletion; cbn [bind Nat.add]. constructor.
    intros [raw|e] Hq; cbn [bind]; [|by constructor].
    destruct Hq as [_ Hparsed].
    destruct (parseBatch _ _) as [tr|] eqn:Hparse.
    + constructor.
      apply parseBatch_Some in Hparse as (parsed & Hp & _ & ->).
      apply Forall_map. by apply Hparsed.
    + apply tame_translateSequential.
Qed.

Lemma benign_content_error t :
  noAbort t -> benign (Error (js "Content verification failed: " ++ t)).
Proof.
  unfold noAbort, benign, isAbort, Error; cbn [name message]. intros Ht.
  rewrite bool_decide_eq_false_2 by discriminate. cbn [orb].
  change (js "Abort") with (65%N :: js "bort").
  rewrite includes_app_fresh; [done|].
  cbn. intros Hin.
  repeat (apply elem_of_cons in Hin as [Hin|Hin]; [discriminate|]).
  by apply elem_of_nil in Hin.
Qed.

Lemma tame_verifyContent n l :
  Forall noAbort l -> tame n (fun _ => True) benign 0 (verifyContent l).
Proof.
  intros Hl. unfold verifyContent.
  destruct (List.find failureMarker l) as [t|] eqn:Hfind; [|by constructor].
  constructor. apply benign_content_error.
  apply find_some in Hfind as [Hin _].
  rewrite Forall_forall in Hl. apply Hl. by apply list_elem_of_In.
Qed.

Lemma tame_assignTranslated n T i t :
  (i < n)%nat -> tame n (fun _ => True) T 0 (assignTranslated i t).
Proof. intros Hi. constructor; [done|]. by constructor. Qed.

Lemma tame_notify n T cb i t :
  tame n (fun _ => True) T 0 (notify cb i t).
Proof.
  unfold notify. destruct cb; [|by constructor].
  constructor. constructor. by constructor.
Qed.

Lemma tame_updateResults n T cb l j idxs :
  Forall (fun i => i < n)%nat idxs ->
  tame n (fun _ => True) T 0 (updateResults cb l j idxs).
Proof.
  intros Hidx. revert j.
  induction Hidx as [|i idxs Hi _ IH]; intros j; cbn [updateResults].
  - by constructor.
  - change 0%nat with (0 + (0 + 0))%nat.
    eapply tame_bind; [by apply tame_assignTranslated|]. intros _ _.
    eapply tame_bind; [apply tame_notify|]. intros _ _. apply IH.
Qed.

Lemma tame_markEmpty n T idxs :
  Forall (fun i => i < n)%nat idxs ->
  tame n (fun _ => True) T 0 (markEmpty idxs).
Proof.
  induction 1 as [|i idxs Hi _ IH]; cbn [markEmpty].
  - by constructor.
  - change 0%nat with (0 + 0)%nat.
    eapply tame_bind; [by apply tame_assignTranslated|]. by intros _ _.
Qed.

Lemma tame_attempt n config cb lang b :
  Forall (fun i => i < n)%nat (indices b) ->
  tame n (fun _ => True) benign (1 + length (texts b))
       (attempt config cb lang b).
Proof.
  intros Hidx. unfold attempt.
  replace (1 + length (texts b))%nat
    with ((1 + length (texts b)) + (0 + 0))%nat by lia.
  eapply tame_bind; [apply tame_translateBatch|]. intros l Hl.
  eapply tame_bind; [by apply tame_verifyContent|]. intros _ _.
  by apply tame_updateResults.
Qed.

Lemma tame_retryLoop n config cb lang b fuel retryCount :
  Forall (fun i => i < n)%nat (indices b) ->
  (1 <= fuel)%nat ->
  (fuel + retryCount = S maxRetries)%nat ->
  tameTask n (fuel * (2 + length (texts b)))
           (retryLoop fuel config cb lang b retryCount).
Proof.
  intros Hidx. revert retryCount.
  induction fuel as [|fuel IH]; intros retryCount Hpos Hsum; [lia|].
  cbn [retryLoop]. constructor.
  replace (S fuel * (2 + length (texts b)))%nat
    with ((1 + length (texts b)) + (1 + fuel * (2 + length (texts b))))%nat
    by lia.
  eapply tame_try_catch; [by apply tame_attempt|].
  intros e He. unfold benign in He. rewrite He.
  destruct (maxRetries <? S retryCount)%nat eqn:Hmax.
  - eapply tame_mono; [by apply tame_markEmpty|lia].
  - apply Nat.ltb_ge in Hmax. constructor.
    apply IH; unfold maxRetries in *; lia.
Qed.

Lemma tame_processBatch n config cb lang b :
  Forall (fun i => i < n)%nat (indices b) ->
  tameTask n (taskBound b) (processBatch config cb lang b).
Proof.
  intros Hidx. unfold processBatch. constructor.
  apply tame_retryLoop; [done|lia|unfold maxRetries; lia].
Qed.

End Tame.

(** ** The shared [results] array *)

Lemma setTranslated_shape i t rs rs' :
  setTranslated i t rs = Some rs' ->
  map original rs' = map original rs /\ length rs' = length rs.
Proof.
  unfold setTranslated. destruct (rs !! i) as [r|] eqn:Hr; [|done].
  intros [= <-]. split; [|by rewrite length_insert].
  change (map original) with (fmap (M:=list) original).
  rewrite list_fmap_insert. cbn [original].
  apply list_insert_id. by rewrite list_lookup_fmap, Hr.
Qed.

Lemma setTranslated_in_range i t (rs : list TranslationResult) :
  (i < length rs)%nat -> is_Some (setTranslated i t rs).
Proof.
  intros Hi. unfold setTranslated.
  destruct (lookup_lt_is_Some_2 rs i Hi) as [r ->]. by eexists.
Qed.

Lemma setTranslated_lookup i t rs rs' j :
  setTranslated i t rs = Some rs' ->
  rs' !! j = if decide (i = j)
             then (fun r => mkResult (original r) t) <$> rs !! j
             else rs !! j.
Proof.
  unfold setTranslated. destruct (rs !! i) as [r|] eqn:Hr; [|done].
  intros [= <-]. case_decide as Hij.
  - subst j. rewrite Hr. cbn.
    apply list_lookup_insert_eq. by eapply lookup_lt_Some.
  - by apply list_lookup_insert_ne.
Qed.

(** Whatever a task does, it changes no [original] and no length, and it
    never touches the signal. *)
Lemma advance_shape p w :
  map original (results (advance p w).1) = map original (results w)
  /\ aborted (advance p w).1 = aborted w.
Proof.
  revert w. induction p as [a|e|req k IH|ms k IH|k IH|i t k IH|i t k IH|];
    intros w; cbn [advance fst].
  - done.
  - done.
  - done.
  - done.
  - apply IH.
  - destruct (setTranslated i t (results w)) as [rs|] eqn:Hset; [|apply IH].
    destruct (IH true (mkWorld rs (aborted w) (requests w) (reported w)))
      as [Ho Ha].
    cbn [results aborted] in *. rewrite Ho, Ha.
    by apply setTranslated_shape in Hset as [-> _].
  - destruct (IH (mkWorld (results w) (aborted w) (requests w)
                          (reported w ++ [(i, t)]))) as [Ho Ha]. done.
  - done.
Qed.

Lemma runTask_shape {A} (p : Async A) rs w w' o rest :
  runTask p rs w = Some (w', o, rest) ->
  map original (results w') = map original (results w)
  /\ aborted w' = aborted w.
Proof.
  revert rs w. induction p as [a|e|req k IH|ms k IH|k IH|i t k IH|i t k IH|];
    intros rs w; cbn [runTask].
  - by intros [= <- <- <-].
  - by intros [= <- <- <-].
  - destruct rs as [|r rs]; [done|]. intros Hrun. by apply IH in Hrun.
  - apply IH.
  - apply IH.
  - destruct (setTranslated i t (results w)) as [res|] eqn:Hset; [|apply IH].
    intros Hrun. apply IH in Hrun as [Ho Ha]. cbn [results aborted] in *.
    rewrite Ho, Ha. by apply setTranslated_shape in Hset as [-> _].
  - intros Hrun. by apply IH in Hrun.
  - by intros [= <- <- <-].
Qed.

(** ** The tables of tasks *)

Lemma setStatus_ids tid st a : map fst (setStatus tid st a) = map fst a.
Proof.
  induction a as [|[i old] a IH]; cbn; [done|].
  destruct (i =? tid)%nat; cbn; [done|]. by rewrite IH.
Qed.


Lemma splice_ids tid a : map fst (splice tid a) = removeId tid (map fst a).
Proof.
  induction a as [|[i old] a IH]; cbn; [done|].
  destruct (i =? tid)%nat; cbn; [done|]. by rewrite IH.
Qed.


Lemma statusOf_memId tid a st :
  statusOf tid a = Some st -> memId tid (map fst a) = true.
Proof.
  unfold memId.
  induction a as [|[i old] a IH]; cbn; [done|].
  rewrite (Nat.eqb_sym tid i).
  destruct (i =? tid)%nat; [done|]. apply IH.
Qed.


(** ** Steps of the run *)

Section Steps.
Context `{Runtime}.
Variable c : Call.

(** What a step of the body can be: a move of the program counter, or
    the start of the batch at the head of the queue. *)
Lemma mainStep_inv m m' :
  mainStep c m = Some m' ->
  (world m' = world m /\ queue m' = queue m
   /\ activePromises m' = activePromises m /\ nextId m' = nextId m
   /\ ((pc m = AtFor /\ (queue m = [] \/ aborted (world m) = true)
        /\ pc m' = awaitAll (activePromises m))
       \/ (pc m = AtFor /\ queue m <> [] /\ aborted (world m) = false
           /\ pc m' = AtWhile)
       \/ (pc m = AtWhile /\ queue m <> []
           /\ concurrencyLimit c <= Z.of_nat (length (activePromises m))
           /\ pc m' = awaitRace (activePromises m))))
  \/ (exists b rest,
        pc m = AtWhile /\ queue m = b :: rest
        /\ Z.of_nat (length (activePromises m)) < concurrencyLimit c
        /\ let r := advance (processBatch (config c) (onParagraphTranslated c)
                                          (targetLang c) b) (world m) in
           world m' = r.1 /\ queue m' = rest
           /\ activePromises m' = activePromises m ++ [(nextId m, r.2)]
           /\ nextId m' = S (nextId m) /\ pc m' = AtFor).
Proof.
  unfold mainStep. destruct (pc m) eqn:Hpc; try done.
  - destruct (queue m) as [|b rest] eqn:Hq.
    + intros [= <-]. left. cbn. split_and!; try done. left. split_and!; auto.
    + destruct (aborted (world m)) eqn:Hab; intros [= <-]; left; cbn;
        (split_and!; try done).
      * left. split_and!; auto.
      * right; left. by split_and!.
  - destruct (queue m) as [|b rest] eqn:Hq; [done|].
    destruct (concurrencyLimit c <=? _) eqn:Hfull.
    + apply Z.leb_le in Hfull. intros [= <-]. left. cbn.
      split_and!; try done. right; right. by split_and!.
    + apply Z.leb_gt in Hfull.
      destruct (advance _ (world m)) as [w st] eqn:Hadv.
      intros [= <-]. right. exists b, rest.
      cbn [world queue activePromises nextId pc]. rewrite Hadv.
      by split_and!.
Qed.

(** What a step of the machine can be. *)
Lemma step_inv ev m m' :
  step c ev m = Some m' ->
  (ev = EvMain /\ mainStep c m = Some m')
  \/ (exists tid p,
        ((exists r k, ev = EvChat tid r
                      /\ statusOf tid (activePromises m) = Some (AwaitingChat k)
                      /\ p = k r)
         \/ (ev = EvTimer tid
             /\ statusOf tid (activePromises m) = Some (AwaitingTimer p)))
        /\ m' = resume tid p m)
  \/ (exists tid,
        ev = EvThen tid
        /\ statusOf tid (activePromises m) = Some Fulfilled
        /\ world m' = world m /\ queue m' = queue m
        /\ activePromises m' = splice tid (activePromises m)
        /\ nextId m' = nextId m /\ pc m' = settle tid None (pc m))
  \/ (ev = EvAbort
      /\ results (world m') = results (world m)
      /\ aborted (world m') = true
      /\ requests (world m') = requests (world m)
      /\ queue m' = queue m /\ activePromises m' = activePromises m
      /\ nextId m' = nextId m /\ pc m' = pc m).
Proof.
  destruct ev as [|tid r|tid|tid|]; cbn [step].
  - intros Hm. by left.
  - destruct (statusOf tid _) as [[k|k| | |]|] eqn:Hst; try done.
    intros [= <-]. right; left. exists tid, (k r). split; [|done].
    left. by exists r, k.
  - destruct (statusOf tid _) as [[k|k| | |]|] eqn:Hst; try done.
    intros [= <-]. right; left. exists tid, k. split; [|done]. by right.
  - destruct (statusOf tid _) as [[k|k| | |]|] eqn:Hst; try done.
    intros [= <-]. right; right; left. exists tid. by split_and!.
  - intros [= <-]. right; right; right. by split_and!.
Qed.

Lemma resume_fields tid p m :
  world (resume tid p m) = (advance p (world m)).1
  /\ queue (resume tid p m) = queue m
  /\ activePromises (resume tid p m)
     = setStatus tid (advance p (world m)).2 (activePromises m)
  /\ nextId (resume tid p m) = nextId m
  /\ pc (resume tid p m)
     = match (advance p (world m)).2 with
       | Failed e => settle tid (Some e) (pc m)
       | _ => pc m
       end.
Proof. unfold resume. by destruct (advance p (world m)) as [w st]. Qed.

(** No step adds or removes an entry of [results] or
    changes an [original]. *)
Lemma step_originals ev m m' :
  step c ev m = Some m' ->
  map original (results (world m')) = map original (results (world m)).
Proof.
  intros [[_ Hmain]|[(tid & p & _ & ->)|[(tid & _ & _ & -> & _)
                     |(_ & -> & _)]]]%step_inv; [|  |done|done].
  - apply mainStep_inv in Hmain
      as [(-> & _)|(b & rest & _ & _ & _ & -> & _)]; [done|].
    apply advance_shape.
  - destruct (resume_fields tid p m) as [-> _]. apply advance_shape.
Qed.

Lemma steps_invariant (P : Machine -> Prop) evs m m' :
  (forall ev m1 m2, P m1 -> step c ev m1 = Some m2 -> P m2) ->
  P m -> steps c evs m = Some m' -> P m'.
Proof.
  intros Hstep. revert m.
  induction evs as [|ev evs IH]; intros m Hm; cbn [steps].
  - by intros [= <-].
  - destruct (step c ev m) as [m1|] eqn:Hev; [|done].
    apply IH. by eapply Hstep.
Qed.

Lemma steps_app evs1 evs2 m :
  steps c (evs1 ++ evs2) m
  = match steps c evs1 m with
    | Some m1 => steps c evs2 m1
    | None => None
    end.
Proof.
  revert m. induction evs1 as [|ev evs1 IH]; intros m; cbn [steps app]; [done|].
  destruct (step c ev m); [apply IH|done].
Qed.

Lemma reachable_originals ab m :
  reachable c ab m -> map original (results (world m)) = paragraphs c.
Proof.
  intros [evs Hevs].
  eapply (steps_invariant
            (fun m => map original (results (world m)) = paragraphs c));
    [| |exact Hevs].
  - intros ev m1 m2 Hm1 Hstep. by rewrite (step_originals _ _ _ Hstep).
  - cbn. rewrite map_map. cbn. apply map_id.
Qed.

(** ** The window of started batches *)




End Steps.

(** ** Runs without cancellation come to an end *)

Section Calm.
Context `{Runtime}.
Variable c : Call.

Lemma advance_tame n d p w :
  tameTask n d p ->
  aborted w = false ->
  length (results w) = n ->
  exists wt, (wt <= d + 3)%nat
             /\ forall tid, statusWeight n (tid, (advance p w).2) wt.
Proof.
  unfold tameTask. intros Ht. revert w.
  induction Ht as [d a _|d e []|d req k Hk _|d ms k Hk _|d k _ IH
                   |d i t k Hi _ IH|d i t k _ IH]; intros w Hab Hlen;
    cbn [advance snd].
  - exists 3%nat. split; [lia|]. by intros tid.
  - exists (d + 4)%nat. split; [lia|]. intros tid. by exists d.
  - exists (d + 4)%nat. split; [lia|]. intros tid. by exists d.
  - rewrite Hab. by apply IH.
  - destruct (setTranslated_in_range i t (results w)) as [rs Hset]; [lia|].
    rewrite Hset. apply IH; [done|]. cbn.
    apply setTranslated_shape in Hset as [_ ->]. done.
  - by apply IH.
Qed.

Lemma advance_keeps n p w :
  aborted w = false ->
  length (results w) = n ->
  aborted (advance p w).1 = false /\ length (results (advance p w).1) = n.
Proof.
  intros Hab Hlen. destruct (advance_shape p w) as [Ho Ha].
  split; [by rewrite Ha|].
  by rewrite <- (length_map original), Ho, length_map.
Qed.

Lemma weights_no_failure n a ws :
  Forall2 (statusWeight n) a ws -> firstFailed a = None.
Proof.
  induction 1 as [|[i st] wt a ws Hw _ IH]; cbn; [done|].
  unfold statusWeight in Hw; cbn in Hw. by destruct st.
Qed.

Lemma weights_head n a ws oracle m :
  Forall2 (statusWeight n) a ws ->
  a <> [] ->
  exists tid st,
    head a = Some (tid, st)
    /\ firstMove oracle m a
       = Some match st with
              | AwaitingChat _ => EvChat tid (oracle m tid)
              | AwaitingTimer _ => EvTimer tid
              | _ => EvThen tid
              end
    /\ match st with Failed _ | Spinning => False | _ => True end.
Proof.
  intros [|[i st] wt a' ws' Hw _] Hne; [done|].
  exists i, st. unfold statusWeight in Hw; cbn in Hw.
  by destruct st.
Qed.

Lemma weights_lookup n a ws tid st :
  Forall2 (statusWeight n) a ws ->
  statusOf tid a = Some st ->
  exists wt,
    statusWeight n (tid, st) wt
    /\ (forall st' wt',
          statusWeight n (tid, st') wt' ->
          exists ws', Forall2 (statusWeight n) (setStatus tid st' a) ws'
                      /\ (sumWeights ws' + wt = sumWeights ws + wt')%nat)
    /\ (exists ws', Forall2 (statusWeight n) (splice tid a) ws'
                    /\ (sumWeights ws' + wt = sumWeights ws)%nat).
Proof.
  induction 1 as [|[i old] wt a ws Hw Hall IH]; cbn [statusOf]; [done|].
  destruct (i =? tid)%nat eqn:Heq.
  - intros [= ->]. exists wt. split_and!; [done| |].
    + intros st' wt' Hw'. exists (wt' :: ws). cbn [setStatus]. rewrite Heq.
      split; [by constructor|]. unfold sumWeights in *; cbn [foldr] in *; lia.
    + exists ws. cbn [splice]. rewrite Heq. split; [done|]. unfold sumWeights in *; cbn [foldr] in *; lia.
  - intros Hst. destruct (IH Hst) as (wt0 & Hw0 & Hset & ws2 & Hspl & Hsum2).
    exists wt0. split_and!; [done| |].
    + intros st' wt' Hw'. destruct (Hset st' wt' Hw') as (ws1 & Hall1 & Hsum1).
      exists (wt :: ws1). cbn [setStatus]. rewrite Heq.
      split; [by constructor|]. unfold sumWeights in *; cbn [foldr] in *; lia.
    + exists (wt :: ws2). cbn [splice]. rewrite Heq.
      split; [by constructor|]. unfold sumWeights in *; cbn [foldr] in *; lia.
Qed.

Lemma sumWeights_app ws1 ws2 :
  sumWeights (ws1 ++ ws2) = (sumWeights ws1 + sumWeights ws2)%nat.
Proof.
  unfold sumWeights. induction ws1 as [|w ws1 IH]; cbn [foldr app]; [done|].
  rewrite IH. lia.
Qed.

Lemma map_fst_nil {A B} (l : list (A * B)) : map fst l = [] -> l = [].
Proof. by destruct l. Qed.

Hypothesis Hlimit : 0 < concurrencyLimit c.

Lemma calm_resume n m N tid p :
  calm n m N ->
  statusOf tid (activePromises m) = Some
    match p with inl k => AwaitingChat k | inr k => AwaitingTimer k end ->
  forall q,
    (match p with
     | inl k => exists r, quiet r /\ q = k r
     | inr k => q = k
     end) ->
  exists N', (N' < N)%nat /\ calm n (resume tid q m) N'.
Proof.
  intros (Hab & Hlen & Hq & Hpc & ws & Hws & HN) Hst q Hq'.
  destruct (weights_lookup _ _ _ _ _ Hws Hst) as (wt0 & Hw0 & Hset & _).
  assert (Htame : exists d0, wt0 = (d0 + 4)%nat /\ tameTask n d0 q).
  { unfold statusWeight in Hw0; cbn [snd] in Hw0.
    destruct p as [k|k]; destruct Hw0 as (d0 & -> & Hk); exists d0.
    - destruct Hq' as (r & Hr & ->). split; [done|]. by apply Hk.
    - subst q. by split. }
  destruct Htame as (d0 & -> & Htame).
  destruct (advance_tame n d0 q (world m) Htame Hab Hlen) as (wt' & Hle & Hw').
  destruct (advance_keeps n q (world m) Hab Hlen) as [Hab' Hlen'].
  destruct (Hset _ _ (Hw' tid)) as (ws' & Hws' & Hsum).
  destruct (resume_fields tid q m) as (Hw & Hqu & Ha & Hn & Hp).
  assert (Hpc' : pc (resume tid q m) = pc m).
  { rewrite Hp. specialize (Hw' tid). unfold statusWeight in Hw'.
    cbn [snd] in Hw'. by destruct (advance q (world m)).2. }
  exists (pcWeight (pc m) + sumWeights ws' + queueWeight (queue m))%nat.
  split; [lia|].
  unfold calm, pcConsistent. rewrite Hw, Hqu, Ha, Hpc', setStatus_ids.
  split_and!; try done. exists ws'. split; [done|lia].
Qed.

Lemma calm_step n m N ev m' :
  calm n m N -> calmEvent ev -> step c ev m = Some m' ->
  exists N', (N' < N)%nat /\ calm n m' N'.
Proof.
  intros Hcalm Hev Hstep.
  pose proof Hcalm as (Hab & Hlen & Hq & Hpc & ws & Hws & HN).
  unfold pcConsistent in Hpc.
  apply step_inv in Hstep
    as [[_ Hmain]|[(tid & p & Hp & ->)|[(tid & _ & Hst & Hw & Hqu & Ha & Hn & Hp)
       |(-> & _)]]]; [| | |done].
  - (* the body moves *)
    apply mainStep_inv in Hmain
      as [(Hw & Hqu & Ha & Hn & Hcase)
         |(b & rest & Hat & Hqb & Hroom & Hw & Hqu & Ha & Hn & Hp)].
    + pose proof (weights_no_failure _ _ _ Hws) as Hnf.
      destruct Hcase as [(Hat & Hbreak & Hp)|[(Hat & Hne & _ & Hp)
                        |(Hat & Hne & Hfull & Hp)]].
      * (* the loop is over: Promise.all *)
        unfold awaitAll in Hp. rewrite Hnf in Hp.
        exists (sumWeights ws + queueWeight (queue m))%nat.
        rewrite Hat in HN; cbn [pcWeight] in HN. split; [lia|].
        unfold calm, pcConsistent. rewrite Hw, Hqu, Ha, Hp.
        split_and!; try done.
        -- destruct (activePromises m); cbn; [done|]. by split.
        -- exists ws. split; [done|].
           destruct (activePromises m); cbn [pcWeight]; lia.
      * (* into the while loop *)
        exists (1 + sumWeights ws + queueWeight (queue m))%nat.
        rewrite Hat in HN; cbn [pcWeight] in HN. split; [lia|].
        unfold calm, pcConsistent. rewrite Hw, Hqu, Ha, Hp.
        split_and!; try done. exists ws. by split.
      * (* the window is full: Promise.race *)
        unfold awaitRace in Hp. rewrite Hnf in Hp.
        exists (sumWeights ws + queueWeight (queue m))%nat.
        rewrite Hat in HN; cbn [pcWeight] in HN. split; [lia|].
        unfold calm, pcConsistent. rewrite Hw, Hqu, Ha, Hp.
        split_and!; try done.
        -- cbn. split_and!; [done| |done].
           intros Hnil%map_fst_nil. rewrite Hnil in Hfull. cbn in Hfull. lia.
        -- exists ws. split; [done|]. cbn [pcWeight]. lia.
    + (* a batch is started *)
      cbn zeta in *. rewrite Hqb in Hq. apply Forall_cons in Hq as [Hb Hrest].
      pose proof (tame_processBatch n (config c) (onParagraphTranslated c)
                    (targetLang c) b Hb) as Htame.
      destruct (advance_tame n _ _ (world m) Htame Hab Hlen) as (wt & Hle & Hwt).
      destruct (advance_keeps n (processBatch (config c) (onParagraphTranslated c)
                  (targetLang c) b) (world m) Hab Hlen) as [Hab' Hlen'].
      exists (2 + sumWeights (ws ++ [wt]) + queueWeight rest)%nat.
      rewrite Hat, Hqb in HN; cbn [pcWeight queueWeight foldr] in HN.
      fold (queueWeight rest) in HN.
      rewrite sumWeights_app; cbn [sumWeights foldr]. split; [lia|].
      unfold calm, pcConsistent. rewrite Hw, Hqu, Ha, Hp.
      split_and!; try done.
      exists (ws ++ [wt]). split.
      * apply Forall2_app; [done|]. constructor; [apply Hwt|constructor].
      * rewrite sumWeights_app; cbn [sumWeights foldr pcWeight]. lia.
  - (* a task moves *)
    destruct Hp as [(r & k & -> & Hst & ->)|(-> & Hst)].
    + eapply (calm_resume n m N tid (inl k)); [done|done|].
      exists r. by split.
    + by eapply (calm_resume n m N tid (inr p)).
  - (* a fulfilled task is spliced out *)
    destruct (weights_lookup _ _ _ _ _ Hws Hst) as (wt0 & Hw0 & _ & ws' & Hws' & Hsum).
    unfold statusWeight in Hw0; cbn [snd] in Hw0. subst wt0.
    pose proof (statusOf_memId _ _ _ Hst) as Hmem.
    destruct (pc m) as [| |snapshot|waiting| |e] eqn:Hat;
      cbn [settle consistent] in Hp, Hpc.
    + exists (2 + sumWeights ws' + queueWeight (queue m))%nat.
      cbn [pcWeight] in HN. split; [lia|].
      unfold calm, pcConsistent. rewrite Hw, Hqu, Ha, Hp.
      split_and!; try done. exists ws'. by split.
    + exists (1 + sumWeights ws' + queueWeight (queue m))%nat.
      cbn [pcWeight] in HN. split; [lia|].
      unfold calm, pcConsistent. rewrite Hw, Hqu, Ha, Hp.
      split_and!; try done. exists ws'. by split.
    + destruct Hpc as (-> & _ & Hne). rewrite Hmem in Hp.
      exists (1 + sumWeights ws' + queueWeight (queue m))%nat.
      cbn [pcWeight] in HN. split; [lia|].
      unfold calm, pcConsistent. rewrite Hw, Hqu, Ha, Hp.
      split_and!; try done. exists ws'. by split.
    + destruct Hpc as (-> & _). rewrite Hmem in Hp.
      exists (sumWeights ws' + queueWeight (queue m))%nat.
      cbn [pcWeight] in HN. split; [lia|].
      unfold calm, pcConsistent. rewrite Hw, Hqu, Ha, Hp.
      rewrite splice_ids.
      split_and!; try done.
      * destruct (removeId tid (map fst (activePromises m))); cbn; [done|].
        by split.
      * exists ws'. split; [done|].
        destruct (removeId tid (map fst (activePromises m))); cbn [pcWeight]; lia.
    + apply map_fst_nil in Hpc. rewrite Hpc in Hst. done.
    + done.
Qed.

(** The driver always finds an event that the machine accepts. *)
Lemma calm_progress n m N oracle :
  (forall m tid, quiet (oracle m tid)) ->
  calm n m N ->
  pc m <> Returned ->
  exists ev m', nextEvent oracle m = Some ev
                /\ calmEvent ev /\ step c ev m = Some m'.
Proof.
  intros Hor (Hab & Hlen & Hq & Hpc & ws & Hws & HN) Hnot.
  unfold nextEvent, pcConsistent in *.
  assert (Hmove : activePromises m <> [] ->
    exists ev m', firstMove oracle m (activePromises m) = Some ev
                  /\ calmEvent ev /\ step c ev m = Some m').
  { intros Hne.
    destruct (weights_head _ _ _ oracle m Hws Hne) as (tid & st & Hhd & Hmv & Hst).
    destruct (activePromises m) as [|[i st0] a] eqn:Hact; [done|].
    injection Hhd as -> ->. rewrite Hmv.
    destruct st as [k|k| | |]; try done; eexists; eexists;
      (split; [reflexivity|]); (split; [try done; apply Hor|]);
      cbn [step]; rewrite Hact; cbn [statusOf]; rewrite Nat.eqb_refl;
      reflexivity. }
  destruct (pc m) as [| |snapshot|waiting| |e] eqn:Hat;
    cbn [consistent] in Hpc; try done.
  - exists EvMain. cbn [step]. unfold mainStep. rewrite Hat.
    destruct (queue m); [by eexists|]. rewrite Hab. by eexists.
  - exists EvMain. cbn [step]. unfold mainStep. rewrite Hat.
    destruct (queue m) as [|b rest]; [done|].
    destruct (concurrencyLimit c <=? _); [by eexists|].
    destruct (advance _ _). by eexists.
  - destruct Hpc as (-> & Hne & _). apply Hmove.
    intros Hnil. by rewrite Hnil in Hne.
  - destruct Hpc as (-> & Hne). apply Hmove.
    intros Hnil. by rewrite Hnil in Hne.
Qed.

Lemma calm_weaken n m N N' : calm n m N -> (N <= N')%nat -> calm n m N'.
Proof.
  intros (Hab & Hlen & Hq & Hpc & ws & Hws & HN) Hle.
  unfold calm. split_and!; try done. exists ws. split; [done|lia].
Qed.

Lemma pc_Returned_or_not (m : Machine) : pc m = Returned \/ pc m <> Returned.
Proof. destruct (pc m); auto. Qed.

(** With enough fuel the driver takes a calm state to [Returned]. *)
Lemma run_calm n oracle N m :
  (forall m tid, quiet (oracle m tid)) ->
  calm n m N ->
  pc (run c oracle N m) = Returned /\ calm n (run c oracle N m) N.
Proof.
  intros Hor. revert m.
  induction N as [|N IH]; intros m Hcalm.
  - cbn [run]. split; [|done].
    destruct (pc_Returned_or_not m) as [|Hnot]; [done|].
    destruct (calm_progress n m 0 oracle Hor Hcalm Hnot)
      as (ev & m' & _ & Hev & Hstep).
    destruct (calm_step n m 0 ev m' Hcalm Hev Hstep) as (N' & HN' & _). lia.
  - cbn [run].
    destruct (pc_Returned_or_not m) as [Hret|Hnot].
    + unfold nextEvent. rewrite Hret. done.
    + destruct (calm_progress n m (S N) oracle Hor Hcalm Hnot)
        as (ev & m' & -> & Hev & Hstep).
      rewrite Hstep.
      destruct (calm_step n m (S N) ev m' Hcalm Hev Hstep) as (N' & HN' & Hc').
      destruct (IH m' (calm_weaken n m' N' N Hc' ltac:(lia))) as [Hret Hc''].
      split; [done|]. eapply calm_weaken; [exact Hc''|lia].
Qed.

End Calm.

(** ** The plan covers the paragraphs, whatever the limits *)

Lemma planParagraph_indices maxCount maxChars st i p :
  let st' := planParagraph maxCount maxChars st i p in
  concat (map indices (batches st')) ++ indices (currentBatch st')
  = (concat (map indices (batches st)) ++ indices (currentBatch st)) ++ [i].
Proof.
  unfold planParagraph.
  destruct (_ && _); cbn [batches currentBatch indices emptyBatch].
  - rewrite map_app, concat_app; cbn [map concat]. by rewrite app_nil_r.
  - by rewrite app_assoc.
Qed.

Lemma planLoop_indices maxCount maxChars ps i st :
  let st' := planLoop maxCount maxChars i ps st in
  concat (map indices (batches st')) ++ indices (currentBatch st')
  = (concat (map indices (batches st)) ++ indices (currentBatch st))
    ++ seq i (length ps).
Proof.
  revert i st. induction ps as [|p ps IH]; intros i st; cbn [planLoop length seq].
  - by rewrite app_nil_r.
  - cbn zeta in *. rewrite IH, planParagraph_indices.
    by rewrite <- app_assoc.
Qed.

Lemma createBatches_indices maxCount maxChars ps :
  concat (map indices (createBatches maxCount maxChars ps))
  = seq 0 (length ps).
Proof.
  unfold createBatches.
  pose proof (planLoop_indices maxCount maxChars ps 0
                (mkPlanner [] emptyBatch 0)) as Hloop.
  cbn zeta in Hloop. cbn [batches currentBatch indices emptyBatch map concat app]
    in Hloop.
  destruct (planLoop _ _ _ _ _) as [bs cur n]; cbn [batches currentBatch] in *.
  destruct (0 <? _) eqn:Hne.
  - rewrite map_app, concat_app; cbn [map concat]. by rewrite app_nil_r.
  - apply Z.ltb_ge in Hne.
    destruct (indices cur); [by rewrite app_nil_r in Hloop|cbn in Hne; lia].
Qed.

Lemma createBatches_in_range maxCount maxChars ps :
  Forall (fun b => Forall (fun i => i < length ps)%nat (indices b))
         (createBatches maxCount maxChars ps).
Proof.
  pose proof (createBatches_indices maxCount maxChars ps) as Hcat.
  apply Forall_forall. intros b Hb. apply Forall_forall. intros i Hi.
  assert (Hin : i ∈ seq 0 (length ps)).
  { rewrite <- Hcat. apply list_elem_of_In, in_concat.
    exists (indices b). split; [|by apply list_elem_of_In].
    apply in_map. by apply list_elem_of_In. }
  apply elem_of_seq in Hin. lia.
Qed.

Section Runs.
Context `{Runtime}.
Variable c : Call.

Lemma calm_start : calm (length (paragraphs c)) (start c false) (runBound c).
Proof.
  unfold calm, pcConsistent, start, runBound;
    cbn [world queue activePromises pc results aborted consistent pcWeight].
  split_and!; try done.
  - by rewrite length_map.
  - apply createBatches_in_range.
  - exists []. split; [constructor|]. cbn [sumWeights foldr]. lia.
Qed.

Lemma run_steps oracle fuel m :
  exists evs, steps c evs m = Some (run c oracle fuel m).
Proof.
  revert m. induction fuel as [|fuel IH]; intros m; cbn [run].
  - by exists [].
  - destruct (nextEvent oracle m) as [ev|]; [|by exists []].
    destruct (step c ev m) as [m'|] eqn:Hstep; [|by exists []].
    destruct (IH m') as [evs Hevs]. exists (ev :: evs). cbn [steps].
    by rewrite Hstep.
Qed.

Lemma run_reachable oracle fuel ab :
  reachable c ab (run c oracle fuel (start c ab)).
Proof. apply run_steps. Qed.

(** A call that is never cancelled and is served quietly returns. *)
Lemma run_returns oracle :
  0 < concurrencyLimit c ->
  (forall m tid, quiet (oracle m tid)) ->
  exists rs,
    outcome (run c oracle (runBound c) (start c false)) = Value rs
    /\ map original rs = paragraphs c.
Proof.
  intros Hlimit Hor.
  destruct (run_calm c Hlimit _ oracle _ _ Hor calm_start) as [Hret _].
  unfold outcome. rewrite Hret. eexists. split; [done|].
  eapply reachable_originals, run_reachable.
Qed.



End Runs.

(** ** The unrolling of the retry loop is never the limit *)

Section Converges.
Context `{Runtime}.

Lemma converges_bind {A B} (p : Async A) (f : A -> Async B) :
  converges p -> (forall a, converges (f a)) -> converges (bind p f).
Proof.
  intros Hp Hf. induction Hp; cbn [bind]; try (by constructor). apply Hf.
Qed.

Lemma converges_try_catch {A} (p : Async A) (h : JsError -> Async A) :
  converges p -> (forall e, converges (h e)) -> converges (try_catch p h).
Proof.
  intros Hp Hh. induction Hp; cbn [try_catch]; try (by constructor). apply Hh.
Qed.

Lemma converges_translateText config t lang :
  converges (translateText config t lang).
Proof. constructor. intros [raw|e]; constructor. Qed.

Lemma converges_translateSequential config ts lang :
  converges (translateSequential config ts lang).
Proof.
  induction ts as [|t ts IH]; cbn [translateSequential]; [constructor|].
  apply converges_bind; [apply converges_translateText|]. intros r.
  apply converges_bind; [apply IH|]. intros rs. constructor.
Qed.

Lemma converges_translateBatch config ts lang :
  converges (translateBatch config ts lang).
Proof.
  destruct ts as [|t [|t2 ts]]; cbn [translateBatch].
  - constructor.
  - apply converges_bind; [apply converges_translateText|]. intros r. constructor.
  - apply converges_bind; [constructor; intros [raw|e]; constructor|].
    intros raw. destruct (parseBatch _ _); [constructor|].
    apply converges_translateSequential.
Qed.

Lemma converges_assignTranslated i t : converges (assignTranslated i t).
Proof. constructor. intros [|]; constructor. Qed.

Lemma converges_updateResults cb l j idxs :
  converges (updateResults cb l j idxs).
Proof.
  revert j. induction idxs as [|i idxs IH]; intros j; cbn [updateResults];
    [constructor|].
  apply converges_bind; [apply converges_assignTranslated|]. intros _.
  apply converges_bind; [|intros _; apply IH].
  unfold notify. destruct cb; [|constructor].
  constructor. intros [|]; repeat constructor.
Qed.

Lemma converges_markEmpty idxs : converges (markEmpty idxs).
Proof.
  induction idxs as [|i idxs IH]; cbn [markEmpty]; [constructor|].
  apply converges_bind; [apply converges_assignTranslated|]. by intros _.
Qed.

Lemma converges_attempt config cb lang b : converges (attempt config cb lang b).
Proof.
  unfold attempt.
  apply converges_bind; [apply converges_translateBatch|]. intros l.
  apply converges_bind; [|intros _; apply converges_updateResults].
  unfold verifyContent. destruct (List.find _ _); constructor.
Qed.

Lemma converges_retryLoop config cb lang b fuel retryCount :
  (1 <= fuel)%nat ->
  (fuel + retryCount = S maxRetries)%nat ->
  converges (retryLoop fuel config cb lang b retryCount).
Proof.
  revert retryCount.
  induction fuel as [|fuel IH]; intros retryCount Hpos Hsum; [lia|].
  cbn [retryLoop]. constructor. intros [|]; [constructor|].
  apply converges_try_catch; [apply converges_attempt|].
  intros e. destruct (isAbort e); [constructor|].
  destruct (maxRetries <? S retryCount)%nat eqn:Hmax.
  - apply converges_markEmpty.
  - apply Nat.ltb_ge in Hmax. constructor.
    apply IH; unfold maxRetries in *; lia.
Qed.

(** [processBatch] never reaches [Diverge]: 21 rounds are all its loop
    can make. *)
Lemma converges_processBatch config cb lang b :
  converges (processBatch config cb lang b).
Proof.
  unfold processBatch. constructor. intros [|]; [constructor|].
  apply converges_retryLoop; unfold maxRetries; lia.
Qed.

End Converges.

(** ** A service that is down *)

Section Down.
Context `{Runtime}.
Variable c : Call.

Lemma blank_bind {A B} (R1 : A -> Prop) (R : B -> Prop) p (f : A -> Async B) :
  blank R1 p -> (forall a, R1 a -> blank R (f a)) -> blank R (bind p f).
Proof.
  intros Hp Hf. induction Hp; cbn [bind]; try (by constructor). by apply Hf.
Qed.

Lemma blank_try_catch {A} (R : A -> Prop) p (h : JsError -> Async A) :
  blank R p -> (forall e, blank R (h e)) -> blank R (try_catch p h).
Proof.
  intros Hp Hh. induction Hp; cbn [try_catch]; try (by constructor). apply Hh.
Qed.

Lemma blank_translateText config t lang :
  blank (fun _ => False) (translateText config t lang).
Proof. constructor. intros e. constructor. Qed.

Lemma blank_translateBatch config ts lang :
  blank (fun l => l = []) (translateBatch config ts lang).
Proof.
  destruct ts as [|t [|t2 ts]]; cbn [translateBatch].
  - by constructor.
  - eapply blank_bind; [apply blank_translateText|]. by intros r [].
  - constructor. intros e. constructor.
Qed.

Lemma blank_assignTranslated i :
  blank (fun _ => True) (assignTranslated i []).
Proof. constructor; [done|]. intros [|]; by constructor. Qed.

Lemma blank_updateResults cb j idxs :
  blank (fun _ => True) (updateResults cb [] j idxs).
Proof.
  revert j. induction idxs as [|i idxs IH]; intros j; cbn [updateResults];
    [by constructor|].
  replace (nth j [] []) with (@nil N) by by destruct j.
  eapply blank_bind; [apply blank_assignTranslated|]. intros _ _.
  eapply blank_bind with (R1 := fun _ => True); [|intros _ _; apply IH].
  unfold notify. destruct cb; [|by constructor].
  constructor. intros [|]; repeat constructor.
Qed.

Lemma blank_markEmpty idxs : blank (fun _ => True) (markEmpty idxs).
Proof.
  induction idxs as [|i idxs IH]; cbn [markEmpty]; [by constructor|].
  eapply blank_bind; [apply blank_assignTranslated|]. by intros _ _.
Qed.

Lemma blank_attempt config cb lang b :
  blank (fun _ => True) (attempt config cb lang b).
Proof.
  unfold attempt.
  eapply blank_bind; [apply blank_translateBatch|]. intros l ->.
  cbn. apply blank_updateResults.
Qed.

Lemma blank_retryLoop config cb lang b fuel retryCount :
  blank (fun _ => True) (retryLoop fuel config cb lang b retryCount).
Proof.
  revert retryCount.
  induction fuel as [|fuel IH]; intros retryCount; cbn [retryLoop];
    [constructor|].
  constructor. intros [|]; [constructor|].
  apply blank_try_catch; [apply blank_attempt|].
  intros e. destruct (isAbort e); [constructor|].
  destruct (maxRetries <? S retryCount)%nat; [apply blank_markEmpty|].
  constructor. apply IH.
Qed.

Lemma blank_processBatch config cb lang b :
  blank (fun _ => True) (processBatch config cb lang b).
Proof.
  unfold processBatch. constructor. intros [|]; [by constructor|].
  apply blank_retryLoop.
Qed.

Lemma advance_blank p w :
  blank (fun _ => True) p ->
  Forall (fun r => translated r = []) (results w) ->
  Forall (fun r => translated r = []) (results (advance p w).1)
  /\ blankStatus (advance p w).2.
Proof.
  intros Hp. revert w.
  induction Hp as [a _|e|req k Hk _|ms k Hk _|k _ IH|i t k -> _ IH|i t k _ IH|];
    intros w Hw; cbn [advance fst snd]; try done.
  - by apply IH.
  - destruct (setTranslated i [] (results w)) as [rs|] eqn:Hset; [|by apply IH].
    apply IH. cbn [results].
    unfold setTranslated in Hset. destruct (results w !! i); [|done].
    injection Hset as <-. by apply Forall_insert.
  - by apply IH.
Qed.

Lemma setStatus_Forall (P : nat * TaskStatus -> Prop) tid st a :
  Forall P a -> (forall i, P (i, st)) -> Forall P (setStatus tid st a).
Proof.
  intros Ha Hst. induction Ha as [|[i old] a Hi Ha IH]; cbn [setStatus]; [done|].
  destruct (i =? tid)%nat; by constructor.
Qed.

Lemma splice_Forall (P : nat * TaskStatus -> Prop) tid a :
  Forall P a -> Forall P (splice tid a).
Proof.
  induction 1 as [|[i old] a Hi Ha IH]; cbn [splice]; [done|].
  destruct (i =? tid)%nat; [done|]. by constructor.
Qed.

Lemma statusOf_Forall (P : nat * TaskStatus -> Prop) tid st a :
  Forall P a -> statusOf tid a = Some st -> exists i, P (i, st).
Proof.
  induction 1 as [|[i old] a Hi Ha IH]; cbn [statusOf]; [done|].
  destruct (i =? tid)%nat; [|done]. intros [= ->]. by exists i.
Qed.

Lemma step_untranslated ev m m' :
  untranslated m -> rejecting ev -> step c ev m = Some m' -> untranslated m'.
Proof.
  intros [Hres Hact] Hev.
  intros [[_ Hmain]|[(tid & p & Hp & ->)|[(tid & _ & _ & Hw & _ & Ha & _)
                     |(_ & Hres' & _ & _ & _ & Ha & _)]]]%step_inv.
  - apply mainStep_inv in Hmain
      as [(Hw & _ & Ha & _)|(b & rest & _ & _ & _ & Hw & _ & Ha & _)];
      unfold untranslated; rewrite Hw, Ha; [done|].
    destruct (advance_blank _ (world m)
                (blank_processBatch (config c) (onParagraphTranslated c)
                                    (targetLang c) b) Hres) as [Hres' Hst].
    split; [done|]. apply Forall_app. split; [done|]. by apply Forall_singleton.
  - destruct (resume_fields tid p m) as (Hw & _ & Ha & _).
    assert (Hblank : blank (fun _ => True) p).
    { destruct Hp as [(r & k & -> & Hst & ->)|(-> & Hst)];
        destruct (statusOf_Forall _ _ _ _ Hact Hst) as [i Hk]; cbn in Hk.
      - destruct r as [raw|e]; [done|]. apply Hk.
      - done. }
    destruct (advance_blank p (world m) Hblank Hres) as [Hres' Hst'].
    unfold untranslated. rewrite Hw, Ha. split; [done|].
    by apply setStatus_Forall.
  - unfold untranslated. rewrite Hw, Ha. split; [done|]. by apply splice_Forall.
  - unfold untranslated. by rewrite Hres', Ha.
Qed.

Lemma untranslated_start ab : untranslated (start c ab).
Proof.
  split; cbn; [|constructor].
  apply Forall_map. by apply Forall_true.
Qed.

Lemma all_untranslated rs ps :
  map original rs = ps ->
  Forall (fun r => translated r = []) rs ->
  rs = map (fun p => mkResult p []) ps.
Proof.
  intros <- Hall. induction Hall as [|[o t] rs Ht _ IH]; cbn; [done|].
  cbn in Ht. subst t. by rewrite <- IH.
Qed.

Lemma run_invariant (P : Machine -> Prop) oracle fuel m :
  (forall m ev m',
      P m -> nextEvent oracle m = Some ev -> step c ev m = Some m' -> P m') ->
  P m -> P (run c oracle fuel m).
Proof.
  intros Hstep. revert m.
  induction fuel as [|fuel IH]; intros m Hm; cbn [run]; [done|].
  destruct (nextEvent oracle m) as [ev|] eqn:Hev; [|done].
  destruct (step c ev m) as [m'|] eqn:Hm'; [|done].
  apply IH. by eapply Hstep.
Qed.

Lemma nextEvent_rejecting oracle m ev :
  (forall m tid, exists e, oracle m tid = Rejected e) ->
  nextEvent oracle m = Some ev -> rejecting ev.
Proof.
  intros Hor. unfold nextEvent.
  assert (Hmove : forall a, firstMove oracle m a = Some ev -> rejecting ev).
  { induction a as [|[tid st] a IH]; cbn [firstMove]; [done|].
    destruct st; try done; intros [= <-]; try done.
    cbn. by destruct (Hor m tid) as [e ->]. }
  destruct (pc m); try done; try apply Hmove; by intros [= <-].
Qed.

(** With the service down, what a call that is not cancelled returns is
    the preallocated container, every translation empty. *)
Lemma run_down oracle :
  0 < concurrencyLimit c ->
  (forall m tid, exists e, oracle m tid = Rejected e /\ isAbort e = false) ->
  translateTextByParagraph c false oracle
  = Value (map (fun p => mkResult p []) (paragraphs c)).
Proof.
  intros Hlimit Hor. unfold translateTextByParagraph.
  assert (Hquiet : forall m tid, quiet (oracle m tid)).
  { intros m tid. by destruct (Hor m tid) as (e & -> & He). }
  destruct (run_returns c oracle Hlimit Hquiet) as (rs & Hout & Ho).
  rewrite Hout. f_equal. apply all_untranslated; [done|].
  assert (Hun : untranslated (run c oracle (runBound c) (start c false))).
  { apply run_invariant; [|apply untranslated_start].
    intros m ev m' Hm Hev Hstep. eapply step_untranslated; [done| |done].
    eapply nextEvent_rejecting; [|done].
    intros m0 tid. destruct (Hor m0 tid) as (e & -> & _). by exists e. }
  destruct Hun as [Hres _]. unfold outcome in Hout.
  destruct (pc _); try done. by injection Hout as <-.
Qed.

End Down.

(** ** The claims about the run *)

(** C1: in every state of every run the result container has one entry
    per paragraph, with that paragraph as its [original]: no step adds
    or removes an entry or changes an [original]; what the call returns
    is this container; and a call that is not cancelled, with a positive
    concurrency and a quiet service, does return it. *)
Theorem results_mirror_paragraphs `{Runtime} (c : Call) :
  (forall ab m,
      reachable c ab m ->
      map original (results (world m)) = paragraphs c
      /\ length (results (world m)) = length (paragraphs c)
      /\ forall rs, outcome m = Value rs -> map original rs = paragraphs c)
  /\ (forall ev m m',
        step c ev m = Some m' ->
        map original (results (world m')) = map original (results (world m)))
  /\ (forall oracle,
        0 < concurrencyLimit c ->
        (forall m tid, quiet (oracle m tid)) ->
        exists rs,
          translateTextByParagraph c false oracle = Value rs
          /\ map original rs = paragraphs c
          /\ length rs = length (paragraphs c)).
Proof.
  split_and!.
  - intros ab m Hm. pose proof (reachable_originals c ab m Hm) as Ho.
    split_and!; [done| |].
    + by rewrite <- (length_map original), Ho.
    + unfold outcome. intros rs. destruct (pc m); try done. by intros [= <-].
  - apply step_originals.
  - intros oracle Hlimit Hor.
    destruct (run_returns c oracle Hlimit Hor) as (rs & Hout & Ho).
    exists rs. split_and!; [done|done|].
    by rewrite <- (length_map original), Ho.
Qed.

Lemma results_mirror_paragraphs_witness :
  exists rs,
    translateTextByParagraph (H:=plainRuntime) exampleCall false serviceDown
    = Value rs
    /\ map original rs = [js "Hello"]
    /\ length rs = 1%nat.
Proof.
  destruct (results_mirror_paragraphs (H:=plainRuntime) exampleCall)
    as (_ & _ & Hrun).
  apply (Hrun serviceDown); [reflexivity|].
  intros m tid. reflexivity.
Defined.

(** C4 (as stated, refuted): with the signal aborted before the call,
    the promise is fulfilled with the preallocated container, the very
    value a call that was never cancelled gives when its batch exhausts
    its retries. *)
Lemma cancelled_before_start_returns_normally :
  translateTextByParagraph (H:=plainRuntime) exampleCall true serviceDown
  = Value [mkResult (js "Hello") []]
  /\ translateTextByParagraph (H:=plainRuntime) exampleCall false serviceDown
     = Value [mkResult (js "Hello") []].
Proof. split; vm_compute; reflexivity. Qed.

(** C4 (amended): with the signal aborted before the call, no request is
    ever made and no batch is started, and the first step of the body
    fulfils the promise with the preallocated container, every
    translation empty; the call does not throw. *)
Theorem cancelled_before_start `{Runtime} (c : Call) :
  (forall oracle,
      translateTextByParagraph c true oracle
      = Value (map (fun p => mkResult p []) (paragraphs c)))
  /\ (forall m,
        reachable c true m ->
        requests (world m) = []
        /\ activePromises m = []
        /\ results (world m) = map (fun p => mkResult p []) (paragraphs c)
        /\ forall e, outcome m <> Exception e).
Proof.
  assert (Hfirst : exists m1,
             step c EvMain (start c true) = Some m1
             /\ pc m1 = Returned /\ world m1 = world (start c true)
             /\ activePromises m1 = []).
  { cbn [step]. unfold mainStep, start; cbn [pc queue world aborted activePromises].
    destruct (createBatches _ _ _); eexists; (split; [reflexivity|]);
      by split_and!. }
  destruct Hfirst as (m1 & Hstep & Hret & Hw & Hact).
  split.
  - intros oracle.
    assert (Hstop : forall fuel, run c oracle fuel m1 = m1).
    { intros [|f]; cbn [run]; [done|]. unfold nextEvent. by rewrite Hret. }
    assert (Hrun : forall fuel, run c oracle (S fuel) (start c true) = m1).
    { intros fuel. cbn [run]. unfold nextEvent at 1.
      cbn [start pc]. fold (start c true). rewrite Hstep. apply Hstop. }
    unfold translateTextByParagraph, runBound. cbn [Nat.add].
    rewrite Hrun. unfold outcome. by rewrite Hret, Hw.
  - intros m [evs Hevs].
    cut (requests (world m) = []
         /\ activePromises m = []
         /\ results (world m) = map (fun p => mkResult p []) (paragraphs c)
         /\ aborted (world m) = true
         /\ (pc m = AtFor \/ pc m = Returned)).
    { intros (Hreq & Hact' & Hres & _ & Hpc). split_and!; try done.
      intros e. unfold outcome. by destruct Hpc as [->| ->]. }
    eapply (steps_invariant c
      (fun m => requests (world m) = []
                /\ activePromises m = []
                /\ results (world m)
                   = map (fun p => mkResult p []) (paragraphs c)
                /\ aborted (world m) = true
                /\ (pc m = AtFor \/ pc m = Returned)));
      [| |exact Hevs].
    + clear. intros ev m1 m2 (Hreq & Hact & Hres & Hab & Hpc) Hstep.
      apply step_inv in Hstep
        as [[_ Hmain]|[(tid & p & Hp & ->)|[(tid & _ & Hst & _)
           |(_ & Hres' & Hab' & Hreq' & _ & Ha & _ & Hp)]]].
      * apply mainStep_inv in Hmain
          as [(Hw & Hqu & Ha & Hn & Hcase)
             |(b & rest & Hat & _)].
        -- rewrite Hw, Ha. split_and!; try done.
           destruct Hcase as [(_ & _ & ->)|[(_ & _ & Hf & _)|(Hat & _)]].
           ++ rewrite Hact. by right.
           ++ congruence.
           ++ destruct Hpc; congruence.
        -- destruct Hpc; congruence.
      * rewrite Hact in Hp. by destruct Hp as [(? & ? & _ & ? & _)|(_ & ?)].
      * by rewrite Hact in Hst.
      * rewrite Hres', Hab', Hreq', Ha, Hp. by split_and!.
    + cbn. split_and!; try done. by left.
Qed.

Lemma cancelled_before_start_witness :
  requests (world (run (H:=plainRuntime) exampleCall serviceDown 5
                       (start exampleCall true))) = []
  /\ translateTextByParagraph (H:=plainRuntime) exampleCall true serviceDown
     = Value [mkResult (js "Hello") []].
Proof.
  destruct (cancelled_before_start (H:=plainRuntime) exampleCall) as [Hrun Hall].
  split.
  - apply Hall, run_reachable.
  - apply (Hrun serviceDown).
Defined.




(** With a negative [concurrency] the body waits in [Promise.race] of an
    empty array: nothing is started and the promise stays pending. *)
Example negative_concurrency_hangs :
  let c := mkCall (mkConfig [] [] [] (Some (-1)) None None None None)
                  [js "a"] true None in
  let m := run (H:=plainRuntime) c serviceDown (runBound c) (start c false) in
  pc m = InRace [] /\ inFlightCount m = 0%nat
  /\ nextEvent serviceDown m = None /\ outcome m = Pending.
Proof. vm_compute. by split_and!. Qed.

(** ** A batch that keeps failing *)

Section Degraded.
Context `{Runtime}.
Variables (config : AiConfig) (cb : bool) (lang : TargetLang) (b : Batch).

Lemma runTask_markEmpty idxs rs w :
  Forall (fun i => i < length (results w))%nat idxs ->
  exists w',
    runTask (markEmpty idxs) rs w = Some (w', Done tt, rs)
    /\ aborted w' = aborted w
    /\ requests w' = requests w
    /\ reported w' = reported w
    /\ length (results w') = length (results w)
    /\ (forall i, i ∈ idxs ->
          exists r, results w' !! i = Some r /\ translated r = [])
    /\ (forall j, j ∉ idxs -> results w' !! j = results w !! j).
Proof.
  revert w. induction idxs as [|i idxs IH]; intros w Hidx; cbn [markEmpty].
  - exists w. cbn. split_and!; try done. by intros i ?%elem_of_nil.
  - apply Forall_cons in Hidx as [Hi Hidx].
    rewrite runTask_bind. unfold assignTranslated. cbn [runTask].
    destruct (setTranslated_in_range i [] (results w) Hi) as [rs1 Hset].
    rewrite Hset. cbn [runTask].
    pose proof (setTranslated_shape _ _ _ _ Hset) as [_ Hlen1].
    set (w1 := mkWorld rs1 (aborted w) (requests w) (reported w)).
    destruct (IH w1) as (w' & Hrun & Hab & Hreq & Hrep & Hlen & Hin & Hout).
    { cbn. by rewrite Hlen1. }
    exists w'. split_and!; try done.
    + cbn in Hlen. by rewrite Hlen.
    + intros j [->|Hj]%elem_of_cons; [|by apply Hin].
      destruct (decide (i ∈ idxs)) as [Hmem|Hnot]; [by apply Hin|].
      rewrite (Hout i Hnot). cbn [results w1].
      rewrite (setTranslated_lookup _ _ _ _ i Hset).
      rewrite decide_True by done.
      destruct (lookup_lt_is_Some_2 (results w) i Hi) as [r ->].
      cbn. by eexists.
    + intros j [Hne Hj]%not_elem_of_cons. rewrite (Hout j Hj). cbn [results w1].
      rewrite (setTranslated_lookup _ _ _ _ j Hset).
      by rewrite decide_False by done.
Qed.

(** After [k] failed attempts that bring the retry count to 21, the loop
    is at the "mark as empty" branch. *)
Lemma retryLoop_exhausted k fuel retryCount rs w w' rest :
  aborted w = false ->
  failedAttempts (attempt config cb lang b) k rs w = Some (w', rest) ->
  (1 <= k <= fuel)%nat ->
  (retryCount + k = S maxRetries)%nat ->
  runTask (retryLoop fuel config cb lang b retryCount) rs w
  = runTask (markEmpty (indices b)) rest w'.
Proof.
  revert fuel retryCount rs w.
  induction k as [|k IH]; intros fuel retryCount rs w Hab Hfail Hk Hsum; [lia|].
  destruct fuel as [|fuel]; [lia|].
  cbn [retryLoop runTask]. rewrite Hab. rewrite runTask_try_catch.
  cbn [failedAttempts] in Hfail.
  destruct (runTask (attempt config cb lang b) rs w)
    as [[[w1 [[]|e|]] rest1]|] eqn:Hrun; try done.
  destruct (isAbort e) eqn:He; [done|].
  destruct k as [|k].
  - cbn [failedAttempts] in Hfail. injection Hfail as <- <-.
    replace (maxRetries <? S retryCount)%nat with true; [done|].
    symmetry. apply Nat.ltb_lt. lia.
  - replace (maxRetries <? S retryCount)%nat with false
      by (symmetry; apply Nat.ltb_ge; lia).
    cbn [runTask]. apply IH; [|done|lia|lia].
    apply runTask_shape in Hrun as [_ ->]. done.
Qed.

Lemma failedAttempts_shape body k rs w w' rest :
  failedAttempts body k rs w = Some (w', rest) ->
  map original (results w') = map original (results w)
  /\ aborted w' = aborted w.
Proof.
  revert rs w. induction k as [|k IH]; intros rs w; cbn [failedAttempts].
  - by intros [= <- <-].
  - destruct (runTask body rs w) as [[[w1 [[]|e|]] rest1]|] eqn:Hrun; try done.
    destruct (isAbort e); [done|]. intros Hk.
    apply IH in Hk as [-> ->]. by eapply runTask_shape.
Qed.

Lemma processBatch_degrades rs w w' rest :
  aborted w = false ->
  Forall (fun i => i < length (results w))%nat (indices b) ->
  failedAttempts (attempt config cb lang b) (S maxRetries) rs w
    = Some (w', rest) ->
  exists w'',
    runTask (processBatch config cb lang b) rs w = Some (w'', Done tt, rest)
    /\ (forall i, i ∈ indices b ->
          exists r, results w'' !! i = Some r /\ translated r = [])
    /\ map original (results w'') = map original (results w)
    /\ requests w'' = requests w'.
Proof.
  intros Hab Hidx Hfail.
  destruct (failedAttempts_shape _ _ _ _ _ _ Hfail) as [Ho Hab'].
  assert (Hlen : length (results w') = length (results w)).
  { by rewrite <- (length_map original), Ho, length_map. }
  destruct (runTask_markEmpty (indices b) rest w')
    as (w'' & Hrun & _ & Hreq & _ & _ & Hin & _).
  { by rewrite Hlen. }
  exists w''. split_and!; try done.
  - unfold processBatch. cbn [runTask]. rewrite Hab.
    rewrite (retryLoop_exhausted (S maxRetries) _ 0 rs w w' rest); try done.
    unfold maxRetries; lia.
  - apply runTask_shape in Hrun as [-> _]. done.
Qed.

End Degraded.

(** Errors that are retried: a batch whose 21 attempts in a row fail with
    errors that the [catch] block does not take for a cancellation ends
    normally, with the empty string as the translation of
    each of its fragments and every [original] as it was; a call that is
    not cancelled and is served quietly, its concurrency positive,
    returns the whole container; and if the service rejects every
    request, with errors that are retried, what the call returns is the
    container with every translation empty. *)
Theorem exhausted_batch_degrades `{Runtime} (c : Call) :
  (forall b rs w w' rest,
      aborted w = false ->
      Forall (fun i => i < length (results w))%nat (indices b) ->
      failedAttempts
        (attempt (config c) (onParagraphTranslated c) (targetLang c) b)
        (S maxRetries) rs w = Some (w', rest) ->
      exists w'',
        runTask (processBatch (config c) (onParagraphTranslated c)
                              (targetLang c) b) rs w
        = Some (w'', Done tt, rest)
        /\ (forall i, i ∈ indices b ->
              exists r, results w'' !! i = Some r /\ translated r = [])
        /\ map original (results w'') = map original (results w))
  /\ (forall oracle,
        0 < concurrencyLimit c ->
        (forall m tid, quiet (oracle m tid)) ->
        exists rs,
          translateTextByParagraph c false oracle = Value rs
          /\ map original rs = paragraphs c)
  /\ (forall oracle,
        0 < concurrencyLimit c ->
        (forall m tid,
            exists e, oracle m tid = Rejected e /\ isAbort e = false) ->
        translateTextByParagraph c false oracle
        = Value (map (fun p => mkResult p []) (paragraphs c))).
Proof.
  split_and!.
  - intros b rs w w' rest Hab Hidx Hfail.
    destruct (processBatch_degrades _ _ _ _ rs w w' rest Hab Hidx Hfail)
      as (w'' & Hrun & Hempty & Ho & _).
    by exists w''.
  - apply run_returns.
  - apply run_down.
Qed.

Lemma exhausted_batch_degrades_witness :
  let down := Rejected (Error (js "Chat completion failed: 500")) in
  let b := mkBatch [0%nat] [js "Hello"] in
  (exists w'',
      runTask (processBatch (H:=plainRuntime) exampleConfig true zh b)
              (replicate 21 down) (world (start exampleCall false))
      = Some (w'', Done tt, [])
      /\ (forall i, i ∈ indices b ->
            exists r, results w'' !! i = Some r /\ translated r = [])
      /\ map original (results w'') = [js "Hello"])
  /\ translateTextByParagraph (H:=plainRuntime) exampleCall false serviceDown
     = Value [mkResult (js "Hello") []].
Proof.
  intros down b.
  destruct (exhausted_batch_degrades (H:=plainRuntime) exampleCall)
    as (Htask & _ & Hdown).
  split.
  - eapply (Htask b (replicate 21 down) (world (start exampleCall false))).
    + reflexivity.
    + repeat constructor.
    + vm_compute. reflexivity.
  - apply (Hdown serviceDown); [reflexivity|].
    intros m tid. eexists. split; reflexivity.
Defined.

(** The same at the level of the run: with the service down, two
    paragraphs and one request at a time, both batches give up and the
    call returns both entries with empty translations, after 42
    requests. *)
Example degraded_run_example :
  let c := mkCall (mkConfig [] [] [] (Some 1) None None None None)
                  [js "Hello"; js "World"] true None in
  let m := run (H:=plainRuntime) c serviceDown (runBound c) (start c false) in
  translateTextByParagraph (H:=plainRuntime) c false serviceDown
  = Value [mkResult (js "Hello") []; mkResult (js "World") []]
  /\ length (requests (world m)) = 42%nat.
Proof. split; vm_compute; reflexivity. Qed.

(** C3, at an error of the service whose text mentions "Abort": the
    service answers every request with status 409 and the body "Aborted",
    and the signal is never aborted.  [chatCompletion] throws an [Error]
    with the status and the body in its message; the [catch] block of
    [processBatch] takes it for a cancellation and throws it again at the
    first attempt.  The batch is not retried (twenty of the twenty-one
    answers at hand are never asked for), it does not end in the degraded
    state, and the call rejects instead of returning the container. *)
Theorem error_text_mentioning_Abort_is_not_retried :
  let e := Error (js "Chat completion failed: 409 Aborted") in
  let w := world (start exampleCall false) in
  let refusing : Oracle := fun _ _ => Rejected e in
  name e <> js "AbortError"
  /\ aborted w = false
  /\ runTask (processBatch (H:=plainRuntime) exampleConfig true zh
                           (mkBatch [0%nat] [js "Hello"]))
             (replicate 21 (Rejected e)) w
     = Some (send (translateRequest (H:=plainRuntime) exampleConfig (js "Hello")) w,
             Crashed e, replicate 20 (Rejected e))
  /\ failedAttempts
       (attempt (H:=plainRuntime) exampleConfig true zh
                (mkBatch [0%nat] [js "Hello"]))
       (S maxRetries) (replicate 21 (Rejected e)) w = None
  /\ translateTextByParagraph (H:=plainRuntime) exampleCall false refusing
     = Exception e.
Proof.
  split_and!; try (vm_compute; reflexivity).
  vm_compute. discriminate.
Qed.

(** ** Content failures *)

Section ContentFailure.
Context `{Runtime}.
Variables (config : AiConfig) (cb : bool) (lang : TargetLang) (b : Batch).

Lemma translateSequential_results ts rs w w' o rest :
  runTask (translateSequential config ts lang) rs w = Some (w', o, rest) ->
  results w' = results w.
Proof.
  revert rs w w' o rest.
  induction ts as [|t ts IH]; intros rs w w' o rest; cbn [translateSequential].
  - cbn. by intros [= <- <- <-].
  - rewrite runTask_bind, runTask_translateText.
    destruct rs as [|[r|e] rs]; try done; [|by intros [= <- <- <-]].
    rewrite runTask_bind.
    destruct (runTask (translateSequential config ts lang) rs _)
      as [[[w1 [l1|e1|]] rest1]|] eqn:Hrec; try done;
      intros [= <- <- <-]; by apply IH in Hrec.
Qed.

Lemma translateBatch_results ts rs w w' o rest :
  runTask (translateBatch config ts lang) rs w = Some (w', o, rest) ->
  results w' = results w.
Proof.
  destruct ts as [|t [|t2 ts]]; cbn [translateBatch].
  - cbn. by intros [= <- <- <-].
  - rewrite runTask_bind, runTask_translateText.
    destruct rs as [|[r|e] rs]; try done; by intros [= <- <- <-].
  - rewrite runTask_bind. unfold chatCompletion. cbn [runTask].
    destruct rs as [|[raw|e] rs]; try done; cbn [runTask];
      [|by intros [= <- <- <-]].
    destruct (parseBatch _ _) as [tr|] eqn:Hparse.
    + cbn. by intros [= <- <- <-].
    + intros Hseq. by apply translateSequential_results in Hseq.
Qed.

(** An attempt whose texts carry the failure marker throws before it
    writes anything: the container is as it was. *)
Lemma attempt_fails_on_marker rs w w1 l rest :
  runTask (translateBatch config (texts b) lang) rs w = Some (w1, Done l, rest) ->
  (exists t, t ∈ l /\ failureMarker t = true) ->
  exists t,
    t ∈ l /\ failureMarker t = true
    /\ runTask (attempt config cb lang b) rs w
       = Some (w1, Crashed (Error (js "Content verification failed: " ++ t)),
               rest)
    /\ results w1 = results w.
Proof.
  intros Hrun (t0 & Hin0 & Hm0).
  destruct (List.find failureMarker l) as [t|] eqn:Hfind.
  - exists t. pose proof (find_some _ _ Hfind) as [Hin Hm].
    split_and!; [by apply list_elem_of_In|done| |].
    + unfold attempt. rewrite runTask_bind, Hrun, runTask_bind.
      unfold verifyContent. by rewrite Hfind.
    + by eapply translateBatch_results.
  - apply list_elem_of_In in Hin0.
    pose proof (find_none _ _ Hfind _ Hin0). congruence.
Qed.

(** If the marked text does not contain "Abort", the failure counts as a
    retry: the loop waits and tries again, or gives up after the 21st. *)
Lemma marker_without_Abort_is_retried fuel retryCount rs w w1 l rest :
  aborted w = false ->
  runTask (translateBatch config (texts b) lang) rs w = Some (w1, Done l, rest) ->
  (exists t, t ∈ l /\ failureMarker t = true) ->
  Forall noAbort l ->
  results w1 = results w
  /\ runTask (retryLoop (S fuel) config cb lang b retryCount) rs w
     = runTask (if (maxRetries <? S retryCount)%nat
                then markEmpty (indices b)
                else retryLoop fuel config cb lang b (S retryCount))
               rest w1.
Proof.
  intros Hab Hrun Hmark Hquiet.
  destruct (attempt_fails_on_marker rs w w1 l rest Hrun Hmark)
    as (t & Hin & _ & Hattempt & Hres).
  split; [done|].
  cbn [retryLoop runTask]. rewrite Hab, runTask_try_catch, Hattempt.
  rewrite Forall_forall in Hquiet.
  rewrite (benign_content_error t (Hquiet t Hin)).
  by destruct (maxRetries <? S retryCount)%nat.
Qed.

End ContentFailure.

(** The unit test of the repository: "Translation Failed" once, then
    "Success". *)
Example marker_triggers_retry_example :
  translateTextByParagraph (H:=plainRuntime) exampleCall false
    (scripted [Resolved (js "Translation Failed"); Resolved (js "Success")])
  = Value [mkResult (js "Hello") (js "Success")].
Proof. vm_compute. reflexivity. Qed.

(** C7, at a text that carries the failure marker and mentions "Abort":
    the error thrown for the content failure is taken for a cancellation
    by the [catch] block and thrown again; the attempt is not retried
    (the second completion is never asked for) and the call rejects. *)
Theorem marked_text_mentioning_Abort_is_not_retried :
  let reply := js "Translation failed: Aborted by upstream" in
  let w := world (start exampleCall false) in
  failureMarker reply = true
  /\ runTask (processBatch (H:=plainRuntime) exampleConfig true zh
                           (mkBatch [0%nat] [js "Hello"]))
             [Resolved reply; Resolved (js "Success")] w
     = Some (send (translateRequest (H:=plainRuntime) exampleConfig (js "Hello")) w,
             Crashed (Error (js "Content verification failed: " ++ reply)),
             [Resolved (js "Success")])
  /\ translateTextByParagraph (H:=plainRuntime) exampleCall false
       (scripted [Resolved reply; Resolved (js "Success")])
     = Exception (Error (js "Content verification failed: " ++ reply)).
Proof. split_and!; vm_compute; reflexivity. Qed.

(** ** Realignment *)

Import ArticleAi.

Lemma countMatches_le len a b : (countMatches len a b <= len)%nat.
Proof.
  revert a b. induction len as [|len IH]; intros a b; cbn [countMatches]; [lia|].
  destruct a as [|x a], b as [|y b]; try lia.
  specialize (IH a b). destruct (x =? y)%N; lia.
Qed.

Lemma countMatches_self len a :
  (len <= length a)%nat -> countMatches len a a = len.
Proof.
  revert a. induction len as [|len IH]; intros a Hlen; cbn [countMatches]; [done|].
  destruct a as [|x a]; [cbn in Hlen; lia|].
  rewrite N.eqb_refl, IH; [lia|cbn in Hlen; lia].
Qed.

Lemma similarity_self t :
  strip t <> [] -> (calculateTextSimilarity t t == 1)%Q.
Proof.
  intros Hne. unfold calculateTextSimilarity.
  set (len := Nat.min (Nat.min (length (strip t)) (length (strip t))) 100).
  assert (Hpos : (0 < len)%nat).
  { unfold len. destruct (strip t); [done|cbn [length]; lia]. }
  destruct (Nat.eqb_spec len 0) as [|_]; [lia|].
  rewrite countMatches_self by (unfold len; lia).
  unfold Qeq; cbn [Qnum Qden].
  rewrite Z.mul_1_r, Z.mul_1_l.
  by rewrite <- positive_nat_Z, Nat2Pos.id by lia.
Qed.

Lemma similarity_le_1 a b : (calculateTextSimilarity a b <= 1)%Q.
Proof.
  unfold calculateTextSimilarity.
  set (len := Nat.min (Nat.min (length (strip a)) (length (strip b))) 100).
  destruct (Nat.eqb_spec len 0) as [|Hne]; [done|].
  pose proof (countMatches_le len (strip a) (strip b)).
  unfold Qle; cbn [Qnum Qden]. rewrite Z.mul_1_r, Z.mul_1_l.
  rewrite <- positive_nat_Z, Nat2Pos.id by lia. lia.
Qed.

Lemma similarity_nonneg a b : (0 <= calculateTextSimilarity a b)%Q.
Proof.
  unfold calculateTextSimilarity.
  destruct (_ =? _)%nat; [done|].
  unfold Qle; cbn [Qnum Qden]. lia.
Qed.

Lemma similarity_blank_l a b :
  strip a = [] -> calculateTextSimilarity a b = 0%Q.
Proof. intros Ha. unfold calculateTextSimilarity. by rewrite Ha. Qed.

Lemma similarity_blank_r a b :
  strip b = [] -> calculateTextSimilarity a b = 0%Q.
Proof.
  intros Hb. unfold calculateTextSimilarity. rewrite Hb. cbn [length].
  by rewrite Nat.min_0_r.
Qed.

Lemma Qltb_false x y : Qltb x y = false <-> (y <= x)%Q.
Proof.
  unfold Qltb. rewrite negb_false_iff. apply Qle_bool_iff.
Qed.

Lemma Qltb_true x y : Qltb x y = true <-> (x < y)%Q.
Proof.
  unfold Qltb. rewrite negb_true_iff. split.
  - intros Hle. apply Qnot_le_lt. intros Hyx.
    apply Qle_bool_iff in Hyx. congruence.
  - intros Hlt. destruct (Qle_bool y x) eqn:Hle; [|done].
    apply Qle_bool_iff in Hle. by apply Qle_not_lt in Hle.
Qed.

Lemma scanTexts_app l1 l2 i used o best :
  scanTexts (l1 ++ l2) i used o best
  = scanTexts l2 (i + length l1) used o (scanTexts l1 i used o best).
Proof.
  revert i best. induction l1 as [|t l1 IH]; intros i best; cbn [app scanTexts length].
  - by rewrite Nat.add_0_r.
  - replace (i + S (length l1))%nat with (S i + length l1)%nat by lia.
    case_bool_decide; [apply IH|]. destruct (Qltb _ _); apply IH.
Qed.

(** Fragments that are claimed already, or score no better than the
    best so far, leave the best as it is. *)
Lemma scanTexts_keep texts i used o best :
  (forall k t, texts !! k = Some t ->
     (i + k)%nat ∈ used
     \/ Qltb (bestScore best) (calculateTextSimilarity t o) = false) ->
  scanTexts texts i used o best = best.
Proof.
  revert i. induction texts as [|t texts IH]; intros i Hall; cbn [scanTexts]; [done|].
  assert (Hrest : scanTexts texts (S i) used o best = best).
  { apply IH. intros k t' Hk.
    replace (S i + k)%nat with (i + S k)%nat by lia. by apply Hall. }
  case_bool_decide as Hin; [done|].
  destruct (Hall 0%nat t eq_refl) as [Hu| ->]; [|done].
  rewrite Nat.add_0_r in Hu. done.
Qed.


Lemma selfUsed_bounds i l j :
  j ∈ selfUsed i l -> (i <= j < i + length l)%nat.
Proof.
  revert i. induction l as [|t l IH]; intros i; cbn [selfUsed length].
  - by intros ?%elem_of_empty.
  - intros [Hj|Hj]%elem_of_union.
    + destruct (visible t); [|by apply elem_of_empty in Hj].
      apply elem_of_singleton in Hj. lia.
    + apply IH in Hj. lia.
Qed.

Lemma selfUsed_lookup i l k t :
  l !! k = Some t -> visible t = true -> (i + k)%nat ∈ selfUsed i l.
Proof.
  revert i k. induction l as [|t0 l IH]; intros i k; [done|].
  destruct k as [|k]; cbn [selfUsed].
  - intros [= ->] ->. rewrite Nat.add_0_r. apply elem_of_union_l.
    by apply elem_of_singleton.
  - intros Hk Hv. apply elem_of_union_r.
    replace (i + S k)%nat with (S i + k)%nat by lia. by apply IH.
Qed.

Lemma selfUsed_snoc i l t :
  selfUsed i (l ++ [t])
  = selfUsed i l ∪ (if visible t then {[(i + length l)%nat]} else ∅).
Proof.
  revert i. induction l as [|t0 l IH]; intros i; cbn [selfUsed app length].
  - rewrite Nat.add_0_r. by rewrite union_empty_l_L, union_empty_r_L.
  - rewrite IH. replace (S i + length l)%nat with (i + S (length l))%nat by lia.
    by rewrite (assoc_L (∪)).
Qed.

Lemma selfInserted_snoc i l t :
  selfInserted i (l ++ [t])
  = selfInserted i l
    ++ (if visible t then [InsertTranslation (i + length l) (translated t)]
        else []).
Proof.
  revert i. induction l as [|t0 l IH]; intros i; cbn [selfInserted app length].
  - by rewrite Nat.add_0_r, app_nil_r.
  - rewrite IH. replace (S i + length l)%nat with (i + S (length l))%nat by lia.
    by rewrite app_assoc.
Qed.

Lemma selfInserted_all_visible i l :
  Forall (fun t => visible t = true) l ->
  selfInserted i l
  = imap (fun k t => InsertTranslation (i + k) (translated t)) l.
Proof.
  intros Hall. revert i.
  induction Hall as [|t l Hv _ IH]; intros i; cbn [selfInserted imap]; [done|].
  rewrite Hv, IH, Nat.add_0_r. cbn [app]. f_equal.
  apply imap_ext. intros k x _. cbn. f_equal. lia.
Qed.

Lemma visible_false t : visible t = false -> strip (original t) = [].
Proof. unfold visible. by destruct (strip (original t)). Qed.

Lemma visible_true t : visible t = true -> strip (original t) <> [].
Proof. unfold visible. by destruct (strip (original t)). Qed.

(** The inner loop for pair [t], the pairs [pre] before it having been
    dealt with. *)
Lemma bestMatch_self pre t post :
  let texts := map original (pre ++ t :: post) in
  let best := bestMatch texts (selfUsed 0 pre) (original t) in
  if visible t
  then best = mkBest (Z.of_nat (length pre))
                     (calculateTextSimilarity (original t) (original t))
  else best = mkBest (-1) 0%Q.
Proof.
  cbn zeta. unfold bestMatch. rewrite map_app. cbn [map].
  rewrite scanTexts_app, length_map. cbn [Nat.add].
  rewrite (scanTexts_keep (map original pre)).
  2:{ intros k o Hk. cbn [Nat.add bestScore].
      apply list_lookup_fmap_Some in Hk as (p & -> & Hp).
      destruct (visible p) eqn:Hv.
      - left. by apply (selfUsed_lookup 0 pre k p).
      - right. by rewrite similarity_blank_l by by apply visible_false. }
  cbn [scanTexts].
  rewrite bool_decide_eq_false_2.
  2:{ intros Hin%selfUsed_bounds. cbn in Hin. lia. }
  destruct (visible t) eqn:Hv.
  - pose proof (similarity_self (original t) (visible_true t Hv)) as Hone.
    replace (Qltb _ _) with true.
    2:{ symmetry. apply Qltb_true. cbn [bestScore]. by rewrite Hone. }
    apply scanTexts_keep. intros k o Hk. right. cbn [bestScore].
    apply Qltb_false. rewrite Hone. apply similarity_le_1.
  - rewrite similarity_blank_r by by apply visible_false.
    cbn [bestScore]. change (Qltb 0 0) with false.
    apply scanTexts_keep. intros k o Hk. right. cbn [bestScore].
    by rewrite similarity_blank_r by by apply visible_false.
Qed.

Lemma matchPairs_self pre post :
  fold_left (matchPair (map original (pre ++ post))) pre (mkMatching ∅ [])
  = mkMatching (selfUsed 0 pre) (selfInserted 0 pre).
Proof.
  revert post. induction pre as [|t pre IH] using rev_ind; intros post; [done|].
  rewrite fold_left_app. cbn [fold_left].
  rewrite <- app_assoc. cbn [app]. rewrite IH.
  unfold matchPair. cbn [used executed].
  pose proof (bestMatch_self pre t post) as Hbest. cbn zeta in Hbest.
  rewrite selfUsed_snoc, selfInserted_snoc. cbn [Nat.add].
  destruct (visible t) eqn:Hv; rewrite Hbest; cbn [bestIdx bestScore].
  - pose proof (similarity_self (original t) (visible_true t Hv)) as Hone.
    replace (0 <=? Z.of_nat (length pre)) with true
      by (symmetry; apply Z.leb_le; lia).
    replace (Qle_bool _ _) with true.
    2:{ symmetry. apply Qle_bool_iff. by rewrite Hone. }
    cbn [andb]. by rewrite Nat2Z.id.
  - cbn. by rewrite union_empty_r_L, app_nil_r.
Qed.

Lemma matchPairs_take cached i :
  matchPairs (map original cached) (take i cached)
  = mkMatching (selfUsed 0 (take i cached)) (selfInserted 0 (take i cached)).
Proof.
  unfold matchPairs.
  pose proof (matchPairs_self (take i cached) (drop i cached)) as Hself.
  by rewrite take_drop in Hself.
Qed.

(** C9 (as stated, refuted): a pair whose original is markup only scores
    0 against itself and is matched to nothing; here the handler falls
    back to the global block. *)
Lemma markup_only_pair_is_not_matched :
  let cached := [mkResult (js "<br>") (js "x")] in
  calculateTextSimilarity (js "<br>") (js "<br>") = 0%Q
  /\ bestIdx (bestMatch (map original cached) ∅ (js "<br>")) = -1
  /\ injectCachedTranslations cached (map original cached)
     = [AppendGlobalTranslation (js "x"); SetTranslationVisibility true].
Proof. split_and!; vm_compute; reflexivity. Qed.

(** C9 (amended): matching a fragment list against itself assigns each
    pair whose original is not empty once the markup is stripped to its
    own fragment, with score 1, in order; a pair whose stripped original
    is empty is assigned to nothing. *)
Theorem realign_identical (cached : list TranslationResult) :
  let texts := map original cached in
  (forall i t,
      cached !! i = Some t ->
      let best := bestMatch texts (used (matchPairs texts (take i cached)))
                            (original t) in
      if visible t
      then bestIdx best = Z.of_nat i /\ (bestScore best == 1)%Q
      else bestIdx best = -1)
  /\ executed (matchPairs texts cached) = selfInserted 0 cached
  /\ (Forall (fun t => visible t = true) cached ->
      executed (matchPairs texts cached)
      = imap (fun i t => InsertTranslation i (translated t)) cached).
Proof.
  cbn zeta. split_and!.
  - intros i t Hi.
    pose proof (take_drop_middle cached i t Hi) as Hsplit.
    rewrite matchPairs_take. cbn [used].
    pose proof (bestMatch_self (take i cached) t (drop (S i) cached)) as Hbest.
    cbn zeta in Hbest. rewrite Hsplit in Hbest.
    assert (Hlen : length (take i cached) = i).
    { apply length_take_le. apply lookup_lt_Some in Hi. lia. }
    destruct (visible t) eqn:Hv; rewrite Hbest; cbn [bestIdx bestScore].
    + rewrite Hlen. split; [done|].
      apply similarity_self. by apply visible_true.
    + done.
  - unfold matchPairs.
    pose proof (matchPairs_self cached []) as Hself.
    rewrite app_nil_r in Hself. by rewrite Hself.
  - intros Hall. unfold matchPairs.
    pose proof (matchPairs_self cached []) as Hself.
    rewrite app_nil_r in Hself. rewrite Hself. cbn [executed].
    by rewrite selfInserted_all_visible.
Qed.

Lemma realign_identical_witness :
  let cached := [mkResult (js "Hello world") (js "Bonjour le monde");
                 mkResult (js "<p>Second</p>") (js "Deuxieme")] in
  executed (matchPairs (map original cached) cached)
  = [InsertTranslation 0 (js "Bonjour le monde");
     InsertTranslation 1 (js "Deuxieme")].
Proof.
  intros cached.
  destruct (realign_identical cached) as (_ & _ & Hall).
  apply Hall. repeat constructor.
Defined.

(** The scenarios of the specification: identical text is matched at
    index 0, unrelated text falls back to the global block. *)
Example realign_scenarios :
  injectCachedTranslations [mkResult (js "Hello world") (js "Bonjour")]
                           [js "Hello world"]
  = [InsertTranslation 0 (js "Bonjour"); SetTranslationVisibility true]
  /\ injectCachedTranslations [mkResult (js "Hello world") (js "Bonjour")]
                              [js "Goodbye"]
     = [AppendGlobalTranslation (js "Bonjour"); SetTranslationVisibility true].
Proof. split; vm_compute; reflexivity. Qed.

Lemma translateBatch_same_length_witness :
  let w := world (start exampleCall false) in
  exists w',
    runTask (translateBatch (H:=plainRuntime) exampleConfig
                            [js "Hello"; js "World"] zh)
            [Resolved (js "not an array"); Resolved (js "Bonjour");
             Resolved (js "Monde")] w
    = Some (w', Done [js "Bonjour"; js "Monde"], [])
    /\ length (requests w') = 3%nat.
Proof.
  intros w.
  destruct (translateBatch_same_length (H:=plainRuntime) exampleConfig zh
              [js "Hello"; js "World"]) as [_ Hreturns]; [discriminate|].
  eexists. split.
  - exact (Hreturns (js "not an array") [js "Bonjour"; js "Monde"] [] w eq_refl).
  - reflexivity.
Defined.

(** * More of the code *)

(** * The code beyond the specification *)

(** ** The cache store, continued *)

Lemma writer_getCache_other (s s' : Store) (id id' : jsstring) e :
  id' <> id ->
  cacheFilePath s' = cacheFilePath s ->
  cacheData s' = <[id := e]> (cacheData s) ->
  getCache id' s' = getCache id' s.
Proof.
  intros Hne Hp Hd. unfold getCache. rewrite Hp, Hd.
  destruct (cacheFilePath s); [|done].
  by rewrite lookup_insert_ne.
Qed.

(** Each writer updates its own field of the entry and stamps it anew;
    the item id and the two other fields of an entry that is already
    there stay as they were. *)
Lemma writers_keep_other_fields (s : Store) (now : Z) (io : bool)
    (id v : jsstring) (e : AICacheEntry) :
  getCache id s = Some e ->
  getCache id (saveSummary now io id v s)
    = Some (mkEntry (itemId e) (Some v) (translation e) (titleTranslation e) now)
  /\ getCache id (saveTranslation now io id v s)
    = Some (mkEntry (itemId e) (summary e) (Some v) (titleTranslation e) now)
  /\ getCache id (saveTitleTranslation now io id v s)
    = Some (mkEntry (itemId e) (summary e) (translation e) (Some v) now).
Proof.
  destruct s as [[p|] m fs]; [|discriminate].
  unfold getCache, saveSummary, saveTranslation, saveTitleTranslation, entryFor.
  cbn [cacheFilePath cacheData]. intros ->.
  rewrite !saveCache_cacheFilePath, !saveCache_cacheData.
  cbn [cacheFilePath cacheData default].
  by rewrite !lookup_insert_eq.
Qed.

(** A first write for an item creates its entry under the item's id, with
    the two other fields unset. *)
Lemma writers_create_entry (s : Store) (now : Z) (io : bool)
    (id v : jsstring) :
  is_Some (cacheFilePath s) ->
  getCache id s = None ->
  getCache id (saveSummary now io id v s)
    = Some (mkEntry id (Some v) None None now)
  /\ getCache id (saveTranslation now io id v s)
    = Some (mkEntry id None (Some v) None now)
  /\ getCache id (saveTitleTranslation now io id v s)
    = Some (mkEntry id None None (Some v) now).
Proof.
  destruct s as [[p|] m fs]; intros [q Hq]; [clear Hq|discriminate].
  unfold getCache, saveSummary, saveTranslation, saveTitleTranslation, entryFor.
  cbn [cacheFilePath cacheData]. intros ->.
  rewrite !saveCache_cacheFilePath, !saveCache_cacheData.
  cbn [cacheFilePath cacheData default].
  by rewrite !lookup_insert_eq.
Qed.

(** A write for one item leaves the entry of every other item alone. *)
Theorem writers_leave_other_items (s : Store) (now : Z) (io : bool)
    (id id' v : jsstring) :
  id' <> id ->
  getCache id' (saveSummary now io id v s) = getCache id' s
  /\ getCache id' (saveTranslation now io id v s) = getCache id' s
  /\ getCache id' (saveTitleTranslation now io id v s) = getCache id' s.
Proof.
  intros Hne.
  destruct s as [[p|] m fs]; [|done].
  unfold saveSummary, saveTranslation, saveTitleTranslation.
  cbn [cacheFilePath cacheData files].
  split_and!; eapply writer_getCache_other; try done;
    try (by rewrite saveCache_cacheFilePath);
    by rewrite saveCache_cacheData.
Qed.

Lemma writers_leave_other_items_witness :
  let s := saveSummary 5 true (js "other") (js "sum")
             (initDB (js "/data") (fresh ∅)) in
  getCache (js "other") (saveSummary 9 true (js "item") (js "v") s)
    = getCache (js "other") s
  /\ getCache (js "other") (saveTranslation 9 true (js "item") (js "v") s)
    = getCache (js "other") s
  /\ getCache (js "other") (saveTitleTranslation 9 true (js "item") (js "v") s)
    = getCache (js "other") s.
Proof.
  intros s.
  apply (writers_leave_other_items s 9 true (js "item") (js "other") (js "v")).
  vm_compute. discriminate.
Defined.

Lemma initDB_path p s :
  cacheFilePath (initDB p s) = Some (p ++ js "/ai-cache.json").
Proof.
  unfold initDB, loadCache; simpl.
  by destruct (files s !! _) as [[|m]|].
Qed.

Lemma initDB_files p s : files (initDB p s) = files s.
Proof.
  unfold initDB, loadCache; simpl.
  by destruct (files s !! _) as [[|m]|].
Qed.

(** What a successful [saveCache] leaves in the file is what a new
    process reads back. *)
Lemma restart_after_flush p s :
  cacheFilePath s = Some (p ++ js "/ai-cache.json") ->
  cacheData (initDB p (fresh (files (saveCache true s)))) = cacheData s.
Proof.
  intros Hp. unfold saveCache, initDB, loadCache, fresh. rewrite Hp.
  cbn [cacheFilePath cacheData files].
  by rewrite lookup_insert_eq.
Qed.

Lemma writer_restart p s' s :
  cacheFilePath s' = Some (p ++ js "/ai-cache.json") ->
  s = saveCache true s' ->
  forall id, getCache id (initDB p (fresh (files s))) = getCache id s.
Proof.
  intros Hp -> id. unfold getCache.
  rewrite initDB_path, saveCache_cacheFilePath, Hp, saveCache_cacheData.
  by rewrite restart_after_flush.
Qed.

(** Persistence: after any operation whose write succeeded, a new process
    that initialises the store on the same directory finds every entry as
    the old process had it. *)
Theorem cache_survives_restart (s0 : Store) (userData : jsstring) (now : Z)
    (id v : jsstring) (days : Z) :
  let s := initDB userData s0 in
  let restart s' := initDB userData (fresh (files s')) in
  forall k,
    getCache k (restart (saveSummary now true id v s))
      = getCache k (saveSummary now true id v s)
    /\ getCache k (restart (saveTranslation now true id v s))
      = getCache k (saveTranslation now true id v s)
    /\ getCache k (restart (saveTitleTranslation now true id v s))
      = getCache k (saveTitleTranslation now true id v s)
    /\ getCache k (restart (clearOldCache now true days s))
      = getCache k (clearOldCache now true days s)
    /\ getCache k (restart (closeDB true s)) = getCache k (closeDB true s).
Proof.
  intros s restart k. subst restart.
  pose proof (initDB_path userData s0) as Hp. fold s in Hp.
  unfold saveSummary, saveTranslation, saveTitleTranslation, clearOldCache,
    closeDB.
  rewrite Hp.
  split_and!; eapply writer_restart; try reflexivity; done.
Qed.

(** A write that fails is caught, and the memory is ahead of the file
    from then on.  Whatever the failed [fs.writeFileSync] has left on the
    disk ([disk]: the file as it was, cut short, empty or gone), the entry
    is served from memory all the same, the next write that succeeds, be
    it the one of [closeDB], puts the whole map into the file, and a new
    process started after it finds the entry. *)
Theorem failed_write_keeps_entry_in_memory (s : Store) (now : Z)
    (id v userData : jsstring) (disk : gmap jsstring FileContent) :
  cacheFilePath s = Some (userData ++ js "/ai-cache.json") ->
  let s1 := saveTranslation now false id v s in
  let s2 := mkStore (cacheFilePath s1) (cacheData s1) disk in
  (exists e, getCache id s2 = Some e /\ translation e = Some v)
  /\ files (closeDB true s2) !! (userData ++ js "/ai-cache.json")
     = Some (AiCache.Json (cacheData s1))
  /\ (forall k,
        getCache k (initDB userData (fresh (files (closeDB true s2))))
        = getCache k s1).
Proof.
  intros Hp s1 s2.
  assert (Hget : exists e, getCache id s1 = Some e /\ translation e = Some v).
  { destruct (saveTranslation_getCache now false id v s) as (e & ? & ? & _);
      [by eexists|eauto]. }
  assert (Hp1 : cacheFilePath s1 = Some (userData ++ js "/ai-cache.json")).
  { unfold s1, saveTranslation. rewrite Hp, saveCache_cacheFilePath. done. }
  assert (Hp2 : cacheFilePath s2 = Some (userData ++ js "/ai-cache.json")) by done.
  split_and!.
  - destruct Hget as (e & Hget & He). exists e. split; [|done].
    unfold getCache in *. rewrite Hp2. by rewrite Hp1 in Hget.
  - unfold closeDB, saveCache. rewrite Hp2. cbn [files cacheData s2].
    by rewrite lookup_insert_eq.
  - intros k. unfold closeDB.
    rewrite (writer_restart userData s2 (saveCache true s2) Hp2 eq_refl k).
    unfold getCache.
    by rewrite saveCache_cacheFilePath, saveCache_cacheData, Hp2, Hp1.
Qed.

Lemma failed_write_keeps_entry_in_memory_witness :
  let s := initDB (js "/data") (fresh ∅) in
  let s1 := saveTranslation 9 false (js "item") (js "v") s in
  let s2 := mkStore (cacheFilePath s1) (cacheData s1)
                    {[ js "/data/ai-cache.json" := Corrupt ]} in
  (exists e, getCache (js "item") s2 = Some e
             /\ translation e = Some (js "v"))
  /\ files (closeDB true s2) !! (js "/data" ++ js "/ai-cache.json")
     = Some (AiCache.Json (cacheData s1))
  /\ (forall k,
        getCache k (initDB (js "/data") (fresh (files (closeDB true s2))))
        = getCache k s1).
Proof.
  intros s.
  apply (failed_write_keeps_entry_in_memory s 9 (js "item") (js "v")
           (js "/data") {[ js "/data/ai-cache.json" := Corrupt ]}).
  vm_compute. reflexivity.
Defined.

(** A cache file that does not parse costs the entries, not the store:
    [initDB] starts from an empty map, whatever the memory held, and the
    first write that succeeds replaces the file by one that parses and
    holds the entry written. *)
Theorem corrupt_file_is_replaced (s : Store) (userData : jsstring) (now : Z)
    (id v : jsstring) :
  files s !! (userData ++ js "/ai-cache.json") = Some Corrupt ->
  (forall k, getCache k (initDB userData s) = None)
  /\ files (saveTranslation now true id v (initDB userData s))
       !! (userData ++ js "/ai-cache.json")
     = Some (AiCache.Json {[ id := mkEntry id None (Some v) None now ]}).
Proof.
  intros Hf.
  assert (Hd : initDB userData s
               = mkStore (Some (userData ++ js "/ai-cache.json")) ∅ (files s)).
  { unfold initDB, loadCache. cbn [cacheFilePath files]. by rewrite Hf. }
  rewrite Hd. split.
  - intros k. unfold getCache. cbn [cacheFilePath cacheData]. apply lookup_empty.
  - unfold saveTranslation, saveCache, entryFor.
    cbn [cacheFilePath cacheData files].
    rewrite lookup_empty. cbn [default itemId summary titleTranslation].
    rewrite lookup_insert_eq. by rewrite insert_empty.
Qed.

Lemma corrupt_file_is_replaced_witness :
  let s := mkStore None {[ js "old" := mkEntry (js "old") None None None 1 ]}
                   {[ js "/data/ai-cache.json" := Corrupt ]} in
  (forall k, getCache k (initDB (js "/data") s) = None)
  /\ files (saveTranslation 9 true (js "item") (js "v")
              (initDB (js "/data") s))
       !! (js "/data" ++ js "/ai-cache.json")
     = Some (AiCache.Json {[ js "item"
                     := mkEntry (js "item") None (Some (js "v")) None 9 ]}).
Proof.
  intros s.
  apply (corrupt_file_is_replaced s (js "/data") 9 (js "item") (js "v")).
  vm_compute. reflexivity.
Defined.

(** Clearing never adds an entry or changes one, a second clearing at the
    same time with a window at least as long removes nothing more, and two
    clearings come to one with the shorter window. *)
Theorem clearOldCache_composes (s : Store) (now : Z) (io io' : bool)
    (d1 d2 : Z) :
  is_Some (cacheFilePath s) ->
  cacheData (clearOldCache now io' d2 (clearOldCache now io d1 s))
    = cacheData (clearOldCache now io (Z.min d1 d2) s)
  /\ cacheData (clearOldCache now io d1 s) ⊆ cacheData s
  /\ (d1 <= d2 ->
      cacheData (clearOldCache now io' d2 (clearOldCache now io d1 s))
        = cacheData (clearOldCache now io d1 s)).
Proof.
  intros Hs.
  assert (Hs1 : is_Some (cacheFilePath (clearOldCache now io d1 s))).
  { destruct Hs as [p Hp]. unfold clearOldCache. rewrite Hp.
    rewrite saveCache_cacheFilePath. by eexists. }
  assert (Hmin : cacheData (clearOldCache now io' d2 (clearOldCache now io d1 s))
                 = cacheData (clearOldCache now io (Z.min d1 d2) s)).
  { apply map_eq. intros k. apply option_eq. intros e.
    rewrite !clearOldCache_lookup by done.
    unfold cutoffTime. split.
    - intros [[? ?] ?]. split; [done|lia].
    - intros [? ?]. split_and!; [done|lia|lia]. }
  split_and!.
  - done.
  - apply map_subseteq_spec. intros k e.
    rewrite clearOldCache_lookup by done. tauto.
  - intros Hle. rewrite Hmin. by rewrite Z.min_l.
Qed.

Lemma clearOldCache_composes_witness :
  let s := saveTranslation 1000 true (js "item") (js "v")
             (initDB (js "/data") (fresh ∅)) in
  cacheData (clearOldCache 2000 true 2 (clearOldCache 2000 true 1 s))
    = cacheData (clearOldCache 2000 true (Z.min 1 2) s)
  /\ cacheData (clearOldCache 2000 true 1 s) ⊆ cacheData s
  /\ (1 <= 2 ->
      cacheData (clearOldCache 2000 true 2 (clearOldCache 2000 true 1 s))
        = cacheData (clearOldCache 2000 true 1 s)).
Proof.
  intros s.
  apply (clearOldCache_composes s 2000 true true 1 2).
  vm_compute. eexists; reflexivity.
Defined.

Import Settings.

(** ** The cache handlers *)

Lemma ensureCacheInit_ready userData m :
  coherent m ->
  cacheInitialized (ensureCacheInit true userData m) = true
  /\ is_Some (cacheFilePath (store (ensureCacheInit true userData m))).
Proof.
  intros Hm. unfold ensureCacheInit.
  destruct (cacheInitialized m) eqn:Hi; simpl.
  - split; [done|]. by apply Hm.
  - split; [done|]. apply initDB_cacheFilePath.
Qed.

(** Once the application is ready the handlers need no initialisation
    from their callers: whatever was called before, a translation saved
    through [ai-cache-save-translation] is what [ai-cache-get] returns,
    and the store is initialised from then on. *)
Theorem ipc_round_trip_once_ready (m : Main) (userData : jsstring) (now : Z)
    (io : bool) (itemId v : jsstring) :
  coherent m ->
  let m1 := ai_cache_save_translation true userData now io itemId v m in
  cacheInitialized m1 = true
  /\ coherent m1
  /\ exists e, (ai_cache_get true userData itemId m1).2 = Some e
               /\ translation e = Some v /\ createdAt e = now.
Proof.
  intros Hm m1.
  destruct (ensureCacheInit_ready userData m Hm) as [Hi Hp].
  assert (Hi1 : cacheInitialized m1 = true) by done.
  assert (Hp1 : is_Some (cacheFilePath (store m1))).
  { unfold m1, ai_cache_save_translation. cbn [store].
    destruct Hp as [p Hp]. unfold saveTranslation. rewrite Hp.
    rewrite saveCache_cacheFilePath. by eexists. }
  split_and!; [done|by intros _|].
  unfold ai_cache_get, ensureCacheInit. rewrite Hi1. cbn [negb andb snd].
  unfold m1, ai_cache_save_translation. cbn [store].
  by apply saveTranslation_getCache.
Qed.

Lemma ipc_round_trip_once_ready_witness :
  let m := boot ∅ in
  let m1 := ai_cache_save_translation true (js "/data") 9 true (js "item")
              (js "v") m in
  cacheInitialized m1 = true
  /\ coherent m1
  /\ exists e, (ai_cache_get true (js "/data") (js "item") m1).2 = Some e
               /\ translation e = Some (js "v") /\ createdAt e = 9.
Proof.
  intros m.
  apply (ipc_round_trip_once_ready m (js "/data") 9 true (js "item") (js "v")).
  unfold coherent. simpl. discriminate.
Defined.

(** Until the application is ready, a main process that has not
    initialised the store does nothing in any handler: the state stays
    what it was, nothing reaches the file system, and [ai-cache-get]
    answers [null]. *)
Theorem ipc_inert_until_ready (m : Main) (userData : jsstring) (now : Z)
    (io : bool) (itemId v : jsstring) (days : Z) :
  cacheInitialized m = false ->
  cacheFilePath (store m) = None ->
  ai_cache_get false userData itemId m = (m, None)
  /\ ai_cache_save_summary false userData now io itemId v m = m
  /\ ai_cache_save_translation false userData now io itemId v m = m
  /\ ai_cache_save_title_translation false userData now io itemId v m = m
  /\ ai_cache_clear_old false userData now io days m = m
  /\ before_quit io m = m.
Proof.
  destruct m as [i s]. cbn [cacheInitialized store]. intros -> Hp.
  unfold ai_cache_get, ai_cache_save_summary, ai_cache_save_translation,
    ai_cache_save_title_translation, ai_cache_clear_old, before_quit,
    ensureCacheInit.
  cbn [cacheInitialized store negb andb].
  unfold getCache, saveSummary, saveTranslation, saveTitleTranslation,
    clearOldCache, closeDB, saveCache.
  rewrite Hp. done.
Qed.

Lemma ipc_inert_until_ready_witness :
  let m := boot ∅ in
  ai_cache_get false (js "/data") (js "item") m = (m, None)
  /\ ai_cache_save_summary false (js "/data") 9 true (js "item") (js "v") m = m
  /\ ai_cache_save_translation false (js "/data") 9 true (js "item") (js "v") m
     = m
  /\ ai_cache_save_title_translation false (js "/data") 9 true (js "item")
       (js "v") m = m
  /\ ai_cache_clear_old false (js "/data") 9 true 30 m = m
  /\ before_quit true m = m.
Proof.
  intros m.
  apply (ipc_inert_until_ready m (js "/data") 9 true (js "item") (js "v") 30);
    reflexivity.
Defined.

(** ** The batch plan, whatever the limits *)

Lemma createBatches_planSoFar maxCount maxChars ps :
  createBatches maxCount maxChars ps
  = planSoFar (planLoop maxCount maxChars 0 ps (mkPlanner [] emptyBatch 0)).
Proof.
  unfold createBatches, planSoFar.
  destruct (planLoop _ _ _ _ _) as [bs [idx txt] n].
  cbn [batches currentBatch indices]. by destruct idx.
Qed.

(** *** Texts and indices go together *)

Lemma aligned_app seen p b : aligned seen b -> aligned (seen ++ [p]) b.
Proof.
  unfold aligned. intros Hb. eapply Forall2_impl; [exact Hb|].
  intros i t Hi. by apply lookup_app_l_Some.
Qed.

Lemma planParagraph_aligned maxCount maxChars seen st p :
  Forall (aligned seen) (batches st) -> aligned seen (currentBatch st) ->
  let st' := planParagraph maxCount maxChars st (length seen) p in
  Forall (aligned (seen ++ [p])) (batches st')
  /\ aligned (seen ++ [p]) (currentBatch st').
Proof.
  intros Hbs Hcur.
  assert (Hnew : (seen ++ [p]) !! length seen = Some p).
  { rewrite lookup_app_r by lia. by rewrite Nat.sub_diag. }
  assert (Hbs' : Forall (aligned (seen ++ [p])) (batches st)).
  { eapply Forall_impl; [exact Hbs|]. intros b. apply aligned_app. }
  apply (aligned_app _ p) in Hcur.
  unfold planParagraph.
  destruct (_ && _); cbn [batches currentBatch indices texts emptyBatch].
  - split.
    + apply Forall_app. split; [done|]. by apply Forall_singleton.
    + unfold aligned; cbn [indices texts app]. by repeat constructor.
  - split; [done|].
    unfold aligned in *; cbn [indices texts].
    apply Forall2_app; [done|]. by repeat constructor.
Qed.

Lemma planLoop_aligned maxCount maxChars rest seen st :
  Forall (aligned seen) (batches st) -> aligned seen (currentBatch st) ->
  let st' := planLoop maxCount maxChars (length seen) rest st in
  Forall (aligned (seen ++ rest)) (batches st')
  /\ aligned (seen ++ rest) (currentBatch st').
Proof.
  revert seen st.
  induction rest as [|p rest IH]; intros seen st Hbs Hcur; cbn [planLoop].
  - by rewrite app_nil_r.
  - replace (seen ++ p :: rest) with ((seen ++ [p]) ++ rest)
      by (by rewrite <- app_assoc).
    replace (S (length seen)) with (length (seen ++ [p]))
      by (rewrite length_app; cbn; lia).
    destruct (planParagraph_aligned maxCount maxChars seen st p Hbs Hcur).
    by apply IH.
Qed.

Lemma createBatches_aligned maxCount maxChars ps :
  Forall (aligned ps) (createBatches maxCount maxChars ps).
Proof.
  rewrite createBatches_planSoFar.
  destruct (planLoop_aligned maxCount maxChars ps [] (mkPlanner [] emptyBatch 0))
    as [Hbs Hcur]; [by constructor|by constructor|].
  cbn [app length] in *. unfold planSoFar.
  destruct (indices (currentBatch _)); [done|].
  apply Forall_app. split; [done|]. by apply Forall_singleton.
Qed.

Lemma concat_seq_contiguous (ls : list (list nat)) a n :
  concat ls = seq a n ->
  Forall (fun l => exists s, l = seq s (length l)) ls.
Proof.
  revert a n. induction ls as [|l ls IH]; intros a n Hcat; [constructor|].
  cbn [concat] in Hcat.
  assert (Hlen : (length l <= n)%nat).
  { apply (f_equal length) in Hcat. rewrite length_app, length_seq in Hcat. lia. }
  assert (Hl : l = seq a (length l)).
  { apply (f_equal (take (length l))) in Hcat.
    rewrite take_app_length in Hcat. rewrite Hcat at 1.
    rewrite take_seq. f_equal. lia. }
  constructor; [by exists a|].
  apply (IH (a + length l)%nat (n - length l)%nat).
  apply (f_equal (drop (length l))) in Hcat.
  rewrite drop_app_length in Hcat. rewrite Hcat.
  by rewrite drop_seq.
Qed.

(** Whatever the limits, every batch of the plan holds a run of
    consecutive indices, and its texts are the paragraphs at those
    indices, in the same order. *)
Theorem batches_hold_their_paragraphs (maxCount maxChars : Z)
    (paragraphs : list jsstring) :
  Forall (fun b =>
    (exists first, indices b = seq first (length (indices b)))
    /\ length (texts b) = length (indices b)
    /\ forall j i, indices b !! j = Some i -> texts b !! j = paragraphs !! i)
    (createBatches maxCount maxChars paragraphs).
Proof.
  pose proof (createBatches_aligned maxCount maxChars paragraphs) as Hal.
  pose proof (concat_seq_contiguous _ _ _
                (createBatches_indices maxCount maxChars paragraphs)) as Hseq.
  rewrite Forall_map in Hseq.
  apply Forall_forall. intros b Hb.
  rewrite Forall_forall in Hal, Hseq.
  specialize (Hal b Hb). specialize (Hseq b Hb). cbn beta in Hseq.
  split_and!; [done| |].
  - symmetry. by eapply Forall2_length.
  - intros j i Hi.
    destruct (Forall2_lookup_l _ _ _ _ _ Hal Hi) as (t & Ht & Hp).
    by rewrite Ht, Hp.
Qed.

(** *** The plan is greedy *)

Lemma greedy_snoc maxCount maxChars bs b :
  greedy maxCount maxChars bs ->
  (forall b1 p, last bs = Some b1 -> head (texts b) = Some p ->
                closedBy maxCount maxChars b1 p) ->
  greedy maxCount maxChars (bs ++ [b]).
Proof.
  induction bs as [|b1 [|b2 bs] IH]; intros Hg Hlast; cbn [app greedy].
  - done.
  - split; [|done]. intros p Hp. by apply Hlast.
  - destruct Hg as [H12 Hg]. split; [done|].
    apply IH; [done|]. intros b' p Hb' Hp. by apply Hlast.
Qed.

Lemma greedy_lookup maxCount maxChars bs k b1 b2 p :
  greedy maxCount maxChars bs ->
  bs !! k = Some b1 -> bs !! S k = Some b2 -> head (texts b2) = Some p ->
  closedBy maxCount maxChars b1 p.
Proof.
  revert k. induction bs as [|b [|b' bs] IH]; intros k Hg H1 H2 Hp.
  - done.
  - done.
  - destruct Hg as [H12 Hg]. destruct k as [|k].
    + cbn in H1, H2. injection H1 as ->. injection H2 as ->. by apply H12.
    + by apply (IH k).
Qed.

Lemma greedy_last_head maxCount maxChars bs b b' :
  greedy maxCount maxChars (bs ++ [b]) ->
  head (texts b') = head (texts b) ->
  greedy maxCount maxChars (bs ++ [b']).
Proof.
  intros Hg Hhead. induction bs as [|b1 [|b2 bs] IH]; cbn [app greedy] in *.
  - done.
  - split; [|done]. intros p Hp. apply Hg. by rewrite <- Hhead.
  - destruct Hg as [H12 Hg]. split; [done|]. by apply IH.
Qed.

(** The invariant of the planning loop behind the greedy plan. *)
Lemma planParagraph_greedy maxCount maxChars st i p :
  let inv st :=
    greedy maxCount maxChars (planSoFar st)
    /\ length (texts (currentBatch st)) = length (indices (currentBatch st))
    /\ currentBatchLen st = batchChars (currentBatch st)
    /\ (indices (currentBatch st) = [] -> batches st = []) in
  inv st -> inv (planParagraph maxCount maxChars st i p).
Proof.
  intros inv (Hg & Hlen & Hsum & Hempty).
  destruct st as [bs [idx txt] n].
  unfold inv, planSoFar, planParagraph in *.
  cbn [batches currentBatch currentBatchLen indices texts] in *.
  destruct ((0 <? Z.of_nat (length idx)) &&
            ((maxCount <=? Z.of_nat (length idx))
             || (maxChars <? n + Z.of_nat (length p)))) eqn:Hclose;
    cbn [batches currentBatch currentBatchLen indices texts emptyBatch app].
  - apply andb_true_iff in Hclose as [Hne Hfull].
    apply Z.ltb_lt in Hne.
    destruct idx as [|i0 idx]; [cbn in Hne; lia|].
    split_and!.
    + apply greedy_snoc; [done|].
      intros b1 q Hb1 Hq. rewrite last_snoc in Hb1. injection Hb1 as <-.
      cbn in Hq. injection Hq as <-.
      unfold closedBy; cbn [indices].
      apply orb_true_iff in Hfull as [Hc|Hc].
      * apply Z.leb_le in Hc. by left.
      * apply Z.ltb_lt in Hc. right. by rewrite <- Hsum.
    + done.
    + unfold batchChars; cbn. lia.
    + done.
  - split_and!.
    + destruct idx as [|i0 idx]; cbn [app].
      * rewrite (Hempty eq_refl). cbn [app greedy]. done.
      * destruct txt as [|t0 txt]; [discriminate|].
        by apply (greedy_last_head _ _ _ (mkBatch (i0 :: idx) (t0 :: txt))).
    + rewrite !length_app. cbn [length]. lia.
    + rewrite (batchChars_snoc _ idx). lia.
    + by destruct idx.
Qed.

Lemma planLoop_greedy maxCount maxChars ps i st :
  let inv st :=
    greedy maxCount maxChars (planSoFar st)
    /\ length (texts (currentBatch st)) = length (indices (currentBatch st))
    /\ currentBatchLen st = batchChars (currentBatch st)
    /\ (indices (currentBatch st) = [] -> batches st = []) in
  inv st -> inv (planLoop maxCount maxChars i ps st).
Proof.
  intros inv. revert i st.
  induction ps as [|p ps IH]; intros i st Hinv; cbn [planLoop]; [done|].
  apply IH. by apply planParagraph_greedy.
Qed.

(** The plan is greedy, whatever the limits: a batch that is followed by
    another has reached the paragraph limit, or the first paragraph of
    the next batch would have taken it over the length limit. *)
Theorem plan_is_greedy (maxCount maxChars : Z) (paragraphs : list jsstring)
    (k : nat) (b1 b2 : Batch) (p : jsstring) :
  let bs := createBatches maxCount maxChars paragraphs in
  bs !! k = Some b1 -> bs !! S k = Some b2 -> head (texts b2) = Some p ->
  maxCount <= Z.of_nat (length (indices b1))
  \/ maxChars < batchChars b1 + Z.of_nat (length p).
Proof.
  intros bs. unfold bs. rewrite createBatches_planSoFar.
  apply greedy_lookup.
  apply (planLoop_greedy maxCount maxChars paragraphs 0
           (mkPlanner [] emptyBatch 0)).
  by split_and!.
Qed.

Lemma plan_is_greedy_witness :
  let bs := createBatches 2 100 [js "aaaa"; js "bb"; js "cc"] in
  2 <= Z.of_nat (length (indices (mkBatch [0; 1]%nat [js "aaaa"; js "bb"])))
  \/ 100 < batchChars (mkBatch [0; 1]%nat [js "aaaa"; js "bb"])
            + Z.of_nat (length (js "cc")).
Proof.
  intros bs.
  apply (plan_is_greedy 2 100 [js "aaaa"; js "bb"; js "cc"] 0
           (mkBatch [0; 1]%nat [js "aaaa"; js "bb"])
           (mkBatch [2%nat] [js "cc"]) (js "cc")); reflexivity.
Defined.

(** *** One paragraph per request *)

Lemma planParagraph_singleton maxCount maxChars st i p :
  maxCount <= 1 ->
  currentBatch st = emptyBatch
  \/ (exists a t, currentBatch st = mkBatch [a] [t]) ->
  let st' := planParagraph maxCount maxChars st i p in
  currentBatch st' = mkBatch [i] [p] /\ batches st' = planSoFar st.
Proof.
  intros Hmax Hcur. destruct st as [bs cur n].
  unfold planParagraph, planSoFar.
  cbn [batches currentBatch currentBatchLen] in *.
  destruct Hcur as [->|(a & t & ->)]; cbn [indices texts emptyBatch length].
  - done.
  - replace (maxCount <=? Z.of_nat 1) with true
      by (symmetry; apply Z.leb_le; lia).
    done.
Qed.

Lemma planLoop_singletons maxCount maxChars ps i st :
  maxCount <= 1 ->
  currentBatch st = emptyBatch
  \/ (exists a t, currentBatch st = mkBatch [a] [t]) ->
  planSoFar (planLoop maxCount maxChars i ps st)
  = planSoFar st ++ singletons i ps.
Proof.
  intros Hmax. revert i st.
  induction ps as [|p ps IH]; intros i st Hcur; cbn [planLoop].
  - unfold singletons. cbn. by rewrite app_nil_r.
  - destruct (planParagraph_singleton maxCount maxChars st i p Hmax Hcur)
      as [Hc Hb].
    rewrite IH by (right; eauto).
    unfold singletons. cbn [length seq zip_with].
    unfold planSoFar at 1. rewrite Hc, Hb. cbn [indices].
    by rewrite <- app_assoc.
Qed.

(** With at most one paragraph per request, which is the default, the
    plan is one batch per paragraph, in order, whatever the length
    limit. *)
Theorem one_paragraph_per_batch (maxCount maxChars : Z)
    (paragraphs : list jsstring) :
  maxCount <= 1 ->
  createBatches maxCount maxChars paragraphs
  = zip_with (fun i p => mkBatch [i] [p]) (seq 0 (length paragraphs)) paragraphs.
Proof.
  intros Hmax. rewrite createBatches_planSoFar.
  rewrite planLoop_singletons by (done || by left).
  done.
Qed.

Lemma one_paragraph_per_batch_witness :
  createBatches (maxBatchSize exampleCall) (maxTextLen exampleCall)
                [js "a"; js "b"]
  = zip_with (fun i p => mkBatch [i] [p]) (seq 0 (length [js "a"; js "b"]))
             [js "a"; js "b"].
Proof.
  apply (one_paragraph_per_batch (maxBatchSize exampleCall)
           (maxTextLen exampleCall) [js "a"; js "b"]).
  vm_compute. discriminate.
Defined.

(** ** The delays between two attempts *)

Lemma pow15_succ (k : nat) :
  ((3 # 2) ^ Z.of_nat (S k) == (3 # 2) ^ Z.of_nat k * (3 # 2))%Q.
Proof.
  rewrite Nat2Z.inj_succ. unfold Z.succ.
  rewrite Qpower_plus by discriminate. reflexivity.
Qed.

Lemma pow15_ge_1 (k : nat) : (1 <= (3 # 2) ^ Z.of_nat k)%Q.
Proof.
  induction k as [|k IH].
  - discriminate.
  - rewrite pow15_succ.
    apply (Qle_trans _ (1 * 1)); [discriminate|].
    apply Qmult_le_compat_nonneg; split; try discriminate; done.
Qed.

Lemma pow15_mono (j k : nat) :
  (j <= k)%nat -> ((3 # 2) ^ Z.of_nat j <= (3 # 2) ^ Z.of_nat k)%Q.
Proof.
  induction 1 as [|k Hle IH]; [apply Qle_refl|].
  eapply Qle_trans; [exact IH|].
  rewrite pow15_succ.
  pose proof (pow15_ge_1 k) as H1.
  apply (Qle_trans _ ((3 # 2) ^ Z.of_nat k * 1)).
  - rewrite Qmult_1_r. apply Qle_refl.
  - apply Qmult_le_compat_nonneg; split; try discriminate.
    + eapply Qle_trans; [|exact H1]. discriminate.
    + apply Qle_refl.
Qed.

Lemma retryDelay_succ (k : nat) :
  (retryDelay (S k) == Qmin (1000 * (3 # 2) ^ Z.of_nat k) 10000)%Q.
Proof.
  unfold retryDelay.
  replace (Z.of_nat (S k) - 1) with (Z.of_nat k) by lia.
  reflexivity.
Qed.

(** The schedule of the retries: the first delay is one second, no delay
    is shorter than the one before, none is longer than ten seconds, and
    from the seventh retry on the delay is ten seconds. *)
Theorem retry_delays_grow_to_cap (n m : nat) :
  (1 <= n)%nat -> (n <= m)%nat ->
  (retryDelay 1 == 1000)%Q
  /\ (1000 <= retryDelay n)%Q
  /\ (retryDelay n <= retryDelay m)%Q
  /\ (retryDelay m <= 10000)%Q
  /\ ((7 <= n)%nat -> (retryDelay n == 10000)%Q).
Proof.
  intros Hn Hnm.
  destruct n as [|j]; [lia|]. destruct m as [|k]; [lia|].
  assert (Hjk : (j <= k)%nat) by lia.
  split_and!.
  - reflexivity.
  - rewrite retryDelay_succ. apply Q.min_glb; [|discriminate].
    pose proof (pow15_ge_1 j) as H1.
    apply (Qle_trans _ (1000 * 1)); [discriminate|].
    apply Qmult_le_compat_nonneg; split; try discriminate; try done.
  - rewrite !retryDelay_succ.
    apply Q.min_le_compat_r.
    apply Qmult_le_l; [reflexivity|]. by apply pow15_mono.
  - rewrite retryDelay_succ. apply Q.le_min_r.
  - intros H7. rewrite retryDelay_succ.
    apply Q.min_r.
    pose proof (pow15_mono 6 j ltac:(lia)) as H6.
    eapply Qle_trans; [|apply Qmult_le_l; [reflexivity|exact H6]].
    discriminate.
Qed.

Lemma retry_delays_grow_to_cap_witness :
  (retryDelay 1 == 1000)%Q
  /\ (1000 <= retryDelay 3)%Q
  /\ (retryDelay 3 <= retryDelay 8)%Q
  /\ (retryDelay 8 <= 10000)%Q
  /\ ((7 <= 3)%nat -> (retryDelay 3 == 10000)%Q).
Proof.
  apply (retry_delays_grow_to_cap 3 8); lia.
Defined.

(** ** Strings, continued *)

Lemma startsWith_app p s : startsWith p (p ++ s) = true.
Proof.
  induction p as [|c p IH]; cbn [app startsWith]; [done|].
  by rewrite N.eqb_refl, IH.
Qed.

Lemma startsWith_inv p s :
  startsWith p s = true -> exists rest, s = p ++ rest.
Proof.
  revert s. induction p as [|c p IH]; intros s Hs; [by exists s|].
  destruct s as [|d s]; [done|]. cbn [startsWith] in Hs.
  apply andb_true_iff in Hs as [Hc Hs]. apply N.eqb_eq in Hc as ->.
  destruct (IH s Hs) as [rest ->]. by exists rest.
Qed.

Lemma endsWith_app p s : endsWith p (s ++ p) = true.
Proof. unfold endsWith. rewrite rev_app_distr. apply startsWith_app. Qed.

Lemma trimStart_blank ws s : blankString ws -> trimStart (ws ++ s) = trimStart s.
Proof.
  induction 1 as [|c ws Hc _ IH]; [done|].
  cbn [app trimStart]. by rewrite Hc.
Qed.

Lemma trimStart_head c s : is_space c = false -> trimStart (c :: s) = c :: s.
Proof. intros Hc. cbn [trimStart]. by rewrite Hc. Qed.

Lemma trimStart_app s t :
  trimStart s <> [] -> trimStart (s ++ t) = trimStart s ++ t.
Proof.
  induction s as [|c s IH]; [done|]. cbn [app trimStart].
  destruct (is_space c); [exact IH|done].
Qed.

Lemma trimEnd_blank s ws : blankString ws -> trimEnd (s ++ ws) = trimEnd s.
Proof.
  intros Hws. unfold trimEnd. rewrite rev_app_distr.
  rewrite trimStart_blank; [done|].
  unfold blankString. by apply Forall_rev.
Qed.

Lemma trimEnd_app s t :
  trimEnd t <> [] -> trimEnd (s ++ t) = s ++ trimEnd t.
Proof.
  intros Ht. unfold trimEnd in *. rewrite rev_app_distr.
  rewrite trimStart_app.
  - by rewrite rev_app_distr, rev_involutive.
  - intros Hnil. apply Ht. by rewrite Hnil.
Qed.

Lemma trimStart_nil s : trimStart s = [] -> blankString s.
Proof.
  induction s as [|c s IH]; [constructor|]. cbn [trimStart].
  destruct (is_space c) eqn:Hc; [|done].
  intros Hs. constructor; [done|]. by apply IH.
Qed.

Lemma trimStart_blank_nil s : blankString s -> trimStart s = [].
Proof.
  intros Hs. rewrite <- (app_nil_r s). by rewrite trimStart_blank.
Qed.

(** White space around a string does not count for [trim]. *)
Lemma trim_pad pre s post :
  blankString pre -> blankString post -> trim (pre ++ s ++ post) = trim s.
Proof.
  intros Hpre Hpost. unfold trim. rewrite trimStart_blank by done.
  destruct (trimStart s) as [|c r] eqn:Hs.
  - apply trimStart_nil in Hs.
    rewrite trimStart_blank_nil; [done|].
    unfold blankString in *. by apply Forall_app.
  - rewrite trimStart_app by (by rewrite Hs).
    rewrite Hs. by rewrite trimEnd_blank.
Qed.

Lemma trimmed_head s :
  trimmed s -> exists c r, s = c :: r /\ is_space c = false.
Proof.
  intros [Ht Hne]. destruct s as [|c r]; [done|].
  exists c, r. split; [done|].
  destruct (is_space c) eqn:Hc; [|done].
  (* a leading space would be lost *)
  exfalso. unfold trim in Ht.
  assert (Hlen : (length (trimEnd (trimStart (c :: r))) <= length r)%nat).
  { cbn [trimStart]. rewrite Hc. unfold trimEnd.
    rewrite length_rev.
    assert (Hshort : forall l : jsstring, (length (trimStart l) <= length l)%nat).
    { induction l as [|x l IH]; [done|]. cbn [trimStart].
      destruct (is_space x); cbn [length]; lia. }
    etrans; [apply Hshort|]. rewrite length_rev.
    apply Hshort. }
  rewrite Ht in Hlen. cbn [length] in Hlen. lia.
Qed.

Lemma trimStart_length (l : jsstring) : (length (trimStart l) <= length l)%nat.
Proof.
  induction l as [|x l IH]; [done|]. cbn [trimStart].
  destruct (is_space x); cbn [length]; lia.
Qed.

Lemma trimmed_trimStart s : trimmed s -> trimStart s = s.
Proof.
  intros Hs. destruct (trimmed_head s Hs) as (c & r & -> & Hc).
  by apply trimStart_head.
Qed.

Lemma trimmed_trimEnd s : trimmed s -> trimEnd s = s.
Proof.
  intros Hs. pose proof Hs as [Ht _]. unfold trim in Ht.
  by rewrite (trimmed_trimStart s Hs) in Ht.
Qed.

(** A string between two code units that are not white space is
    trimmed. *)
Lemma trimmed_between c mid d :
  is_space c = false -> is_space d = false -> trimmed (c :: mid ++ [d]).
Proof.
  intros Hc Hd. split; [|done]. unfold trim.
  rewrite trimStart_head by done.
  change (c :: mid ++ [d]) with ((c :: mid) ++ [d]).
  assert (Hlast : trimEnd [d] = [d]).
  { unfold trimEnd. cbn [rev app trimStart]. by rewrite Hd. }
  rewrite trimEnd_app; by rewrite Hlast.
Qed.

(** ** The clean-up of a batch response *)

Lemma backtick_not_space : is_space 96 = false.
Proof. reflexivity. Qed.

Lemma fence_units : fence = [96; 96; 96]%N.
Proof. reflexivity. Qed.

Lemma fence_json_units : fence_json = fence ++ js "json".
Proof. reflexivity. Qed.

(** After white space, a code unit [c] that is not [k] keeps every
    pattern that begins with [k], itself no white space, from matching. *)
Lemma startsWith_other k p ws c r :
  blankString ws -> is_space k = false -> c <> k ->
  startsWith (k :: p) (ws ++ c :: r) = false.
Proof.
  intros Hws Hk Hc.
  destruct Hws as [|x ws Hx _]; cbn [app startsWith].
  - destruct (N.eqb_spec k c) as [->|_]; done.
  - destruct (N.eqb_spec k x) as [->|_]; [|done]. by rewrite Hx in Hk.
Qed.

Lemma fenced_is_trimmed s : trim (fence ++ s ++ fence) = fence ++ s ++ fence.
Proof.
  rewrite fence_units.
  change ([96; 96; 96]%N ++ s ++ [96; 96; 96]%N)
    with (96%N :: ([96; 96]%N ++ s ++ [96; 96; 96]%N)).
  replace ([96; 96]%N ++ s ++ [96; 96; 96]%N)
    with (([96; 96]%N ++ s ++ [96; 96]%N) ++ [96%N])
    by (by rewrite <- !app_assoc).
  apply trimmed_between; reflexivity.
Qed.

Lemma take_before_fence (s : jsstring) :
  take (length (s ++ fence) - 3) (s ++ fence) = s.
Proof.
  rewrite length_app, fence_units. cbn [length].
  replace (length s + 3 - 3)%nat with (length s) by lia.
  by rewrite take_app_length.
Qed.

(** The three steps after the first [trim], on a text between fences. *)
Lemma unwrap_inner ws1 body ws2 :
  blankString ws1 -> blankString ws2 -> trimmed body ->
  startsWith (js "`") body = false ->
  let cleaned := ws1 ++ body ++ ws2 ++ fence in
  let cleaned := if startsWith fence cleaned then drop 3 cleaned
                 else cleaned in
  let cleaned := if endsWith fence cleaned
                 then take (length cleaned - 3) cleaned else cleaned in
  trim cleaned = body.
Proof.
  intros Hws1 Hws2 Hbody Htick.
  destruct (trimmed_head body Hbody) as (c & r & Hcr & Hc).
  assert (Hc96 : c <> 96%N).
  { intros ->. rewrite Hcr in Htick. cbn in Htick. done. }
  cbn zeta.
  assert (Hinner : startsWith fence (ws1 ++ body ++ ws2 ++ fence) = false).
  { rewrite Hcr, fence_units. cbn [app]. by apply startsWith_other. }
  rewrite Hinner.
  replace (ws1 ++ body ++ ws2 ++ fence) with ((ws1 ++ body ++ ws2) ++ fence)
    by (by rewrite <- !app_assoc).
  rewrite endsWith_app, take_before_fence.
  rewrite trim_pad by done. apply Hbody.
Qed.

(** A response wrapped in a Markdown fence, with or without the language
    tag, is unwrapped: what goes to [JSON.parse] is the text between the
    fences, without the white space around it.  The text is taken not to
    begin with a backtick or, for the fence without a tag, with the letter
    j: a JSON array begins with a bracket. *)
Theorem cleanResponse_unwraps_fence (pre ws1 body ws2 post : jsstring) :
  blankString pre -> blankString ws1 -> blankString ws2 -> blankString post ->
  trimmed body ->
  startsWith (js "`") body = false ->
  startsWith (js "j") body = false ->
  cleanResponse (pre ++ (fence_json ++ ws1 ++ body ++ ws2 ++ fence) ++ post)
    = body
  /\ cleanResponse (pre ++ (fence ++ ws1 ++ body ++ ws2 ++ fence) ++ post)
    = body.
Proof.
  intros Hpre Hws1 Hws2 Hpost Hbody Htick Hj.
  unfold cleanResponse. split.
  - rewrite trim_pad by done.
    replace (fence_json ++ ws1 ++ body ++ ws2 ++ fence)
      with (fence ++ (js "json" ++ ws1 ++ body ++ ws2) ++ fence)
      by (rewrite fence_json_units, <- !app_assoc; done).
    rewrite fenced_is_trimmed.
    replace (fence ++ (js "json" ++ ws1 ++ body ++ ws2) ++ fence)
      with (fence_json ++ ws1 ++ body ++ ws2 ++ fence)
      by (rewrite fence_json_units, <- !app_assoc; done).
    rewrite startsWith_app.
    replace (drop 7 (fence_json ++ ws1 ++ body ++ ws2 ++ fence))
      with (ws1 ++ body ++ ws2 ++ fence) by done.
    by apply unwrap_inner.
  - rewrite trim_pad by done.
    replace (fence ++ ws1 ++ body ++ ws2 ++ fence)
      with (fence ++ (ws1 ++ body ++ ws2) ++ fence)
      by (by rewrite <- !app_assoc).
    rewrite fenced_is_trimmed.
    assert (Hnojson : startsWith fence_json
                        (fence ++ (ws1 ++ body ++ ws2) ++ fence) = false).
    { destruct (startsWith fence_json _) eqn:Hs; [|done].
      apply startsWith_inv in Hs as [rest Hrest].
      rewrite fence_json_units, <- !app_assoc in Hrest.
      apply app_inv_head in Hrest.
      destruct (trimmed_head body Hbody) as (c & r & Hcr & Hc).
      assert (Hc106 : c <> 106%N).
      { intros ->. rewrite Hcr in Hj. cbn in Hj. done. }
      assert (Hfalse : startsWith (js "json") (ws1 ++ body ++ ws2 ++ fence)
                       = false).
      { rewrite Hcr. cbn [app]. change (js "json") with (106%N :: js "son").
        by apply startsWith_other. }
      rewrite Hrest, startsWith_app in Hfalse. done. }
    rewrite Hnojson, startsWith_app.
    replace (drop 3 (fence ++ (ws1 ++ body ++ ws2) ++ fence))
      with ((ws1 ++ body ++ ws2) ++ fence) by done.
    rewrite endsWith_app, take_before_fence.
    rewrite trim_pad by done. apply Hbody.
Qed.

Lemma cleanResponse_unwraps_fence_witness :
  let body := js "[1, 2]" in
  cleanResponse (js " " ++ (fence_json ++ [10%N] ++ body ++ [10%N] ++ fence)
                 ++ [10%N]) = body
  /\ cleanResponse (js " " ++ (fence ++ [10%N] ++ body ++ [10%N] ++ fence)
                    ++ [10%N]) = body.
Proof.
  intros body.
  apply (cleanResponse_unwraps_fence (js " ") [10%N] body [10%N] [10%N]);
    try (by repeat constructor); reflexivity.
Defined.

(** ** The failure marker *)

Lemma includes_cons p c s : includes p s = true -> includes p (c :: s) = true.
Proof. intros Hs. cbn [includes]. rewrite Hs. apply orb_true_r. Qed.

Lemma includes_app_l p a s : includes p s = true -> includes p (a ++ s) = true.
Proof.
  intros Hs. induction a as [|c a IH]; [done|]. by apply includes_cons.
Qed.

Lemma includes_startsWith p s : startsWith p s = true -> includes p s = true.
Proof. intros Hs. destruct s; cbn [includes]; by rewrite Hs. Qed.

Lemma includes_inv p s :
  includes p s = true -> exists a b, s = a ++ p ++ b.
Proof.
  induction s as [|c s IH]; cbn [includes]; intros Hs.
  - apply orb_true_iff in Hs as [Hs|Hs]; [|done].
    apply startsWith_inv in Hs as [rest Hrest]. exists [], rest. exact Hrest.
  - apply orb_true_iff in Hs as [Hs|Hs].
    + apply startsWith_inv in Hs as [rest Hrest]. exists [], rest. exact Hrest.
    + destruct (IH Hs) as (a & b & ->). by exists (c :: a), b.
Qed.

Lemma includes_intro p a b : includes p (a ++ p ++ b) = true.
Proof. apply includes_app_l, includes_startsWith, startsWith_app. Qed.

Lemma trimStart_split s :
  exists ws, blankString ws /\ s = ws ++ trimStart s.
Proof.
  induction s as [|c s (ws & Hws & IH)].
  - exists []. split; [constructor|done].
  - cbn [trimStart]. destruct (is_space c) eqn:Hc.
    + exists (c :: ws). split; [by constructor|]. cbn [app]. by rewrite <- IH.
    + exists []. split; [constructor|done].
Qed.

Lemma startsWith_i_spells p s :
  startsWith_i p s = true <-> exists x rest, s = x ++ rest /\ spells p x.
Proof.
  unfold spells. revert s. induction p as [|c p IH]; intros s.
  - split; [by exists [], s|done].
  - destruct s as [|d s]; cbn [startsWith_i].
    + split; [done|]. intros (x & rest & Hs & Hx).
      symmetry in Hs. apply app_eq_nil in Hs as [-> _]. done.
    + rewrite andb_true_iff, N.eqb_eq, IH. split.
      * intros (Hc & x & rest & -> & Hx).
        exists (d :: x), rest. split; [done|]. cbn [map]. by rewrite Hx, Hc.
      * intros (x & rest & Hs & Hx). destruct x as [|d' x]; [done|].
        cbn [map app] in *. injection Hs as -> ->. injection Hx as Hd Hx.
        split; [done|]. by exists x, rest.
Qed.

Lemma failureMarker_cons c t :
  failureMarker t = true -> failureMarker (c :: t) = true.
Proof. intros Ht. cbn [failureMarker]. rewrite Ht. apply orb_true_r. Qed.

Lemma failureMarker_app_l a t :
  failureMarker t = true -> failureMarker (a ++ t) = true.
Proof.
  intros Ht. induction a as [|c a IH]; [done|]. by apply failureMarker_cons.
Qed.

Lemma failureMarker_at t : marker_at t = true -> failureMarker t = true.
Proof. intros Ht. destruct t; cbn [failureMarker]; by rewrite Ht. Qed.

Lemma failureMarker_includes_zh t :
  includes fanyi_shibai t = true -> failureMarker t = true.
Proof.
  intros Ht. apply includes_inv in Ht as (a & b & ->).
  apply failureMarker_app_l, failureMarker_at.
  unfold marker_at. rewrite startsWith_app.
  by rewrite orb_true_r.
Qed.

Lemma space_not_F c : is_space c = true -> canonicalize c <> 70%N.
Proof.
  intros Hc Hf. unfold canonicalize in Hf.
  destruct ((97 <=? c) && (c <=? 122))%N eqn:Hr.
  - assert (c = 102%N) as -> by lia. done.
  - subst c. done.
Qed.

Lemma spells_length p x : spells p x -> length x = length p.
Proof.
  unfold spells. intros Hx. apply (f_equal length) in Hx.
  by rewrite !length_map in Hx.
Qed.

Lemma marker_english_spelled x ws y post :
  spells (js "translation") x -> blankString ws -> spells (js "failed") y ->
  marker_english (x ++ ws ++ y ++ post) = true.
Proof.
  intros Hx Hws Hy. unfold marker_english.
  apply andb_true_iff. split.
  - apply startsWith_i_spells. by exists x, (ws ++ y ++ post).
  - pose proof (spells_length _ _ Hx) as Hlen.
    replace 11%nat with (length x) by (by rewrite Hlen).
    rewrite drop_app_length, trimStart_blank by done.
    destruct y as [|c y]; [done|].
    assert (Hc : is_space c = false).
    { destruct (is_space c) eqn:Hc; [|done].
      apply space_not_F in Hc. unfold spells in Hy. cbn [map] in Hy.
      injection Hy as Hy _. done. }
    cbn [app]. rewrite trimStart_head by done.
    apply startsWith_i_spells. by exists (c :: y), post.
Qed.

Lemma marked_mentionsFailure t : failureMarker t = true -> mentionsFailure t.
Proof.
  unfold mentionsFailure.
  induction t as [|c t IH]; cbn [failureMarker]; intros Ht.
  - rewrite orb_false_r in Ht. done.
  - apply orb_true_iff in Ht as [Ht|Ht].
    + unfold marker_at in Ht.
      apply orb_true_iff in Ht as [Ht|Ht];
        [apply orb_true_iff in Ht as [Ht|Ht]|].
      * (* the bracketed form holds the plain one *)
        left. cbn [marker_bracketed] in Ht.
        apply andb_true_iff in Ht as [_ Ht].
        apply andb_true_iff in Ht as [Ht _].
        destruct (trimStart_split t) as (ws & _ & Hsplit).
        apply includes_cons. rewrite Hsplit.
        by apply includes_app_l, includes_startsWith.
      * left. by apply includes_startsWith.
      * right. unfold marker_english in Ht.
        apply andb_true_iff in Ht as [Hx Hy].
        apply startsWith_i_spells in Hx as (x & rest & Hs & Hx).
        pose proof (spells_length _ _ Hx) as Hlen.
        rewrite Hs in Hy.
        replace 11%nat with (length x) in Hy by (by rewrite Hlen).
        rewrite drop_app_length in Hy.
        destruct (trimStart_split rest) as (ws & Hws & Hsplit).
        apply startsWith_i_spells in Hy as (y & post & Hr & Hy).
        exists [], x, ws, y, post. split_and!; try done.
        cbn [app]. by rewrite Hs, Hsplit, Hr.
    + destruct (IH Ht) as [Hzh|(pre & x & ws & y & post & -> & ?)].
      * left. by apply includes_cons.
      * right. by exists (c :: pre), x, ws, y, post.
Qed.

Lemma mentionsFailure_marked t : mentionsFailure t -> failureMarker t = true.
Proof.
  intros [Hzh|(pre & x & ws & y & post & -> & Hx & Hws & Hy)].
  - by apply failureMarker_includes_zh.
  - apply failureMarker_app_l, failureMarker_at.
    unfold marker_at. rewrite marker_english_spelled by done.
    apply orb_true_r.
Qed.

(** The pattern of the failure marker, read declaratively: a text is
    marked exactly if it contains the four Chinese characters, or the
    word "translation" followed after any white space by "failed", in
    any case.  The bracketed alternative of the pattern adds nothing. *)
Theorem failureMarker_reads (t : jsstring) :
  failureMarker t = true <-> mentionsFailure t.
Proof.
  split; [apply marked_mentionsFailure|apply mentionsFailure_marked].
Qed.

(** A marked text stays marked inside any other text. *)
Lemma failureMarker_in_context pre t post :
  failureMarker t = true -> failureMarker (pre ++ t ++ post) = true.
Proof.
  intros Ht. apply mentionsFailure_marked.
  apply marked_mentionsFailure in Ht
    as [Hzh|(a & x & ws & y & b & -> & Hx & Hws & Hy)].
  - left. apply includes_inv in Hzh as (a & b & ->).
    rewrite <- !app_assoc, app_assoc. apply includes_intro.
  - right. exists (pre ++ a), x, ws, y, (b ++ post).
    split_and!; try done. by rewrite <- !app_assoc.
Qed.

(** What the cache refuses, the verification of [processBatch] has
    refused before. *)
Lemma reportsFailure_marked t :
  reportsFailure t = true -> failureMarker (translated t) = true.
Proof.
  unfold reportsFailure. intros Ht.
  destruct (translated t) as [|c text]; [done|].
  apply mentionsFailure_marked.
  apply orb_true_iff in Ht as [Ht|Ht].
  - left. apply includes_inv in Ht as (a & b & ->).
    change (91%N :: fanyi_shibai) with ([91%N] ++ fanyi_shibai).
    rewrite <- !app_assoc, app_assoc. apply includes_intro.
  - right. apply includes_inv in Ht as (a & b & ->).
    exists a, (js "Translation"), (js " "), (js "failed"), b.
    split_and!; try done. by repeat constructor.
Qed.

Lemma hasFailure_unmarked (l : list TranslationResult) :
  Forall (fun t => failureMarker (translated t) = false) l ->
  hasFailure l = false.
Proof.
  intros Hl. unfold hasFailure.
  apply not_true_is_false. intros Hex.
  apply existsb_exists in Hex as (t & Hin & Ht).
  rewrite Forall_forall in Hl. apply list_elem_of_In in Hin.
  specialize (Hl t Hin). cbn beta in Hl.
  apply reportsFailure_marked in Ht. congruence.
Qed.

(** The converse fails: the verification is the stricter test. *)
Example verification_is_stricter :
  failureMarker (js "translation failed") = true
  /\ hasFailure [mkResult [] (js "translation failed")] = false.
Proof. split; reflexivity. Qed.

(** ** What no run does *)

Section Sound.
Context `{Runtime}.
Variable n : nat.
Variable Rq : ChatCompletionRequest -> Prop.

Lemma sound_bind {A B} (R1 : A -> Prop) (R : B -> Prop) T p
    (f : A -> Async B) :
  sound n Rq R1 T p -> (forall a, R1 a -> sound n Rq R T (f a)) ->
  sound n Rq R T (bind p f).
Proof.
  intros Hp Hf. induction Hp; cbn [bind]; try (by constructor); auto.
Qed.

Lemma sound_try_catch {A} (R : A -> Prop) (T1 T : JsError -> Prop) p
    (h : JsError -> Async A) :
  sound n Rq R T1 p -> (forall e, T1 e -> sound n Rq R T (h e)) ->
  sound n Rq R T (try_catch p h).
Proof.
  intros Hp Hh. induction Hp; cbn [try_catch]; try (by constructor); auto.
Qed.

Lemma sound_weaken {A} (R R' : A -> Prop) (T T' : JsError -> Prop) p :
  (forall a, R a -> R' a) -> (forall e, T e -> T' e) ->
  sound n Rq R T p -> sound n Rq R' T' p.
Proof.
  intros HR HT Hp. induction Hp; try (by constructor); constructor; auto.
Qed.

Lemma sound_translateText config t lang :
  Rq (translateRequest config t) ->
  sound n Rq (fun _ => True) (fun _ => True) (translateText config t lang).
Proof.
  intros Hreq. unfold translateText, chatCompletion.
  constructor; [done|]. intros [text|e]; by constructor.
Qed.

Lemma sound_translateSequential config ts lang :
  Forall (fun t => Rq (translateRequest config t)) ts ->
  sound n Rq (fun _ => True) (fun _ => True)
        (translateSequential config ts lang).
Proof.
  induction 1 as [|t ts Ht _ IH]; cbn [translateSequential].
  - by constructor.
  - eapply sound_bind; [by apply sound_translateText|]. intros r _.
    eapply sound_bind; [exact IH|]. intros rs _. by constructor.
Qed.

Lemma sound_translateBatch config ts lang :
  Forall (fun t => Rq (translateRequest config t)) ts ->
  ((2 <= length ts)%nat -> Rq (batchRequest ts lang)) ->
  sound n Rq (fun _ => True) (fun _ => True) (translateBatch config ts lang).
Proof.
  intros Hts Hbatch. unfold translateBatch.
  destruct ts as [|t [|t' ts]].
  - by constructor.
  - apply Forall_cons in Hts as [Ht _].
    eapply sound_bind; [by apply sound_translateText|]. intros r _.
    by constructor.
  - unfold chatCompletion. cbn [bind].
    constructor; [apply Hbatch; cbn [length]; lia|].
    intros [raw|e]; cbn [bind]; [|by constructor].
    destruct (parseBatch _ _); [by constructor|].
    by apply sound_translateSequential.
Qed.

Lemma unmarked_nil : failureMarker [] = false.
Proof. reflexivity. Qed.

Lemma unmarked_nth (l : list jsstring) j :
  Forall (fun t => failureMarker t = false) l ->
  failureMarker (nth j l []) = false.
Proof.
  intros Hl. revert j.
  induction Hl as [|t l Ht _ IH]; intros [|j]; cbn [nth]; done.
Qed.

Lemma sound_updateResults (R : unit -> Prop) T cb l j idxs :
  R tt ->
  Forall (fun i => i < n)%nat idxs ->
  Forall (fun t => failureMarker t = false) l ->
  sound n Rq R T (updateResults cb l j idxs).
Proof.
  intros HR Hidx Hl. revert j.
  induction Hidx as [|i idxs Hi _ IH]; intros j; cbn [updateResults].
  - by constructor.
  - unfold assignTranslated, notify. cbn [bind].
    pose proof (unmarked_nth l j Hl) as Hnth.
    constructor; [done|done|]. cbn [bind].
    destruct cb; cbn [bind]; [|apply IH].
    constructor. intros [|]; cbn [bind]; [apply IH|].
    constructor; [done|done|]. cbn [bind]. apply IH.
Qed.

Lemma sound_verified_update (R : unit -> Prop) cb l idxs :
  R tt ->
  Forall (fun i => i < n)%nat idxs ->
  sound n Rq R (fun _ => True)
        (verifyContent l ;;; updateResults cb l 0 idxs).
Proof.
  intros HR Hidx. unfold verifyContent.
  destruct (List.find failureMarker l) as [t|] eqn:Hfind; cbn [bind].
  - by constructor.
  - apply sound_updateResults; [done|done|].
    apply Forall_forall. intros t Ht. apply list_elem_of_In in Ht.
    apply not_true_is_false. intros Hm.
    by eapply (find_none _ _ Hfind) in Ht; rewrite Hm in Ht.
Qed.

Lemma sound_markEmpty (R : unit -> Prop) T idxs :
  R tt -> Forall (fun i => i < n)%nat idxs ->
  sound n Rq R T (markEmpty idxs).
Proof.
  intros HR. induction 1 as [|i idxs Hi _ IH]; cbn [markEmpty].
  - by constructor.
  - unfold assignTranslated. cbn [bind].
    constructor; [done|apply unmarked_nil|]. cbn [bind]. apply IH.
Qed.

Lemma sound_attempt config cb lang b :
  Forall (fun t => Rq (translateRequest config t)) (texts b) ->
  ((2 <= length (texts b))%nat -> Rq (batchRequest (texts b) lang)) ->
  Forall (fun i => i < n)%nat (indices b) ->
  sound n Rq (fun _ => True) (fun _ => True) (attempt config cb lang b).
Proof.
  intros Hts Hbatch Hidx. unfold attempt.
  eapply sound_bind; [by apply sound_translateBatch|]. intros l _.
  by apply sound_verified_update.
Qed.

Lemma cancels_Aborted : cancels (Error (js "Aborted")).
Proof. reflexivity. Qed.

Lemma sound_retryLoop config cb lang b fuel retryCount :
  Forall (fun t => Rq (translateRequest config t)) (texts b) ->
  ((2 <= length (texts b))%nat -> Rq (batchRequest (texts b) lang)) ->
  Forall (fun i => i < n)%nat (indices b) ->
  soundTask n Rq (retryLoop fuel config cb lang b retryCount).
Proof.
  intros Hts Hbatch Hidx. unfold soundTask. revert retryCount.
  induction fuel as [|fuel IH]; intros retryCount; cbn [retryLoop].
  - constructor.
  - constructor. intros [|]; [constructor; apply cancels_Aborted|].
    eapply sound_try_catch; [by apply sound_attempt|].
    intros e _. destruct (isAbort e) eqn:He; [by constructor|].
    destruct (maxRetries <? S retryCount)%nat.
    + by apply sound_markEmpty.
    + constructor. apply IH.
Qed.

Lemma sound_processBatch config cb lang b :
  Forall (fun t => Rq (translateRequest config t)) (texts b) ->
  ((2 <= length (texts b))%nat -> Rq (batchRequest (texts b) lang)) ->
  Forall (fun i => i < n)%nat (indices b) ->
  soundTask n Rq (processBatch config cb lang b).
Proof.
  intros Hts Hbatch Hidx. unfold processBatch.
  constructor. intros [|]; [by constructor|]. by apply sound_retryLoop.
Qed.

Lemma setTranslated_unmarked i t rs rs' :
  failureMarker t = false ->
  Forall (fun r => failureMarker (translated r) = false) rs ->
  setTranslated i t rs = Some rs' ->
  Forall (fun r => failureMarker (translated r) = false) rs'.
Proof.
  intros Ht Hrs. unfold setTranslated.
  destruct (rs !! i) as [r|]; [|done]. intros [= <-].
  by apply Forall_insert.
Qed.

(** A sound task keeps the world sound up to its next [await]. *)
Lemma advance_sound p w :
  soundTask n Rq p -> soundWorld n Rq w ->
  soundWorld n Rq (advance p w).1 /\ soundStatus n Rq (advance p w).2.
Proof.
  unfold soundTask. intros Hp. revert w.
  induction Hp as [a _|e He|req k Hreq Hk _|ms k Hk _|k _ IH
                  |i t k Hi Ht _ IH|i t k Hi Ht _ IH|];
    intros w Hw; cbn [advance fst snd soundStatus]; try done.
  - split; [|done].
    destruct Hw as (Hlen & Hres & Hrep & Hreq'). unfold soundWorld, send.
    cbn [results reported requests]. split_and!; try done.
    apply Forall_app. split; [done|]. by apply Forall_singleton.
  - apply IH. done.
  - destruct Hw as (Hlen & Hres & Hrep & Hreq').
    destruct (setTranslated_in_range i t (results w)) as [rs Hset];
      [by rewrite Hlen|].
    rewrite Hset. apply IH. unfold soundWorld. cbn [results reported requests].
    split_and!; try done.
    + apply setTranslated_shape in Hset as [_ ->]. done.
    + by eapply setTranslated_unmarked.
  - apply IH. destruct Hw as (Hlen & Hres & Hrep & Hreq').
    unfold soundWorld. cbn [results reported requests].
    split_and!; try done.
    apply Forall_app. split; [done|]. by apply Forall_singleton.
Qed.

End Sound.

Section SoundRuns.
Context `{Runtime}.
Variable c : Call.

Lemma plan_batch_sound b :
  b ∈ plan c ->
  soundTask (length (paragraphs c)) (expected c)
            (processBatch (config c) (onParagraphTranslated c) (targetLang c) b).
Proof.
  intros Hb. apply sound_processBatch.
  - pose proof (createBatches_aligned (maxBatchSize c) (maxTextLen c)
                  (paragraphs c)) as Hal.
    rewrite Forall_forall in Hal. specialize (Hal b Hb).
    unfold aligned in Hal.
    apply Forall_forall. intros t Ht.
    apply list_elem_of_lookup in Ht as [j Hj].
    destruct (Forall2_lookup_r _ _ _ _ _ Hal Hj) as (i & _ & Hi).
    left. exists t. split; [|done]. by eapply list_elem_of_lookup_2.
  - intros Hlen. right. by exists b.
  - pose proof (createBatches_in_range (maxBatchSize c) (maxTextLen c)
                  (paragraphs c)) as Hr.
    rewrite Forall_forall in Hr. by apply Hr.
Qed.

Lemma firstFailed_sound n Rq a e :
  Forall (fun x => soundStatus n Rq x.2) a -> firstFailed a = Some e ->
  cancels e.
Proof.
  induction 1 as [|[i st] a Hst _ IH]; cbn [firstFailed]; [done|].
  destruct st; try exact IH. intros [= <-]. exact Hst.
Qed.

Lemma awaitRace_sound n Rq a e :
  Forall (fun x => soundStatus n Rq x.2) a -> awaitRace a = Threw e ->
  cancels e.
Proof.
  intros Ha. unfold awaitRace. destruct (firstFailed a) as [e'|] eqn:Hf; [|done].
  intros [= <-]. by eapply firstFailed_sound.
Qed.

Lemma awaitAll_sound n Rq a e :
  Forall (fun x => soundStatus n Rq x.2) a -> awaitAll a = Threw e ->
  cancels e.
Proof.
  intros Ha. unfold awaitAll. destruct (firstFailed a) as [e'|] eqn:Hf.
  - intros [= <-]. by eapply firstFailed_sound.
  - by destruct a.
Qed.

Lemma settle_sound tid o at_ e :
  (forall e', o = Some e' -> cancels e') ->
  (forall e', at_ = Threw e' -> cancels e') ->
  settle tid o at_ = Threw e -> cancels e.
Proof.
  intros Ho Hat. unfold settle.
  destruct at_ as [| |snapshot|waiting| |e0]; try done.
  - destruct (memId tid snapshot); [|done].
    destruct o as [e'|]; [|done]. intros [= <-]. by apply Ho.
  - destruct (memId tid waiting); [|done].
    destruct o as [e'|].
    + intros [= <-]. by apply Ho.
    + by destruct (removeId tid waiting).
  - intros [= <-]. by apply Hat.
Qed.

Lemma resume_sound tid p m :
  soundMachine c m ->
  soundTask (length (paragraphs c)) (expected c) p ->
  soundMachine c (resume tid p m).
Proof.
  intros (Hw & Ha & Hq & Hpc) Hp.
  destruct (resume_fields tid p m) as (Ew & Eq & Ea & _ & Epc).
  destruct (advance_sound _ _ p (world m) Hp Hw) as [Hw' Hst].
  unfold soundMachine. rewrite Ew, Eq, Ea, Epc. split_and!; try done.
  - by apply setStatus_Forall.
  - destruct (advance p (world m)).2 as [k|k| |e0|] eqn:Hadv; try done.
    intros e. apply settle_sound; [|done]. by intros e' [= <-].
Qed.

Lemma step_sound ev m m' :
  soundMachine c m -> step c ev m = Some m' -> soundMachine c m'.
Proof.
  intros Hm Hstep. pose proof Hm as (Hw & Ha & Hq & Hpc).
  destruct ev as [|tid r|tid|tid|]; cbn [step] in Hstep.
  - apply mainStep_inv in Hstep
      as [(Ew & Eq & Ea & _ & Hcase)
         |(b & rest & _ & Eq0 & _ & Ew & Eq & Ea & _ & Epc)].
    + unfold soundMachine. rewrite Ew, Eq, Ea. split_and!; try done.
      intros e He.
      destruct Hcase as [(_ & _ & Epc)|[(_ & _ & _ & Epc)|(_ & _ & _ & Epc)]];
        rewrite Epc in He.
      * by eapply awaitAll_sound.
      * done.
      * by eapply awaitRace_sound.
    + rewrite Eq0 in Hq. apply Forall_cons in Hq as [Hb Hrest].
      destruct (advance_sound _ _ _ (world m) (plan_batch_sound b Hb) Hw)
        as [Hw' Hst].
      unfold soundMachine. rewrite Ew, Eq, Ea, Epc. split_and!; try done.
      apply Forall_app. split; [done|]. by apply Forall_singleton.
  - destruct (statusOf tid _) as [[k|k| | |]|] eqn:Hst; try done.
    injection Hstep as <-.
    destruct (statusOf_Forall _ _ _ _ Ha Hst) as [i Hk]. cbn in Hk.
    by apply resume_sound.
  - destruct (statusOf tid _) as [[k|k| | |]|] eqn:Hst; try done.
    injection Hstep as <-.
    destruct (statusOf_Forall _ _ _ _ Ha Hst) as [i Hk]. cbn in Hk.
    by apply resume_sound.
  - destruct (statusOf tid _) as [[k|k| | |]|] eqn:Hst; try done.
    injection Hstep as <-. unfold soundMachine.
    cbn [world queue activePromises pc]. split_and!; try done.
    + by apply splice_Forall.
    + intros e. by apply settle_sound.
  - injection Hstep as <-. unfold soundMachine.
    cbn [world queue activePromises pc]. split_and!; try done.
Qed.

Lemma start_sound ab : soundMachine c (start c ab).
Proof.
  unfold soundMachine, start, soundWorld.
  cbn [world queue activePromises pc results reported requests].
  split_and!; try done.
  - by rewrite length_map.
  - apply Forall_map. by apply Forall_true.
  - by apply Forall_forall.
Qed.

Lemma reachable_sound ab m : reachable c ab m -> soundMachine c m.
Proof.
  intros [evs Hevs].
  eapply (steps_invariant c (soundMachine c)); [| |exact Hevs].
  - intros ev m1 m2. apply step_sound.
  - apply start_sound.
Qed.

End SoundRuns.

(** Whatever the service answers and whenever the signal is aborted, the
    only exceptions a call lets out are the ones its [catch] block takes
    for a cancellation: an error named [AbortError], or one whose message
    contains "Abort".  Every other failure of a batch ends in retries or
    in empty translations. *)
Theorem only_cancellations_escape `{Runtime} (c : Call) (ab : bool)
    (m : Machine) (e : JsError) :
  reachable c ab m ->
  outcome m = Exception e ->
  isAbort e = true.
Proof.
  intros Hm Hout. destruct (reachable_sound c ab m Hm) as (_ & _ & _ & Hpc).
  apply Hpc. unfold outcome in Hout. by destruct (pc m); simplify_eq.
Qed.

Lemma only_cancellations_escape_witness :
  let reply := js "Translation failed: Aborted by upstream" in
  let m := run (H:=plainRuntime) exampleCall
               (scripted [Resolved reply; Resolved (js "Success")])
               (runBound exampleCall) (start exampleCall false) in
  isAbort (Error (js "Content verification failed: " ++ reply)) = true.
Proof.
  intros reply m.
  apply (only_cancellations_escape (H:=plainRuntime) exampleCall false m).
  - apply run_reachable.
  - vm_compute. reflexivity.
Defined.

(** No translation that carries the failure marker is ever stored in
    [results] or handed to [onParagraphTranslated], every callback names
    a paragraph of the call, and so nothing a run produces is refused by
    the failure check of the translation cache. *)
Theorem marked_text_never_gets_through `{Runtime} (c : Call) (ab : bool)
    (m : Machine) :
  reachable c ab m ->
  Forall (fun r => failureMarker (translated r) = false) (results (world m))
  /\ Forall (fun it => (it.1 < length (paragraphs c))%nat
                       /\ failureMarker it.2 = false) (reported (world m))
  /\ hasFailure (results (world m)) = false.
Proof.
  intros Hm.
  destruct (reachable_sound c ab m Hm) as ((_ & Hres & Hrep & _) & _).
  split_and!; [done|done|].
  by apply hasFailure_unmarked.
Qed.

Lemma marked_text_never_gets_through_witness :
  let m := run (H:=plainRuntime) exampleCall
               (scripted [Resolved (js "Translation Failed");
                          Resolved (js "Success")])
               (runBound exampleCall) (start exampleCall false) in
  Forall (fun r => failureMarker (translated r) = false) (results (world m))
  /\ Forall (fun it => (it.1 < length (paragraphs exampleCall))%nat
                       /\ failureMarker it.2 = false) (reported (world m))
  /\ hasFailure (results (world m)) = false.
Proof.
  intros m.
  apply (marked_text_never_gets_through (H:=plainRuntime) exampleCall false m).
  apply run_reachable.
Defined.

(** Every request a call sends is one it planned: the text of one of its
    paragraphs for [translateText], or the texts of a planned batch of at
    least two paragraphs as one array.  No other text ever leaves. *)
Theorem requests_are_planned `{Runtime} (c : Call) (ab : bool) (m : Machine)
    (req : ChatCompletionRequest) :
  reachable c ab m ->
  req ∈ requests (world m) ->
  (exists p, p ∈ paragraphs c /\ req = translateRequest (config c) p)
  \/ (exists b, b ∈ createBatches (maxBatchSize c) (maxTextLen c) (paragraphs c)
                /\ (2 <= length (texts b))%nat
                /\ req = batchRequest (texts b) (targetLang c)).
Proof.
  intros Hm Hreq.
  destruct (reachable_sound c ab m Hm) as ((_ & _ & _ & Hreqs) & _).
  rewrite Forall_forall in Hreqs. by apply Hreqs.
Qed.

Lemma requests_are_planned_witness :
  let m := run (H:=plainRuntime) exampleCall serviceDown 3
               (start exampleCall false) in
  let req := translateRequest (H:=plainRuntime) exampleConfig (js "Hello") in
  (exists p, p ∈ paragraphs exampleCall
             /\ req = translateRequest (H:=plainRuntime) (config exampleCall) p)
  \/ (exists b, b ∈ createBatches (maxBatchSize exampleCall)
                      (maxTextLen exampleCall) (paragraphs exampleCall)
                /\ (2 <= length (texts b))%nat
                /\ req = batchRequest (H:=plainRuntime) (texts b)
                                      (targetLang exampleCall)).
Proof.
  intros m req.
  apply (requests_are_planned (H:=plainRuntime) exampleCall false m req).
  - apply run_reachable.
  - vm_compute. apply list_elem_of_here.
Defined.

(** ** No callback after a cancellation *)

Section Discreet.
Context `{Runtime}.

Lemma discreet_bind {A B} (p : Async A) (f : A -> Async B) :
  discreet p -> (forall a, discreet (f a)) -> discreet (bind p f).
Proof.
  intros Hp Hf.
  induction Hp as [a|e|req k _ IH|ms k _ IH|k _ IH|k i t k' _ IH1 Hk _ IH2
                  |i t k _ IH|]; cbn [bind]; try (by constructor); auto.
  eapply discreet_ReadThenCallback; [exact IH1| |exact IH2].
  by rewrite Hk.
Qed.

Lemma discreet_try_catch {A} (p : Async A) (h : JsError -> Async A) :
  discreet p -> (forall e, discreet (h e)) -> discreet (try_catch p h).
Proof.
  intros Hp Hh.
  induction Hp as [a|e|req k _ IH|ms k _ IH|k _ IH|k i t k' _ IH1 Hk _ IH2
                  |i t k _ IH|]; cbn [try_catch]; try (by constructor); auto.
  eapply discreet_ReadThenCallback; [exact IH1| |exact IH2].
  by rewrite Hk.
Qed.

Lemma discreet_translateText config t lang :
  discreet (translateText config t lang).
Proof. constructor. intros [text|e]; constructor. Qed.

Lemma discreet_translateSequential config ts lang :
  discreet (translateSequential config ts lang).
Proof.
  induction ts as [|t ts IH]; cbn [translateSequential]; [constructor|].
  apply discreet_bind; [apply discreet_translateText|]. intros r.
  apply discreet_bind; [exact IH|]. constructor.
Qed.

Lemma discreet_translateBatch config ts lang :
  discreet (translateBatch config ts lang).
Proof.
  unfold translateBatch. destruct ts as [|t [|t' ts]].
  - constructor.
  - apply discreet_bind; [apply discreet_translateText|]. constructor.
  - apply discreet_bind; [constructor; intros [raw|e]; constructor|].
    intros raw. destruct (parseBatch _ _); [constructor|].
    apply discreet_translateSequential.
Qed.

Lemma discreet_notify cb i t : discreet (notify cb i t).
Proof.
  unfold notify. destruct cb; [|constructor].
  eapply discreet_ReadThenCallback; [|reflexivity|]; constructor.
Qed.

Lemma discreet_assignTranslated i t : discreet (assignTranslated i t).
Proof. constructor. intros [|]; constructor. Qed.

Lemma discreet_updateResults cb l j idxs :
  discreet (updateResults cb l j idxs).
Proof.
  revert j. induction idxs as [|i idxs IH]; intros j; cbn [updateResults].
  - constructor.
  - apply discreet_bind; [apply discreet_assignTranslated|]. intros _.
    apply discreet_bind; [apply discreet_notify|]. intros _. apply IH.
Qed.

Lemma discreet_markEmpty idxs : discreet (markEmpty idxs).
Proof.
  induction idxs as [|i idxs IH]; cbn [markEmpty]; [constructor|].
  apply discreet_bind; [apply discreet_assignTranslated|]. by intros _.
Qed.

Lemma discreet_attempt config cb lang b : discreet (attempt config cb lang b).
Proof.
  unfold attempt.
  apply discreet_bind; [apply discreet_translateBatch|]. intros l.
  apply discreet_bind; [|intros _; apply discreet_updateResults].
  unfold verifyContent. destruct (List.find _ _); constructor.
Qed.

Lemma discreet_retryLoop config cb lang b fuel retryCount :
  discreet (retryLoop fuel config cb lang b retryCount).
Proof.
  revert retryCount. induction fuel as [|fuel IH]; intros retryCount;
    cbn [retryLoop]; [constructor|].
  constructor. intros [|]; [constructor|].
  apply discreet_try_catch; [apply discreet_attempt|].
  intros e. destruct (isAbort e); [constructor|].
  destruct (_ <? _)%nat; [apply discreet_markEmpty|].
  constructor. apply IH.
Qed.

Lemma discreet_processBatch config cb lang b :
  discreet (processBatch config cb lang b).
Proof.
  unfold processBatch. constructor. intros [|]; [constructor|].
  apply discreet_retryLoop.
Qed.

(** Up to its next [await], a discreet task makes no callback if the
    signal is aborted. *)
Lemma advance_discreet (p : Async unit) w :
  discreet p ->
  discreetStatus (advance p w).2
  /\ (aborted w = true -> reported (advance p w).1 = reported w).
Proof.
  intros Hp. revert w.
  induction Hp as [a|e|req k Hk _|ms k Hk _|k _ IH|k i t k' _ IH1 Hk _ IH2
                  |i t k _ IH|]; intros w; cbn [advance fst snd discreetStatus];
    try done.
  - destruct (aborted w) eqn:Hab.
    + destruct (IH1 w) as [Hst Hrep]. split; [done|]. intros _. by apply Hrep.
    + rewrite Hk. cbn [advance]. split; [apply IH2|done].
  - destruct (setTranslated i t (results w)) as [rs|]; [|apply IH].
    destruct (IH true (mkWorld rs (aborted w) (requests w) (reported w)))
      as [Hst Hrep]. done.
Qed.

Variable c : Call.

Lemma step_discreet ev m m' :
  Forall (fun e => discreetStatus e.2) (activePromises m) ->
  step c ev m = Some m' ->
  Forall (fun e => discreetStatus e.2) (activePromises m')
  /\ (aborted (world m) = true ->
      aborted (world m') = true
      /\ reported (world m') = reported (world m)).
Proof.
  intros Ha Hstep.
  assert (Hresume : forall tid p,
            discreet p ->
            Forall (fun e => discreetStatus e.2)
                   (activePromises (resume tid p m))
            /\ (aborted (world m) = true ->
                aborted (world (resume tid p m)) = true
                /\ reported (world (resume tid p m)) = reported (world m))).
  { intros tid p Hp.
    destruct (resume_fields tid p m) as (Ew & _ & Ea & _).
    destruct (advance_discreet p (world m) Hp) as [Hst Hrep].
    destruct (advance_shape p (world m)) as [_ Hab].
    rewrite Ew, Ea. split; [by apply setStatus_Forall|].
    intros Habort. rewrite Hab. auto. }
  destruct ev as [|tid r|tid|tid|]; cbn [step] in Hstep.
  - apply mainStep_inv in Hstep
      as [(Ew & _ & Ea & _)|(b & rest & _ & _ & _ & Ew & _ & Ea & _)];
      rewrite Ew, Ea; [done|].
    destruct (advance_discreet _ (world m)
                (discreet_processBatch (config c) (onParagraphTranslated c)
                                       (targetLang c) b)) as [Hst Hrep].
    destruct (advance_shape
                (processBatch (config c) (onParagraphTranslated c)
                              (targetLang c) b) (world m)) as [_ Hab].
    split.
    + apply Forall_app. split; [done|]. by apply Forall_singleton.
    + intros Habort. rewrite Hab. auto.
  - destruct (statusOf tid _) as [[k|k| | |]|] eqn:Hst; try done.
    injection Hstep as <-.
    destruct (statusOf_Forall _ _ _ _ Ha Hst) as [i Hk]. cbn in Hk.
    by apply Hresume.
  - destruct (statusOf tid _) as [[k|k| | |]|] eqn:Hst; try done.
    injection Hstep as <-.
    destruct (statusOf_Forall _ _ _ _ Ha Hst) as [i Hk]. cbn in Hk.
    by apply Hresume.
  - destruct (statusOf tid _) as [[k|k| | |]|] eqn:Hst; try done.
    injection Hstep as <-. cbn [world activePromises].
    split; [by apply splice_Forall|done].
  - injection Hstep as <-. cbn [world activePromises aborted reported]. done.
Qed.

Lemma reachable_discreet ab m :
  reachable c ab m -> Forall (fun e => discreetStatus e.2) (activePromises m).
Proof.
  intros [evs Hevs].
  eapply (steps_invariant c
            (fun m => Forall (fun e => discreetStatus e.2) (activePromises m)));
    [| |exact Hevs].
  - intros ev m1 m2 Hm1 Hstep. by destruct (step_discreet ev m1 m2 Hm1 Hstep).
  - constructor.
Qed.

Lemma steps_after evs m :
  (if steps c evs m is Some _ then true else false) = true ->
  steps c evs m = Some (after c evs m).
Proof. unfold after. by destruct (steps c evs m). Qed.

End Discreet.

(** Once the signal is aborted, [onParagraphTranslated] is never called
    again, whatever completions still arrive for the requests in flight;
    the signal stays aborted. *)
Theorem no_callback_after_cancellation `{Runtime} (c : Call) (ab : bool)
    (m m' : Machine) (evs : list Event) :
  reachable c ab m ->
  aborted (world m) = true ->
  steps c evs m = Some m' ->
  reported (world m') = reported (world m) /\ aborted (world m') = true.
Proof.
  intros Hm Hab Hsteps.
  pose proof (reachable_discreet c ab m Hm) as Hd.
  apply (steps_invariant c
           (fun m1 => Forall (fun e => discreetStatus e.2) (activePromises m1)
                      /\ reported (world m1) = reported (world m)
                      /\ aborted (world m1) = true) evs m m');
    [|done|done].
  intros ev m1 m2 (Hd1 & Hrep1 & Hab1) Hstep.
  destruct (step_discreet c ev m1 m2 Hd1 Hstep) as [Hd2 Hkeep].
  destruct (Hkeep Hab1) as [Hab2 Hrep2].
  split_and!; [done| |done]. by rewrite Hrep2.
Qed.

Lemma no_callback_after_cancellation_witness :
  let m := after (H:=plainRuntime) exampleCall [EvMain; EvMain; EvAbort]
                 (start exampleCall false) in
  let m' := after (H:=plainRuntime) exampleCall
                  [EvChat 0 (Resolved (js "Bonjour"))] m in
  (reported (world m') = reported (world m) /\ aborted (world m') = true)
  /\ map translated (results (world m')) = [js "Bonjour"]
  /\ reported (world m') = [].
Proof.
  intros m m'. split; [|split; vm_compute; reflexivity].
  apply (no_callback_after_cancellation (H:=plainRuntime) exampleCall false m m'
           [EvChat 0 (Resolved (js "Bonjour"))]).
  - unfold reachable. eexists.
    apply (steps_after (H:=plainRuntime) exampleCall [EvMain; EvMain; EvAbort]).
    vm_compute. reflexivity.
  - vm_compute. reflexivity.
  - apply (steps_after (H:=plainRuntime)). vm_compute. reflexivity.
Defined.

(** ** A successful attempt *)

Section Success.
Context `{Runtime}.
Variables (config : AiConfig) (cb : bool) (lang : TargetLang).





End Success.



(** ** Errors of the transport *)

Section Rejections.
Context `{Runtime}.
Variables (config : AiConfig) (lang : TargetLang).

Lemma translateSequential_rejected ts outs e rest w :
  (length outs < length ts)%nat ->
  runTask (translateSequential config ts lang)
          (map Resolved outs ++ Rejected e :: rest) w
  = Some (foldl (fun w t => send (translateRequest config t) w) w
                (take (S (length outs)) ts),
          Crashed e, rest).
Proof.
  revert outs w.
  induction ts as [|t ts IH]; intros outs w Hlen; [cbn in Hlen; lia|].
  cbn [translateSequential]. rewrite runTask_bind, runTask_translateText.
  destruct outs as [|o outs]; cbn [map app length take foldl].
  - by rewrite take_0.
  - rewrite runTask_bind. rewrite IH by (cbn in Hlen; lia). done.
Qed.

End Rejections.

(** [translateBatch] has no answer to a request that fails: the error of
    the first request of a batch is the error of the batch, with no
    fallback; and in the fallback the first text that fails ends it, the
    texts after it are not sent. *)
Theorem translateBatch_propagates_rejections `{Runtime} (config : AiConfig)
    (lang : TargetLang) (ts : list jsstring) (raw : jsstring)
    (outs : list jsstring) (e : JsError) (rest : list Completion) (w : World) :
  ts <> [] ->
  (length outs < length ts)%nat ->
  (exists w',
      runTask (translateBatch config ts lang) (Rejected e :: rest) w
      = Some (w', Crashed e, rest)
      /\ length (requests w') = S (length (requests w)))
  /\ ((2 <= length ts)%nat ->
      parseBatch (cleanResponse raw) (length ts) = None ->
      runTask (translateBatch config ts lang)
              (Resolved raw :: map Resolved outs ++ Rejected e :: rest) w
      = Some (foldl (fun w t => send (translateRequest config t) w)
                    (send (batchRequest ts lang) w)
                    (take (S (length outs)) ts),
              Crashed e, rest)).
Proof.
  intros Hne Hlen. split.
  - destruct ts as [|t [|t2 ts']]; [done| |].
    + eexists. cbn [translateBatch]. rewrite runTask_bind, runTask_translateText.
      split; [reflexivity|]. cbn. rewrite length_app. cbn. lia.
    + eexists. cbn [translateBatch]. rewrite runTask_bind.
      cbn [chatCompletion runTask].
      split; [reflexivity|]. cbn. rewrite length_app. cbn. lia.
  - intros H2 Hparse.
    destruct ts as [|t [|t2 ts']]; [done|cbn in H2; lia|].
    set (ts0 := t :: t2 :: ts') in *.
    unfold ts0 at 1. cbn [translateBatch]. fold ts0.
    rewrite runTask_bind. cbn [chatCompletion runTask]. rewrite Hparse.
    by apply translateSequential_rejected.
Qed.

Lemma translateBatch_propagates_rejections_witness :
  let e := Error (js "Chat completion failed: 500") in
  let w := world (start exampleCall false) in
  let ts := [js "a"; js "b"; js "c"] in
  (exists w',
      runTask (translateBatch (H:=plainRuntime) exampleConfig ts zh)
              [Rejected e] w = Some (w', Crashed e, [])
      /\ length (requests w') = S (length (requests w)))
  /\ ((2 <= length ts)%nat ->
      parseBatch (H:=plainRuntime) (cleanResponse (js "no")) (length ts) = None ->
      runTask (translateBatch (H:=plainRuntime) exampleConfig ts zh)
              (Resolved (js "no") :: map Resolved [js "x"] ++ Rejected e :: []) w
      = Some (foldl (fun w t => send (translateRequest (H:=plainRuntime)
                                        exampleConfig t) w)
                    (send (batchRequest (H:=plainRuntime) ts zh) w)
                    (take (S (length [js "x"])) ts),
              Crashed e, [])).
Proof.
  intros e w ts.
  apply (translateBatch_propagates_rejections (H:=plainRuntime) exampleConfig zh
           ts (js "no") [js "x"] e [] w).
  - discriminate.
  - vm_compute. lia.
Defined.

(** ** What the user is told *)

(** Whatever makes a call of [translateTextByParagraph] throw, the error
    handler of the article view stays silent about it: it tests the error
    the way [processBatch] does, and that test is what every escaping
    error has passed.  No alert is shown and the loading state is left
    as it is. *)
Theorem run_failures_are_silent `{Runtime} (c : Call) (ab : bool)
    (m : Machine) (e : JsError) (failed : jsstring) (current sameRun : bool) :
  reachable c ab m ->
  outcome m = Exception e ->
  handleTranslationError failed e current sameRun = mkReaction None false.
Proof.
  intros Hm Hout. destruct (reachable_sound c ab m Hm) as (_ & _ & _ & Hpc).
  assert (He : isAbort e = true).
  { apply Hpc. unfold outcome in Hout. by destruct (pc m); simplify_eq. }
  unfold handleTranslationError. unfold isAbort in He. by rewrite He.
Qed.

Lemma run_failures_are_silent_witness :
  let reply := js "Translation failed: Aborted by upstream" in
  let m := run (H:=plainRuntime) exampleCall
               (scripted [Resolved reply; Resolved (js "Success")])
               (runBound exampleCall) (start exampleCall false) in
  handleTranslationError (js "AI request failed")
    (Error (js "Content verification failed: " ++ reply)) true true
  = mkReaction None false.
Proof.
  intros reply m.
  apply (run_failures_are_silent (H:=plainRuntime) exampleCall false m).
  - apply run_reachable.
  - vm_compute. reflexivity.
Defined.

(** ** Markup *)

Lemma stripFrom_length b s : (length (stripFrom b s) <= length s)%nat.
Proof.
  revert b. induction s as [|c s IH]; intros b; cbn [stripFrom length]; [done|].
  destruct b.
  - destruct (c =? 62)%N; etrans; try apply IH; lia.
  - destruct ((c =? 60)%N && existsb (N.eqb 62) s).
    + etrans; [apply IH|lia].
    + cbn [length]. specialize (IH false). lia.
Qed.

(** Stripping invents no code unit. *)
Lemma stripFrom_existsb (P : N -> bool) b s :
  existsb P (stripFrom b s) = true -> existsb P s = true.
Proof.
  revert b. induction s as [|c s IH]; intros b; cbn [stripFrom existsb]; [done|].
  destruct b.
  - destruct (c =? 62)%N; intros Hs%IH; rewrite Hs; apply orb_true_r.
  - destruct ((c =? 60)%N && existsb (N.eqb 62) s).
    + intros Hs%IH. rewrite Hs. apply orb_true_r.
    + cbn [existsb]. intros [->|Hs%IH]%orb_true_iff; [done|].
      rewrite Hs. apply orb_true_r.
Qed.

Lemma stripFrom_stripped b s :
  stripFrom false (stripFrom b s) = stripFrom b s.
Proof.
  revert b. induction s as [|c s IH]; intros b; cbn [stripFrom]; [done|].
  destruct b.
  - destruct (c =? 62)%N; apply IH.
  - destruct ((c =? 60)%N && existsb (N.eqb 62) s) eqn:Htag; [apply IH|].
    cbn [stripFrom]. rewrite IH.
    destruct ((c =? 60)%N && existsb (N.eqb 62) (stripFrom false s)) eqn:Htag';
      [|done].
    apply andb_true_iff in Htag' as [Hc Hclose].
    apply stripFrom_existsb in Hclose. by rewrite Hc, Hclose in Htag.
Qed.

Lemma stripped_no_tag r a b :
  stripFrom false r = r -> r = a ++ 60%N :: b ->
  existsb (N.eqb 62) b = false.
Proof.
  revert r. induction a as [|x a IH]; intros r Hfix ->; cbn [app] in *.
  - cbn [stripFrom] in Hfix. cbn [N.eqb Pos.eqb andb] in Hfix.
    destruct (existsb (N.eqb 62) b) eqn:Hb; [|done].
    apply (f_equal length) in Hfix. cbn [length] in Hfix.
    pose proof (stripFrom_length true b). lia.
  - cbn [stripFrom] in Hfix.
    destruct ((x =? 60)%N && existsb (N.eqb 62) (a ++ 60%N :: b)).
    + apply (f_equal length) in Hfix. cbn [length] in Hfix.
      pose proof (stripFrom_length true (a ++ 60%N :: b)). lia.
    + injection Hfix as Hfix. by apply (IH (a ++ 60%N :: b)).
Qed.

(** Stripping the markup is final: what is left holds no [<] with a [>]
    after it, so that stripping again changes nothing; and nothing is
    ever added. *)
Theorem strip_is_final (s : jsstring) :
  strip (strip s) = strip s
  /\ (forall a b, strip s = a ++ 60%N :: b -> 62%N ∉ b)
  /\ (length (strip s) <= length s)%nat.
Proof.
  unfold strip. split_and!.
  - apply stripFrom_stripped.
  - intros a b Hs Hin.
    pose proof (stripped_no_tag _ a b (stripFrom_stripped false s) Hs) as Hb.
    assert (Htrue : existsb (N.eqb 62) b = true); [|congruence].
    apply existsb_exists. exists 62%N. split; [by apply list_elem_of_In|done].
  - apply stripFrom_length.
Qed.

(** ** The similarity score *)

Lemma countMatches_comm len a b : countMatches len a b = countMatches len b a.
Proof.
  revert a b. induction len as [|len IH]; intros a b; cbn [countMatches];
    [done|].
  destruct a as [|x a], b as [|y b]; try done.
  by rewrite (N.eqb_sym x y), IH.
Qed.

(** The score is a fraction between 0 and 1 that does not depend on the
    order of the two texts, nor on whether their markup has been stripped
    before. *)
Theorem similarity_is_symmetric (a b : jsstring) :
  calculateTextSimilarity a b = calculateTextSimilarity b a
  /\ calculateTextSimilarity (strip a) b = calculateTextSimilarity a b
  /\ (0 <= calculateTextSimilarity a b <= 1)%Q.
Proof.
  split_and!.
  - unfold calculateTextSimilarity.
    rewrite (Nat.min_comm (length (strip a)) (length (strip b))).
    by rewrite countMatches_comm.
  - unfold calculateTextSimilarity, strip. by rewrite stripFrom_stripped.
  - apply similarity_nonneg.
  - apply similarity_le_1.
Qed.

(** ** What the realignment executes *)

Lemma scanTexts_spec texts i used o best :
  let best' := scanTexts texts i used o best in
  best' = best
  \/ exists k t, texts !! k = Some t
                 /\ bestIdx best' = Z.of_nat (i + k)
                 /\ (i + k)%nat ∉ used.
Proof.
  revert i best. induction texts as [|t texts IH]; intros i best;
    cbn [scanTexts]; [by left|].
  assert (Hshift : forall best0,
            scanTexts texts (S i) used o best0 = best0
            \/ exists k t', (t :: texts) !! k = Some t'
                 /\ bestIdx (scanTexts texts (S i) used o best0)
                    = Z.of_nat (i + k)
                 /\ (i + k)%nat ∉ used).
  { intros best0. destruct (IH (S i) best0) as [Heq|(k & t' & Hk & Hidx & Hu)];
      [by left|right].
    exists (S k), t'. replace (i + S k)%nat with (S i + k)%nat by lia. done. }
  case_bool_decide as Hin; [apply Hshift|].
  destruct (Qltb _ _); [|apply Hshift].
  destruct (Hshift (mkBest (Z.of_nat i) (calculateTextSimilarity t o)))
    as [Heq|Hlater]; [|by right].
  right. exists 0%nat, t. rewrite Heq, Nat.add_0_r. done.
Qed.

Lemma bestMatch_fresh texts used o :
  0 <= bestIdx (bestMatch texts used o) ->
  (Z.to_nat (bestIdx (bestMatch texts used o)) < length texts)%nat
  /\ Z.to_nat (bestIdx (bestMatch texts used o)) ∉ used.
Proof.
  unfold bestMatch. intros Hpos.
  destruct (scanTexts_spec texts 0 used o (mkBest (-1) 0%Q))
    as [Heq|(k & t & Hk & Hidx & Hu)].
  - rewrite Heq in Hpos. cbn in Hpos. lia.
  - rewrite Hidx, Nat2Z.id. split; [|done].
    cbn [Nat.add]. by eapply lookup_lt_Some.
Qed.

Lemma insertedAt_app l1 l2 :
  insertedAt (l1 ++ l2) = insertedAt l1 ++ insertedAt l2.
Proof. unfold insertedAt. apply omap_app. Qed.

Lemma insertedTexts_app l1 l2 :
  insertedTexts (l1 ++ l2) = insertedTexts l1 ++ insertedTexts l2.
Proof. unfold insertedTexts. apply omap_app. Qed.

(** The invariant of the matching loop. *)
Lemma matchPair_inv texts st t :
  let inv st :=
    Forall (fun s => isGlobal s = false) (executed st)
    /\ NoDup (insertedAt (executed st))
    /\ (forall i, i ∈ used st <-> i ∈ insertedAt (executed st))
    /\ Forall (fun i => i < length texts)%nat (insertedAt (executed st)) in
  inv st -> inv (matchPair texts st t).
Proof.
  intros inv (Hg & Hnd & Hused & Hlt). unfold matchPair.
  destruct ((0 <=? bestIdx _) && Qle_bool (35 # 100) _) eqn:Hfound; [|done].
  apply andb_true_iff in Hfound as [Hpos _]. apply Z.leb_le in Hpos.
  destruct (bestMatch_fresh texts (used st) (original t) Hpos) as [Hin Hfresh].
  set (i := Z.to_nat (bestIdx (bestMatch texts (used st) (original t)))) in *.
  unfold inv. cbn [used executed]. rewrite insertedAt_app.
  change (insertedAt [InsertTranslation i (translated t)]) with [i].
  split_and!.
  - apply Forall_app. split; [done|]. by apply Forall_singleton.
  - apply NoDup_app. split_and!; [done| |apply NoDup_singleton].
    intros j Hj ->%list_elem_of_singleton. apply Hfresh. by apply Hused.
  - intros j. rewrite elem_of_union, elem_of_singleton, elem_of_app,
      list_elem_of_singleton. by rewrite Hused.
  - apply Forall_app. split; [done|]. by apply Forall_singleton.
Qed.

Lemma matchPairs_inv texts cached :
  let st := matchPairs texts cached in
  Forall (fun s => isGlobal s = false) (executed st)
  /\ NoDup (insertedAt (executed st))
  /\ (forall i, i ∈ used st <-> i ∈ insertedAt (executed st))
  /\ Forall (fun i => i < length texts)%nat (insertedAt (executed st)).
Proof.
  unfold matchPairs.
  assert (Hgen : forall st,
            (Forall (fun s => isGlobal s = false) (executed st)
             /\ NoDup (insertedAt (executed st))
             /\ (forall i, i ∈ used st <-> i ∈ insertedAt (executed st))
             /\ Forall (fun i => i < length texts)%nat
                       (insertedAt (executed st))) ->
            let st' := fold_left (matchPair texts) cached st in
            Forall (fun s => isGlobal s = false) (executed st')
            /\ NoDup (insertedAt (executed st'))
            /\ (forall i, i ∈ used st' <-> i ∈ insertedAt (executed st'))
            /\ Forall (fun i => i < length texts)%nat
                      (insertedAt (executed st'))).
  { induction cached as [|t cached IH]; intros st Hst; cbn [fold_left];
      [done|].
    apply IH. by apply matchPair_inv. }
  apply Hgen. cbn. split_and!; try done; [constructor|].
  intros i. by rewrite elem_of_nil, elem_of_empty.
Qed.

Lemma matchPairs_texts texts cached st :
  insertedTexts (executed (fold_left (matchPair texts) cached st))
  `sublist_of` insertedTexts (executed st) ++ map translated cached.
Proof.
  revert st. induction cached as [|t cached IH]; intros st; cbn [fold_left map].
  - by rewrite app_nil_r.
  - etrans; [apply IH|]. unfold matchPair.
    destruct (_ && _).
    + cbn [executed]. rewrite insertedTexts_app.
      change (insertedTexts [InsertTranslation _ (translated t)])
        with [translated t].
      by rewrite <- app_assoc.
    + apply sublist_app; [done|]. by apply sublist_cons.
Qed.

Lemma globalFallback_scripts cached :
  insertedAt (globalFallback cached) = []
  /\ insertedTexts (globalFallback cached) = [].
Proof. unfold globalFallback. by destruct (allTranslated cached). Qed.

(** Whatever the cache and the page hold, the realignment gives no
    fragment two translations and names no fragment the page does not
    have; the translations it inserts are translations of the cache, in
    the order of the cache; the global fallback is executed only when
    nothing was inserted; and if the cache is not empty the last script
    shows the translations. *)
Theorem realignment_is_injective (cached : list TranslationResult)
    (texts : list jsstring) :
  let scripts := injectCachedTranslations cached texts in
  NoDup (insertedAt scripts)
  /\ Forall (fun i => i < length texts)%nat (insertedAt scripts)
  /\ insertedTexts scripts `sublist_of` map translated cached
  /\ (existsb isGlobal scripts = true -> insertedAt scripts = [])
  /\ (cached <> [] -> last scripts = Some (SetTranslationVisibility true)).
Proof.
  intros scripts. subst scripts. unfold injectCachedTranslations.
  destruct cached as [|t0 cached0] eqn:Hc.
  { cbn. split_and!; try done; constructor. }
  rewrite <- Hc. clear Hc t0 cached0.
  destruct texts as [|x texts0] eqn:Ht.
  { destruct (globalFallback_scripts cached) as [Hat Htx].
    rewrite insertedAt_app, insertedTexts_app, Hat, Htx.
    change (insertedAt [SetTranslationVisibility true]) with (@nil nat).
    change (insertedTexts [SetTranslationVisibility true]) with (@nil jsstring).
    cbn [app].
    split_and!; try done; try constructor.
    - apply sublist_nil_l.
    - intros _. by rewrite last_snoc. }
  rewrite <- Ht. clear Ht x texts0.
  destruct (matchPairs_inv texts cached) as (Hg & Hnd & Hused & Hlt).
  pose proof (matchPairs_texts texts cached (mkMatching ∅ [])) as Hsub.
  fold (matchPairs texts cached) in Hsub. cbn [executed app] in Hsub.
  set (st := matchPairs texts cached) in *.
  destruct (globalFallback_scripts cached) as [Hat Htx].
  assert (Hshape : forall tail : list Script,
            insertedAt tail = [] -> insertedTexts tail = [] ->
            insertedAt (executed st ++ tail ++ [SetTranslationVisibility true])
            = insertedAt (executed st)
            /\ insertedTexts
                 (executed st ++ tail ++ [SetTranslationVisibility true])
               = insertedTexts (executed st)).
  { intros tail H1 H2.
    rewrite !insertedAt_app, !insertedTexts_app, H1, H2.
    change (insertedAt [SetTranslationVisibility true]) with (@nil nat).
    change (insertedTexts [SetTranslationVisibility true]) with (@nil jsstring).
    by rewrite !app_nil_r. }
  case_bool_decide as Hsize.
  - destruct (Hshape _ Hat Htx) as [-> ->].
    split_and!; try done.
    + intros _. apply size_empty_inv in Hsize.
      destruct (insertedAt (executed st)) as [|i l] eqn:Hl; [done|].
      assert (Hi : i ∈ used st) by (apply Hused; left).
      rewrite Hsize in Hi. by apply elem_of_empty in Hi.
    + intros _. by rewrite app_assoc, last_snoc.
  - destruct (Hshape [] eq_refl eq_refl) as [-> ->].
    split_and!; try done.
    + intros Hglob. exfalso.
      rewrite existsb_app in Hglob. cbn in Hglob. rewrite orb_false_r in Hglob.
      apply existsb_exists in Hglob as (s & Hin & Hs).
      rewrite Forall_forall in Hg. apply list_elem_of_In in Hin.
      by rewrite (Hg s Hin) in Hs.
    + intros _. by rewrite app_assoc, last_snoc.
Qed.

(** ** When and into what to translate *)

(** In the modes [auto], which is the default, and [nonTargetOnly], with
    Chinese or English as the target, a translation that is started never
    targets the language the sample is written in; in [auto] it is always
    started. *)
Theorem strategy_avoids_the_source_language
    (translateWhen translateTarget : option jsstring) (texts : list jsstring)
    (rootHTML : jsstring) :
  or_string translateWhen (js "auto") = js "auto"
  \/ (or_string translateWhen (js "auto") = js "nonTargetOnly"
      /\ (or_string translateTarget (js "zh") = js "zh"
          \/ or_string translateTarget (js "zh") = js "en")) ->
  let s := determineTranslationStrategy translateWhen translateTarget texts
             rootHTML in
  (or_string translateWhen (js "auto") = js "auto" -> shouldTranslate s = true)
  /\ (shouldTranslate s = true ->
      strategyTarget s = (if isZh s then js "en" else js "zh")).
Proof.
  intros Hmode s. subst s. unfold determineTranslationStrategy.
  cbn [shouldTranslate strategyTarget isZh].
  set (zhSample := hasHan _).
  destruct Hmode as [->|[-> [->| ->]]].
  - done.
  - split; [done|]. rewrite !bool_decide_eq_true_2 by done.
    rewrite bool_decide_eq_false_2 by done. by destruct zhSample.
  - split; [done|]. rewrite bool_decide_eq_true_2 by done.
    rewrite !bool_decide_eq_false_2 by done. by destruct zhSample.
Qed.

Lemma strategy_avoids_the_source_language_witness :
  let s := determineTranslationStrategy (Some (js "nonTargetOnly"))
             (Some (js "en")) [js "<p>hello</p>"] [] in
  (or_string (Some (js "nonTargetOnly")) (js "auto") = js "auto" ->
   shouldTranslate s = true)
  /\ (shouldTranslate s = true ->
      strategyTarget s = (if isZh s then js "en" else js "zh")).
Proof.
  intros s.
  apply (strategy_avoids_the_source_language (Some (js "nonTargetOnly"))
           (Some (js "en")) [js "<p>hello</p>"] []).
  right. split; [reflexivity|]. right. reflexivity.
Defined.

(** The other modes give no such guarantee: [zhOnly] with the default
    target has Chinese translated into Chinese. *)
Example zhOnly_targets_the_source_language :
  let s := determineTranslationStrategy (Some (js "zhOnly")) None
             [[20013; 25991]%N] [] in
  shouldTranslate s = true /\ isZh s = true /\ strategyTarget s = js "zh".
Proof. by split_and!. Qed.

(** ** The text that is summarised *)

Lemma stripped_suffix a r :
  stripFrom false (a ++ r) = a ++ r -> stripFrom false r = r.
Proof.
  induction a as [|x a IH]; [done|]. cbn [app stripFrom].
  destruct ((x =? 60)%N && existsb (N.eqb 62) (a ++ r)).
  - intros Hfix. apply (f_equal length) in Hfix. cbn [length] in Hfix.
    pose proof (stripFrom_length true (a ++ r)). lia.
  - intros [= Hfix]. by apply IH.
Qed.

Lemma stripped_prefix p q :
  stripFrom false (p ++ q) = p ++ q -> stripFrom false p = p.
Proof.
  induction p as [|x p IH]; [done|]. cbn [app stripFrom].
  destruct ((x =? 60)%N && existsb (N.eqb 62) (p ++ q)) eqn:Htag.
  - intros Hfix. apply (f_equal length) in Hfix. cbn [length] in Hfix.
    pose proof (stripFrom_length true (p ++ q)). lia.
  - intros [= Hfix]. rewrite (IH Hfix).
    destruct ((x =? 60)%N && existsb (N.eqb 62) p) eqn:Htag'; [|done].
    apply andb_true_iff in Htag' as [Hx Hp].
    rewrite Hx, existsb_app, Hp in Htag. done.
Qed.

Lemma trimEnd_split s : exists ws, s = trimEnd s ++ ws.
Proof.
  unfold trimEnd. destruct (trimStart_split (rev s)) as (ws & _ & Hs).
  exists (rev ws). rewrite <- rev_app_distr, <- Hs. by rewrite rev_involutive.
Qed.

Lemma stripped_trim r : stripFrom false r = r -> stripFrom false (trim r) = trim r.
Proof.
  intros Hr. unfold trim.
  destruct (trimStart_split r) as (ws & _ & Hs).
  rewrite Hs in Hr. apply stripped_suffix in Hr.
  destruct (trimEnd_split (trimStart r)) as (ws' & He).
  rewrite He in Hr. by apply stripped_prefix in Hr.
Qed.

(** What goes to the summariser is the title, an empty line, and a body
    of at least fifty code units that holds no markup; the body is the
    content handed in unless that is missing or blank, and the content of
    the item then; and the answer is "no content" exactly if neither is
    there. *)
Theorem summary_input_is_plain_text (title : jsstring)
    (itemContent providedContent : option jsstring) :
  let provided := default [] providedContent in
  let body := match trim provided with
              | [] => default [] itemContent
              | _ => provided
              end in
  match getFullTextForSummary title itemContent providedContent with
  | Success content =>
      content = title ++ [10; 10]%N ++ trim (strip body)
      /\ (50 <= length (trim (strip body)))%nat
      /\ strip (trim (strip body)) = trim (strip body)
  | TooShort => body <> [] /\ (length (trim (strip body)) < 50)%nat
  | NoContent => body = []
  end.
Proof.
  intros provided body.
  assert (Hbody : getFullTextForSummary title itemContent providedContent
                  = match body with
                    | [] => NoContent
                    | _ =>
                        if (length (trim (strip body)) <? 50)%nat then TooShort
                        else Success (title ++ [10; 10]%N ++ trim (strip body))
                    end).
  { assert (Hor : or_string itemContent [] = default [] itemContent)
      by (by destruct itemContent as [[|? ?]|]).
    unfold getFullTextForSummary, body, provided, stripHtmlTags.
    rewrite Hor.
    by destruct providedContent as [[|c p]|]. }
  rewrite Hbody. destruct body as [|c b] eqn:Hb; [done|]. rewrite <- Hb.
  destruct (Nat.ltb_spec (length (trim (strip body))) 50).
  - split; [by rewrite Hb|done].
  - split_and!; [done|done|].
    unfold strip. apply stripped_trim, stripFrom_stripped.
Qed.

(** ** The translation cache, end to end *)

Lemma saveTitleTranslation_keeps_translation now io id v s e :
  getCache id s = Some e ->
  exists e', getCache id (saveTitleTranslation now io id v s) = Some e'
             /\ translation e' = translation e
             /\ AiCache.titleTranslation e' = Some v.
Proof.
  destruct s as [[p|] m fs]; [|discriminate].
  unfold getCache, saveTitleTranslation, entryFor.
  cbn [cacheFilePath cacheData]. intros ->.
  rewrite saveCache_cacheFilePath, saveCache_cacheData.
  cbn [cacheFilePath cacheData default].
  rewrite lookup_insert_eq. by eexists.
Qed.

(** A list of translations that the failure check lets through comes
    back from the cache as it was saved: [saveTranslationCache] followed
    by [ai-cache-get] and [loadAICache] restores the list and shows it,
    together with the translated title if there is one, whether or not
    the writes to the file succeed.  [JSON.parse] is taken to invert
    [JSON.stringify] on the list. *)
Theorem saved_translation_is_restored
    (stringify : list TranslationResult -> jsstring)
    (parse : jsstring -> option (list TranslationResult))
    (m : Main) (userData : jsstring) (now1 now2 : Z) (io1 io2 : bool)
    (itemId : jsstring) (l : list TranslationResult) (title : jsstring) :
  coherent m ->
  hasFailure l = false ->
  stringify l <> [] ->
  parse (stringify l) = Some l ->
  let m1 := saveTranslationCache stringify true userData now1 now2 io1 io2
              itemId l title m in
  let u := loadAICache parse (ai_cache_get true userData itemId m1).2 in
  aiTranslation u = Some l
  /\ showTranslation u = Some true
  /\ (title <> [] -> titleUpdate u = Some title).
Proof.
  intros Hm Hfail Hne Hparse m1 u.
  set (m' := ai_cache_save_translation true userData now1 io1 itemId
               (stringify l) m).
  destruct (ensureCacheInit_ready userData m Hm) as [Hi Hp].
  assert (Hi' : cacheInitialized m' = true) by done.
  assert (He : exists e, getCache itemId (store m') = Some e
                         /\ translation e = Some (stringify l)).
  { unfold m', ai_cache_save_translation. cbn [store].
    destruct (saveTranslation_getCache now1 io1 itemId (stringify l) _ Hp)
      as (e & ? & ? & _). eauto. }
  destruct He as (e & Hget & Htr).
  assert (Hload : forall m2 e2,
            cacheInitialized m2 = true ->
            getCache itemId (store m2) = Some e2 ->
            translation e2 = Some (stringify l) ->
            let u2 := loadAICache parse (ai_cache_get true userData itemId m2).2 in
            aiTranslation u2 = Some l /\ showTranslation u2 = Some true
            /\ titleUpdate u2
               = Some (or_string (AiCache.titleTranslation e2) [])).
  { intros m2 e2 Hi2 Hget2 Htr2. cbn zeta.
    unfold ai_cache_get, ensureCacheInit. rewrite Hi2. cbn [negb andb snd].
    rewrite Hget2. unfold loadAICache. rewrite Htr2.
    destruct (stringify l) as [|c tr] eqn:Hs; [done|].
    by rewrite Hparse, Hfail. }
  assert (Hm1 : m1 = match title with
                     | [] => m'
                     | _ => ai_cache_save_title_translation true userData now2
                              io2 itemId title m'
                     end).
  { unfold m1, saveTranslationCache. by rewrite Hfail. }
  destruct title as [|c title].
  - destruct (Hload m' e Hi' Hget Htr) as (? & ? & _).
    unfold u. rewrite Hm1. done.
  - set (t := c :: title) in *.
    assert (Hm2 : cacheInitialized m1 = true).
    { rewrite Hm1. unfold ai_cache_save_title_translation, ensureCacheInit.
      by rewrite Hi'. }
    assert (Hget2 : exists e2, getCache itemId (store m1) = Some e2
                               /\ translation e2 = Some (stringify l)
                               /\ AiCache.titleTranslation e2 = Some t).
    { rewrite Hm1. unfold ai_cache_save_title_translation, ensureCacheInit.
      rewrite Hi'. cbn [negb andb store].
      destruct (saveTitleTranslation_keeps_translation now2 io2 itemId t _ e Hget)
        as (e2 & ? & Ht2 & ?).
      exists e2. by rewrite Ht2. }
    destruct Hget2 as (e2 & Hget2 & Htr2 & Htitle2).
    destruct (Hload m1 e2 Hm2 Hget2 Htr2) as (? & ? & Hu).
    split_and!; [done|done|]. intros _. fold u in Hu.
    by rewrite Hu, Htitle2.
Qed.

Lemma saved_translation_is_restored_witness :
  let l := [mkResult (js "Hello") (js "Bonjour")] in
  let stringify := fun _ : list TranslationResult => js "[...]" in
  let parse := fun _ : jsstring => Some l in
  let m1 := saveTranslationCache stringify true (js "/data") 8 9 true false
              (js "item") l (js "Titre") (boot ∅) in
  let u := loadAICache parse (ai_cache_get true (js "/data") (js "item") m1).2 in
  aiTranslation u = Some l
  /\ showTranslation u = Some true
  /\ (js "Titre" <> [] -> titleUpdate u = Some (js "Titre")).
Proof.
  intros l stringify parse.
  apply (saved_translation_is_restored stringify parse (boot ∅) (js "/data")
           8 9 true false (js "item") l (js "Titre")).
  - unfold coherent. simpl. discriminate.
  - reflexivity.
  - discriminate.
  - reflexivity.
Defined.

(** ** Batches are started in the order of the plan *)

Section Order.
Context `{Runtime}.
Variable c : Call.

Lemma step_order ev m m' :
  queue m = drop (nextId m) (plan c) ->
  step c ev m = Some m' ->
  queue m' = drop (nextId m') (plan c).
Proof.
  intros Hq.
  intros [[_ Hmain]|[(tid & p & _ & ->)|[(tid & _ & _ & _ & Eq & _ & En & _)
                     |(_ & _ & _ & _ & Eq & _ & En & _)]]]%step_inv.
  - apply mainStep_inv in Hmain
      as [(_ & Eq & _ & En & _)|(b & rest & _ & Eq0 & _ & _ & Eq & _ & En & _)].
    + by rewrite Eq, En.
    + rewrite Eq, En. rewrite Hq in Eq0.
      rewrite <- (Nat.add_1_r (nextId m)), <- drop_drop, Eq0. done.
  - destruct (resume_fields tid p m) as (_ & Eq & _ & En & _).
    by rewrite Eq, En.
  - by rewrite Eq, En.
  - by rewrite Eq, En.
Qed.

Lemma reachable_order ab m :
  reachable c ab m -> queue m = drop (nextId m) (plan c).
Proof.
  intros [evs Hevs].
  eapply (steps_invariant c (fun m => queue m = drop (nextId m) (plan c)));
    [| |exact Hevs].
  - intros ev m1 m2. apply step_order.
  - done.
Qed.

End Order.

(** The batches are started in the order of the plan, each once: when
    [k] batches have been started, what is left to start is the plan
    without its first [k] batches, and the next batch to be started is
    batch [k] of the plan. *)
Theorem batches_start_in_plan_order `{Runtime} (c : Call) (ab : bool)
    (m m' : Machine) :
  reachable c ab m ->
  step c EvMain m = Some m' ->
  queue m
    = drop (nextId m) (createBatches (maxBatchSize c) (maxTextLen c) (paragraphs c))
  /\ (nextId m' = S (nextId m) ->
      exists b st,
        createBatches (maxBatchSize c) (maxTextLen c) (paragraphs c)
          !! nextId m = Some b
        /\ activePromises m' = activePromises m ++ [(nextId m, st)]
        /\ (world m', st)
           = advance (processBatch (config c) (onParagraphTranslated c)
                                   (targetLang c) b) (world m)).
Proof.
  intros Hm Hstep. pose proof (reachable_order c ab m Hm) as Hq.
  split; [done|]. intros Hn. cbn [step] in Hstep.
  apply mainStep_inv in Hstep
    as [(_ & _ & _ & En & _)|(b & rest & _ & Eq0 & _ & Ew & _ & Ea & _)];
    [lia|].
  exists b, (advance (processBatch (config c) (onParagraphTranslated c)
                                   (targetLang c) b) (world m)).2.
  split_and!.
  - rewrite Hq in Eq0. fold (plan c).
    rewrite <- (Nat.add_0_r (nextId m)), <- lookup_drop, Eq0. done.
  - done.
  - rewrite Ew. by destruct (advance _ _).
Qed.

Lemma step_default `{Runtime} (c : Call) ev m :
  (if step c ev m is Some _ then true else false) = true ->
  step c ev m = Some (default m (step c ev m)).
Proof. by destruct (step c ev m). Qed.

Lemma batches_start_in_plan_order_witness :
  let m := run (H:=plainRuntime) windowCall serviceDown 3
               (start windowCall false) in
  let m' := default m (step (H:=plainRuntime) windowCall EvMain m) in
  queue m
    = drop (nextId m) (createBatches (maxBatchSize windowCall)
                         (maxTextLen windowCall) (paragraphs windowCall))
  /\ (nextId m' = S (nextId m) ->
      exists b st,
        createBatches (maxBatchSize windowCall) (maxTextLen windowCall)
                      (paragraphs windowCall) !! nextId m = Some b
        /\ activePromises m' = activePromises m ++ [(nextId m, st)]
        /\ (world m', st)
           = advance (processBatch (H:=plainRuntime) (config windowCall)
                        (onParagraphTranslated windowCall)
                        (targetLang windowCall) b) (world m)).
Proof.
  intros m m'.
  apply (batches_start_in_plan_order (H:=plainRuntime) windowCall false m m').
  - apply run_reachable.
  - apply (step_default (H:=plainRuntime) windowCall EvMain m).
    vm_compute. reflexivity.
Defined.

(** ** One paragraph per request *)

Lemma singletons_texts i ps b :
  b ∈ singletons i ps -> length (texts b) = 1%nat.
Proof.
  unfold singletons. intros Hb.
  apply elem_of_lookup_zip_with in Hb as (k & j & p & -> & _). done.
Qed.

(** With at most one paragraph per request, which is the default, the
    array path of [translateBatch] is never taken: every request a call
    sends is the [translateText] request of one of its paragraphs. *)
Theorem default_requests_carry_one_paragraph `{Runtime} (c : Call)
    (ab : bool) (m : Machine) :
  maxBatchSize c <= 1 ->
  reachable c ab m ->
  Forall (fun req => exists p, p ∈ paragraphs c
                               /\ req = translateRequest (config c) p)
         (requests (world m)).
Proof.
  intros Hmax Hm.
  destruct (reachable_sound c ab m Hm) as ((_ & _ & _ & Hreqs) & _).
  eapply Forall_impl; [exact Hreqs|]. intros req [Hone|(b & Hb & Hlen & _)];
    [done|].
  exfalso. unfold plan in Hb. rewrite createBatches_planSoFar in Hb.
  rewrite planLoop_singletons in Hb by (done || by left).
  cbn [planSoFar batches currentBatch emptyBatch indices app] in Hb.
  apply singletons_texts in Hb. lia.
Qed.

Lemma default_requests_carry_one_paragraph_witness :
  let m := run (H:=plainRuntime) exampleCall serviceDown 5
               (start exampleCall false) in
  Forall (fun req => exists p, p ∈ paragraphs exampleCall
                      /\ req = translateRequest (H:=plainRuntime)
                                 (config exampleCall) p)
         (requests (world m)).
Proof.
  intros m.
  apply (default_requests_carry_one_paragraph (H:=plainRuntime) exampleCall
           false m).
  - vm_compute. discriminate.
  - apply run_reachable.
Defined.

(** ** Translations as they arrive *)

Lemma assignAt_lookup {A} (array : list (option A)) index (x : A) j :
  assignAt array index x !! j
  = if decide (j = index) then Some (Some x)
    else if decide (j < length array)%nat then array !! j
    else if decide (j < index)%nat then Some None
    else None.
Proof.
  unfold assignAt. destruct (Nat.ltb_spec index (length array)) as [Hin|Hout].
  - case_decide as Hj; [subst; by apply list_lookup_insert_eq|].
    rewrite list_lookup_insert_ne by done.
    case_decide; [done|]. rewrite lookup_ge_None_2 by lia.
    case_decide; [lia|done].
  - case_decide as Hj.
    + subst. rewrite lookup_app_r by lia.
      rewrite lookup_app_r by (rewrite length_replicate; lia).
      rewrite length_replicate. by rewrite Nat.sub_diag.
    + case_decide as Hlen; [by rewrite lookup_app_l|].
      rewrite lookup_app_r by lia. case_decide as Hlt.
      * rewrite lookup_app_l by (rewrite length_replicate; lia).
        apply lookup_replicate_2. lia.
      * apply lookup_ge_None_2.
        rewrite length_app, length_replicate. cbn [length]. lia.
Qed.

Lemma assignAt_length {A} (array : list (option A)) index (x : A) :
  length (assignAt array index x) = Nat.max (length array) (S index).
Proof.
  unfold assignAt. destruct (Nat.ltb_spec index (length array)).
  - rewrite length_insert. lia.
  - rewrite !length_app, length_replicate. cbn [length]. lia.
Qed.

Lemma landed_lookup (texts : list jsstring) (calls : list (nat * jsstring)) :
  NoDup (map fst calls) ->
  forall array,
    (forall i t, (i, t) ∈ calls ->
       landed texts array calls !! i = Some (Some (mkItem (texts !! i) t)))
    /\ (forall i, i ∉ map fst calls ->
          landed texts array calls !! i = array !! i
          \/ (array !! i = None /\ landed texts array calls !! i = Some None)).
Proof.
  unfold landed.
  induction calls as [|[i0 t0] calls IH]; intros Hnd array; cbn [foldl].
  - split; [by intros i t ?%elem_of_nil|by left].
  - change (map fst ((i0, t0) :: calls)) with (i0 :: map fst calls) in *.
    apply NoDup_cons in Hnd as [Hi0 Hnd].
    cbn [fst snd].
    set (array1 := assignAt array i0 (mkItem (texts !! i0) t0)).
    destruct (IH Hnd array1) as (Hin & Hout).
    pose proof (assignAt_lookup array i0 (mkItem (texts !! i0) t0)) as Hlook.
    fold array1 in Hlook.
    split.
    + intros i t [[= -> ->]|Hit]%elem_of_cons; [|by apply Hin].
      destruct (Hout i0 Hi0) as [->|[Hnone _]].
      * rewrite Hlook. by rewrite decide_True.
      * rewrite Hlook, decide_True in Hnone by done. done.
    + intros i [Hne Hi]%not_elem_of_cons.
      specialize (Hlook i). rewrite decide_False in Hlook by done.
      destruct (Hout i Hi) as [Heq|[Hnone Hsome]].
      * rewrite Heq, Hlook. repeat case_decide; auto.
        -- right. split; [|done]. apply lookup_ge_None_2. lia.
        -- left. symmetry. apply lookup_ge_None_2. lia.
      * rewrite Hsome. right. split; [|done].
        rewrite Hlook in Hnone. repeat case_decide; try done.
        apply lookup_ge_None_2. lia.
Qed.

(** The scripts do not wait for React: every callback of a current run
    executes its own, whatever the state of the queue. *)
Lemma viewSteps_inserted (texts : list jsstring) (unmounted : bool)
    (evs : list ViewEvent) (v : View) :
  insertedAt (inserted (foldl (viewStep texts false unmounted) v evs))
  = insertedAt (inserted v)
    ++ map fst (filter (fun call => trim call.2 <> []) (callbacks evs)).
Proof.
  revert v. induction evs as [|[i t|] evs IH]; intros v; cbn [foldl].
  - by rewrite app_nil_r.
  - rewrite IH.
    change (callbacks (Translated i t :: evs)) with ((i, t) :: callbacks evs).
    unfold viewStep, onTranslated, updateAIState.
    assert (Hins : forall w : View,
              inserted (if unmounted then w
                        else mkView (stateTranslation w)
                               (queued w ++
                                [assignAt (stateTranslation w) i
                                   (mkItem (texts !! i) t)])
                               (inserted w))
              = inserted w) by (intros w; by destruct unmounted).
    rewrite Hins. cbn [inserted].
    rewrite insertedAt_app, <- app_assoc. f_equal.
    rewrite filter_cons. unfold insertTranslatedParagraph. cbn [snd].
    destruct (trim t) eqn:Ht.
    + by rewrite decide_False by (by intros ?).
    + by rewrite decide_True by done.
  - rewrite IH. done.
Qed.

(** With React rendering between the callbacks, the view goes through
    the lists that the callbacks build one on the other. *)
Lemma viewSteps_landed (texts : list jsstring) (evs : list ViewEvent) :
  forall (waiting : bool) (v : View),
    flushedBetween waiting evs = true ->
    (if waiting then exists l, queued v = [l] else queued v = []) ->
    stateTranslation (flush (foldl (viewStep texts false false) v evs))
    = landed texts (stateTranslation (flush v)) (callbacks evs).
Proof.
  induction evs as [|[i t|] evs IH]; intros waiting v Hfl Hq; cbn [foldl].
  - done.
  - cbn [flushedBetween] in Hfl. apply andb_true_iff in Hfl as [Hw Hfl].
    destruct waiting; [done|]. cbn [negb] in Hw.
    change (callbacks (Translated i t :: evs)) with ((i, t) :: callbacks evs).
    rewrite (IH true _ Hfl).
    + unfold landed. cbn [foldl fst snd]. f_equal.
      unfold viewStep, onTranslated, updateAIState, flush.
      cbn [stateTranslation queued]. rewrite Hq. done.
    + unfold viewStep, onTranslated, updateAIState. cbn [queued].
      rewrite Hq. by eexists.
  - cbn [flushedBetween] in Hfl.
    change (callbacks (Flush :: evs)) with (callbacks evs).
    rewrite (IH false _ Hfl); [|done].
    done.
Qed.

(** If React renders between any two callbacks then, in whatever order
    the translations of a run arrive, each ends up in the list of the
    article view under the index of its paragraph, beside that paragraph,
    and the indices not yet reported are gaps; and each translation that
    is not blank has its script executed, in the order of arrival. *)
Theorem translations_land_at_their_index (texts : list jsstring)
    (evs : list ViewEvent) :
  flushedBetween false evs = true ->
  NoDup (map fst (callbacks evs)) ->
  let v := flush (foldl (viewStep texts false false) (mkView [] [] []) evs) in
  (forall i t, Translated i t ∈ evs ->
     stateTranslation v !! i = Some (Some (mkItem (texts !! i) t)))
  /\ (forall i, i ∉ map fst (callbacks evs) ->
        stateTranslation v !! i = None \/ stateTranslation v !! i = Some None)
  /\ insertedAt (inserted v)
     = map fst (filter (fun call => trim call.2 <> []) (callbacks evs)).
Proof.
  intros Hfl Hnd v.
  assert (Hstate : stateTranslation v = landed texts [] (callbacks evs)).
  { unfold v. by rewrite (viewSteps_landed texts evs false). }
  destruct (landed_lookup texts (callbacks evs) Hnd []) as [Hin Hout].
  split_and!.
  - intros i t Hev. rewrite Hstate. apply Hin.
    unfold callbacks. apply list_elem_of_omap. by exists (Translated i t).
  - intros i Hi. rewrite Hstate.
    destruct (Hout i Hi) as [->|[_ ->]]; [by left|by right].
  - unfold v, flush. cbn [inserted].
    by rewrite viewSteps_inserted.
Qed.

Lemma translations_land_at_their_index_witness :
  let texts := [js "a"; js "b"; js "c"] in
  let evs := [Translated 2 (js "C"); Flush; Flush; Translated 0 (js "A")] in
  let v := flush (foldl (viewStep texts false false) (mkView [] [] []) evs) in
  (forall i t, Translated i t ∈ evs ->
     stateTranslation v !! i = Some (Some (mkItem (texts !! i) t)))
  /\ (forall i, i ∉ map fst (callbacks evs) ->
        stateTranslation v !! i = None \/ stateTranslation v !! i = Some None)
  /\ insertedAt (inserted v)
     = map fst (filter (fun call => trim call.2 <> []) (callbacks evs)).
Proof.
  intros texts evs.
  apply (translations_land_at_their_index texts evs).
  - vm_compute. reflexivity.
  - apply (bool_decide_unpack _). vm_compute. reflexivity.
Defined.

(** Without a render in between, the second callback copies the list as
    it was before the first: its update replaces the one of the first,
    and the first translation is lost from the list, though its script
    has been executed. *)
Example unflushed_callback_overwrites :
  let texts := [js "a"; js "b"] in
  let evs := [Translated 0 (js "A"); Translated 1 (js "B"); Flush] in
  let v := foldl (viewStep texts false false) (mkView [] [] []) evs in
  stateTranslation v = [None; Some (mkItem (Some (js "b")) (js "B"))]
  /\ insertedAt (inserted v) = [0; 1]%nat.
Proof. split; vm_compute; reflexivity. Qed.

(** ** The retries are bounded *)

Section Frugal.
Context `{Runtime}.

Lemma frugal_mono {A} d d' (p : Async A) :
  frugal d p -> (d <= d')%nat -> frugal d' p.
Proof.
  intros Hp. revert d'.
  induction Hp as [d a|d e|d req k _ IH|d ms k _ IH|d k _ IH|d i t k _ IH
                  |d i t k _ IH|d]; intros d' Hle; try (constructor; auto).
  destruct d' as [|d']; [lia|]. constructor. intros r. apply IH. lia.
Qed.

Lemma frugal_bind {A B} d1 d2 (p : Async A) (f : A -> Async B) :
  frugal d1 p -> (forall a, frugal d2 (f a)) -> frugal (d1 + d2) (bind p f).
Proof.
  intros Hp Hf.
  induction Hp as [d a|d e|d req k _ IH|d ms k _ IH|d k _ IH|d i t k _ IH
                  |d i t k _ IH|d]; cbn [bind]; try (constructor; auto).
  eapply frugal_mono; [apply Hf|lia].
Qed.

Lemma frugal_try_catch {A} d1 d2 (p : Async A) (h : JsError -> Async A) :
  frugal d1 p -> (forall e, frugal d2 (h e)) ->
  frugal (d1 + d2) (try_catch p h).
Proof.
  intros Hp Hh.
  induction Hp as [d a|d e|d req k _ IH|d ms k _ IH|d k _ IH|d i t k _ IH
                  |d i t k _ IH|d]; cbn [try_catch]; try (constructor; auto).
  eapply frugal_mono; [apply Hh|lia].
Qed.

Lemma frugal_translateText config t lang :
  frugal 1 (translateText config t lang).
Proof. constructor. intros [text|e]; constructor. Qed.

Lemma frugal_translateSequential config ts lang :
  frugal (length ts) (translateSequential config ts lang).
Proof.
  induction ts as [|t ts IH]; cbn [translateSequential length]; [constructor|].
  change (S (length ts)) with (1 + length ts)%nat.
  apply frugal_bind; [apply frugal_translateText|]. intros r.
  replace (length ts) with (length ts + 0)%nat by lia.
  apply frugal_bind; [exact IH|]. constructor.
Qed.

Lemma frugal_translateBatch config ts lang :
  frugal (requestsPerAttempt ts) (translateBatch config ts lang).
Proof.
  unfold translateBatch, requestsPerAttempt. destruct ts as [|t [|t' ts]].
  - constructor.
  - change 1%nat with (1 + 0)%nat.
    apply frugal_bind; [apply frugal_translateText|]. constructor.
  - unfold chatCompletion. cbn [bind]. constructor.
    intros [raw|e]; cbn [bind]; [|constructor].
    destruct (parseBatch _ _); [constructor|].
    apply frugal_translateSequential.
Qed.

Lemma frugal_updateResults cb l j idxs : frugal 0 (updateResults cb l j idxs).
Proof.
  revert j. induction idxs as [|i idxs IH]; intros j; cbn [updateResults];
    [constructor|].
  unfold assignTranslated, notify. cbn [bind]. constructor.
  intros [|]; cbn [bind]; [|constructor].
  destruct cb; cbn [bind]; [|apply IH].
  constructor. intros [|]; cbn [bind]; [apply IH|].
  constructor. cbn [bind]. apply IH.
Qed.

Lemma frugal_markEmpty idxs : frugal 0 (markEmpty idxs).
Proof.
  induction idxs as [|i idxs IH]; cbn [markEmpty]; [constructor|].
  unfold assignTranslated. cbn [bind]. constructor.
  intros [|]; cbn [bind]; [exact IH|constructor].
Qed.

Lemma frugal_attempt config cb lang b :
  frugal (requestsPerAttempt (texts b)) (attempt config cb lang b).
Proof.
  unfold attempt.
  replace (requestsPerAttempt (texts b))
    with (requestsPerAttempt (texts b) + 0)%nat by lia.
  apply frugal_bind; [apply frugal_translateBatch|]. intros l.
  change 0%nat with (0 + 0)%nat.
  apply frugal_bind; [|intros _; apply frugal_updateResults].
  unfold verifyContent. destruct (List.find _ _); constructor.
Qed.

Lemma frugal_retryLoop config cb lang b fuel retryCount :
  (retryCount <= maxRetries)%nat ->
  frugal ((S maxRetries - retryCount) * requestsPerAttempt (texts b))
         (retryLoop fuel config cb lang b retryCount).
Proof.
  revert retryCount. induction fuel as [|fuel IH]; intros retryCount Hle;
    cbn [retryLoop]; [constructor|].
  constructor. intros [|]; [constructor|].
  replace ((S maxRetries - retryCount) * requestsPerAttempt (texts b))%nat
    with (requestsPerAttempt (texts b)
          + (maxRetries - retryCount) * requestsPerAttempt (texts b))%nat
    by (replace (S maxRetries - retryCount)%nat
          with (S (maxRetries - retryCount)) by lia; cbn [Nat.mul]; lia).
  apply frugal_try_catch; [apply frugal_attempt|].
  intros e. destruct (isAbort e); [constructor|].
  destruct (Nat.ltb_spec maxRetries (S retryCount)) as [Hover|Hroom].
  - eapply frugal_mono; [apply frugal_markEmpty|lia].
  - constructor.
    replace (maxRetries - retryCount)%nat
      with (S maxRetries - S retryCount)%nat by lia.
    apply IH. lia.
Qed.

Lemma frugal_processBatch config cb lang b :
  frugal (requestBound b) (processBatch config cb lang b).
Proof.
  unfold processBatch, requestBound. constructor. intros [|]; [constructor|].
  replace (S maxRetries) with (S maxRetries - 0)%nat by lia.
  apply frugal_retryLoop. lia.
Qed.

(** Up to its next [await] a task spends what it sends. *)
Lemma advance_frugal d (p : Async unit) w :
  frugal d p ->
  exists d',
    (length (requests (advance p w).1) + d' <= length (requests w) + d)%nat
    /\ forall tid, allowance (tid, (advance p w).2) d'.
Proof.
  intros Hp. revert w.
  induction Hp as [d a|d e|d req k Hk _|d ms k Hk _|d k _ IH|d i t k _ IH
                  |d i t k _ IH|d]; intros w; cbn [advance fst snd].
  - exists 0%nat. split; [lia|done].
  - exists 0%nat. split; [lia|done].
  - exists d. split; [|done]. cbn [send requests]. rewrite length_app. cbn. lia.
  - exists d. split; [lia|done].
  - apply IH.
  - destruct (setTranslated i t (results w)) as [rs|]; [|apply IH].
    destruct (IH true (mkWorld rs (aborted w) (requests w) (reported w)))
      as (d' & Hle & Hal). by exists d'.
  - destruct (IH (mkWorld (results w) (aborted w) (requests w)
                          (reported w ++ [(i, t)]))) as (d' & Hle & Hal).
    by exists d'.
  - exists 0%nat. split; [lia|done].
Qed.

Lemma allowance_lookup a ws tid st :
  Forall2 allowance a ws ->
  statusOf tid a = Some st ->
  exists wt,
    allowance (tid, st) wt
    /\ (forall st' wt',
          allowance (tid, st') wt' ->
          exists ws', Forall2 allowance (setStatus tid st' a) ws'
                      /\ (sumWeights ws' + wt = sumWeights ws + wt')%nat)
    /\ (exists ws', Forall2 allowance (splice tid a) ws'
                    /\ (sumWeights ws' <= sumWeights ws)%nat).
Proof.
  induction 1 as [|[i old] wt a ws Hw Hall IH]; cbn [statusOf]; [done|].
  destruct (i =? tid)%nat eqn:Heq.
  - intros [= ->]. exists wt. split_and!; [done| |].
    + intros st' wt' Hw'. exists (wt' :: ws). cbn [setStatus]. rewrite Heq.
      split; [by constructor|]. unfold sumWeights; cbn [foldr]. lia.
    + exists ws. cbn [splice]. rewrite Heq. split; [done|].
      unfold sumWeights; cbn [foldr]. lia.
  - intros Hst. destruct (IH Hst) as (wt0 & Hw0 & Hset & ws2 & Hspl & Hsum2).
    exists wt0. split_and!; [done| |].
    + intros st' wt' Hw'. destruct (Hset st' wt' Hw') as (ws1 & Hall1 & Hsum1).
      exists (wt :: ws1). cbn [setStatus]. rewrite Heq.
      split; [by constructor|]. unfold sumWeights in *; cbn [foldr] in *. lia.
    + exists (wt :: ws2). cbn [splice]. rewrite Heq.
      split; [by constructor|]. unfold sumWeights in *; cbn [foldr] in *. lia.
Qed.

Variable c : Call.

Lemma step_thrifty ev m m' N :
  thrifty m N -> step c ev m = Some m' -> thrifty m' N.
Proof.
  intros Hm Hstep. pose proof Hm as (ws & Hws & HN).
  destruct ev as [|tid r|tid|tid|]; cbn [step] in Hstep.
  - apply mainStep_inv in Hstep
      as [(Ew & Eq & Ea & _)|(b & rest & _ & Eq0 & _ & Ew & Eq & Ea & _)].
    + exists ws. by rewrite Ew, Eq, Ea.
    + destruct (advance_frugal _ _ (world m)
                  (frugal_processBatch (config c) (onParagraphTranslated c)
                                       (targetLang c) b)) as (d' & Hle & Hal).
      exists (ws ++ [d']). rewrite Ew, Eq, Ea. split.
      * apply Forall2_app; [done|]. constructor; [apply Hal|constructor].
      * rewrite sumWeights_app. rewrite Eq0 in HN.
        change (sumWeights [d']) with (d' + 0)%nat.
        change (requestBudget (b :: rest))
          with (requestBound b + requestBudget rest)%nat in HN.
        lia.
  - destruct (statusOf tid _) as [[k|k| | |]|] eqn:Hst; try done.
    injection Hstep as <-.
    destruct (allowance_lookup _ _ _ _ Hws Hst) as (wt & Hal & Hset & _).
    destruct (advance_frugal wt (k r) (world m) (Hal r)) as (d' & Hle & Hal').
    destruct (Hset _ _ (Hal' tid)) as (ws' & Hws' & Hsum).
    destruct (resume_fields tid (k r) m) as (Ew & Eq & Ea & _).
    exists ws'. rewrite Ew, Eq, Ea. split; [done|]. lia.
  - destruct (statusOf tid _) as [[k|k| | |]|] eqn:Hst; try done.
    injection Hstep as <-.
    destruct (allowance_lookup _ _ _ _ Hws Hst) as (wt & Hal & Hset & _).
    destruct (advance_frugal wt k (world m) Hal) as (d' & Hle & Hal').
    destruct (Hset _ _ (Hal' tid)) as (ws' & Hws' & Hsum).
    destruct (resume_fields tid k m) as (Ew & Eq & Ea & _).
    exists ws'. rewrite Ew, Eq, Ea. split; [done|]. lia.
  - destruct (statusOf tid _) as [[k|k| | |]|] eqn:Hst; try done.
    injection Hstep as <-.
    destruct (allowance_lookup _ _ _ _ Hws Hst) as (_ & _ & _ & ws' & Hws' & Hsum).
    exists ws'. cbn [world queue activePromises]. split; [done|]. lia.
  - injection Hstep as <-. exists ws. cbn [world queue activePromises requests].
    done.
Qed.

Lemma reachable_thrifty ab m :
  reachable c ab m -> thrifty m (requestBudget (plan c)).
Proof.
  intros [evs Hevs].
  eapply (steps_invariant c (fun m => thrifty m (requestBudget (plan c))));
    [| |exact Hevs].
  - intros ev m1 m2. apply step_thrifty.
  - exists []. split; [constructor|].
    cbn [start world queue requests length sumWeights foldr Nat.add].
    unfold plan. lia.
Qed.

End Frugal.

Lemma requestBudget_singletons i ps :
  requestBudget (singletons i ps) = (21 * length ps)%nat.
Proof.
  revert i. induction ps as [|p ps IH]; intros i; [done|].
  change (singletons i (p :: ps))
    with (mkBatch [i] [p] :: singletons (S i) ps).
  change (requestBudget (mkBatch [i] [p] :: singletons (S i) ps))
    with (21 + requestBudget (singletons (S i) ps))%nat.
  rewrite IH. cbn [length]. lia.
Qed.

(** Whatever the service answers, a call does not retry for ever: over
    its first attempt and its twenty retries a batch sends at most 21
    times the requests of one attempt, which are one for a single
    paragraph, and the array and then every paragraph for more; so the
    requests of a whole call never exceed the sum of that over the plan,
    which is 21 for each paragraph when batches hold one paragraph. *)
Theorem requests_are_bounded `{Runtime} (c : Call) (ab : bool) (m : Machine) :
  reachable c ab m ->
  (length (requests (world m))
   <= requestBudget (createBatches (maxBatchSize c) (maxTextLen c)
                                   (paragraphs c)))%nat
  /\ (maxBatchSize c <= 1 ->
      (length (requests (world m)) <= 21 * length (paragraphs c))%nat).
Proof.
  intros Hm. destruct (reachable_thrifty c ab m Hm) as (ws & _ & HN).
  fold (plan c). split; [lia|]. intros Hmax.
  assert (Hplan : requestBudget (plan c) = (21 * length (paragraphs c))%nat).
  { unfold plan. rewrite createBatches_planSoFar.
    rewrite planLoop_singletons by (done || by left).
    cbn [planSoFar batches currentBatch emptyBatch indices app].
    apply requestBudget_singletons. }
  lia.
Qed.

Lemma requests_are_bounded_witness :
  let m := run (H:=plainRuntime) exampleCall serviceDown (runBound exampleCall)
               (start exampleCall false) in
  length (requests (world m)) = 21%nat
  /\ (length (requests (world m))
      <= requestBudget (createBatches (maxBatchSize exampleCall)
                          (maxTextLen exampleCall) (paragraphs exampleCall)))%nat
  /\ (maxBatchSize exampleCall <= 1 ->
      (length (requests (world m)) <= 21 * length (paragraphs exampleCall))%nat).
Proof.
  intros m. split; [vm_compute; reflexivity|].
  apply (requests_are_bounded (H:=plainRuntime) exampleCall false m).
  apply run_reachable.
Defined.
